(** * hi18n eslint-plugin: the import synthesizer and the Lingui migration rule

    A shallow embedding of
    [packages/eslint-plugin/src/rules/migrate-from-lingui.ts]:
    [getOrInsertImport], the [translationJSX] listener of [create],
    [eligibleForJSXTagNameExpression] and [jsxAttributeString].

    JavaScript strings are sequences of UTF-16 code units, and ESLint
    ranges count code units, so a string is a [list N] here and a text
    offset is an index in that list. *)

From Stdlib Require Import String Ascii NArith Arith List Lia DecimalNat.
From stdpp Require Import base option list sets gmap.

Open Scope N_scope.
Open Scope nat_scope.

(** ** JavaScript strings *)

Module Js.

Abbreviation JsString := (list N).

(** An ASCII literal as a JavaScript string. *)
Definition lit (s : string) : JsString :=
  N_of_ascii <$> list_ascii_of_string s.

Definition dquote : N := 34%N.
Definition squote : N := 39%N.
Definition backslash : N := 92%N.
Definition LF : N := 10%N.
Definition CR : N := 13%N.
Definition LS : N := 8232%N. (* U+2028 *)
Definition PS : N := 8233%N. (* U+2029 *)

(** [" ".repeat(n)] *)
Definition spaces (n : nat) : JsString := replicate n 32%N.

(** Number-to-string of a non-negative integer loop counter, as the
    template literal [`${i}`] renders it: its decimal digits. (The
    counter of the renaming loop never exceeds the number of declared
    names, far below the 2^53 and 10^21 where a JavaScript number stops
    counting or printing this way.) *)
Fixpoint digits (d : Decimal.uint) : JsString :=
  match d with
  | Decimal.Nil => []
  | Decimal.D0 d => 48%N :: digits d
  | Decimal.D1 d => 49%N :: digits d
  | Decimal.D2 d => 50%N :: digits d
  | Decimal.D3 d => 51%N :: digits d
  | Decimal.D4 d => 52%N :: digits d
  | Decimal.D5 d => 53%N :: digits d
  | Decimal.D6 d => 54%N :: digits d
  | Decimal.D7 d => 55%N :: digits d
  | Decimal.D8 d => 56%N :: digits d
  | Decimal.D9 d => 57%N :: digits d
  end.

Definition numberToString (i : nat) : JsString := digits (Nat.to_uint i).

Definition isDigit (c : N) : bool := (48 <=? c)%N && (c <=? 57)%N.

(** [JSON.stringify] on a string (ECMA-262, QuoteJSONString): the
    two-character escapes, [\uXXXX] for the other control characters and
    for unpaired surrogates, everything else unchanged. *)
Definition hexDigit (n : N) : N :=
  if (n <? 10)%N then (48 + n)%N else (87 + n)%N.

Definition unicodeEscape (c : N) : JsString :=
  [backslash; 117%N;
   hexDigit (c / 4096 mod 16)%N; hexDigit (c / 256 mod 16)%N;
   hexDigit (c / 16 mod 16)%N; hexDigit (c mod 16)%N].

Definition isLeadSurrogate (c : N) : bool := (55296 <=? c)%N && (c <=? 56319)%N.
Definition isTrailSurrogate (c : N) : bool := (56320 <=? c)%N && (c <=? 57343)%N.

Definition quoteUnit (c : N) : JsString :=
  if (c =? 8)%N then [backslash; 98%N]
  else if (c =? 9)%N then [backslash; 116%N]
  else if (c =? 10)%N then [backslash; 110%N]
  else if (c =? 12)%N then [backslash; 102%N]
  else if (c =? 13)%N then [backslash; 114%N]
  else if (c =? dquote)%N then [backslash; dquote]
  else if (c =? backslash)%N then [backslash; backslash]
  else if (c <? 32)%N then unicodeEscape c
  else if isLeadSurrogate c || isTrailSurrogate c then unicodeEscape c
  else [c].

Fixpoint quoteBody (s : JsString) : JsString :=
  match s with
  | [] => []
  | c :: rest =>
      if isLeadSurrogate c then
        match rest with
        | d :: rest' =>
            if isTrailSurrogate d then c :: d :: quoteBody rest'
            else unicodeEscape c ++ quoteBody rest
        | [] => unicodeEscape c
        end
      else quoteUnit c ++ quoteBody rest
  end.

Definition JSON_stringify (s : JsString) : JsString :=
  [dquote] ++ quoteBody s ++ [dquote].

(** Scanner for an occurrence of [q] that no backslash escapes: a
    backslash consumes the code unit after it. *)
Fixpoint hasUnescaped (q : N) (s : JsString) : bool :=
  match s with
  | [] => false
  | c :: rest =>
      if (c =? backslash)%N then
        match rest with
        | [] => false
        | _ :: rest' => hasUnescaped q rest'
        end
      else (c =? q)%N || hasUnescaped q rest
  end.

End Js.

Import Js.

(** ** The ESTree nodes and the ESLint services the rule reads *)

Module ESTree.

(** [node.range]: start and end offset in the text. *)
Abbreviation Range := (nat * nat)%type.

Inductive TokenType :=
| Tok_Boolean | Tok_Identifier | Tok_Keyword | Tok_Null | Tok_Numeric
| Tok_Punctuator | Tok_String | Tok_RegularExpression | Tok_Template
| Tok_JSXIdentifier | Tok_JSXText.

#[global] Instance TokenType_eq_dec : EqDecision TokenType.
Proof. solve_decision. Defined.

Record Token := {
  tok_type : TokenType;
  tok_value : JsString;
  tok_range : Range
}.

(** [importKind] of a declaration or specifier; absent counts as [value]. *)
Inductive ImportKind := kind_type | kind_value.

#[global] Instance ImportKind_eq_dec : EqDecision ImportKind.
Proof. solve_decision. Defined.

Inductive ImportClause :=
| ImportDefaultSpecifier (local : JsString) (range : Range)
| ImportNamespaceSpecifier (local : JsString) (range : Range)
| ImportSpecifier (imported local : JsString) (importKind : ImportKind)
    (range : Range).

Definition spec_local (spec : ImportClause) : JsString :=
  match spec with
  | ImportDefaultSpecifier l _ => l
  | ImportNamespaceSpecifier l _ => l
  | ImportSpecifier _ l _ _ => l
  end.

Definition spec_range (spec : ImportClause) : Range :=
  match spec with
  | ImportDefaultSpecifier _ r => r
  | ImportNamespaceSpecifier _ r => r
  | ImportSpecifier _ _ _ r => r
  end.

(** [(spec as any).importKind === "type"] *)
Definition spec_is_type (spec : ImportClause) : bool :=
  match spec with
  | ImportSpecifier _ _ kind_type _ => true
  | _ => false
  end.

Definition isImportSpecifier (spec : ImportClause) : bool :=
  match spec with ImportSpecifier _ _ _ _ => true | _ => false end.
Definition isImportDefaultSpecifier (spec : ImportClause) : bool :=
  match spec with ImportDefaultSpecifier _ _ => true | _ => false end.
Definition isImportNamespaceSpecifier (spec : ImportClause) : bool :=
  match spec with ImportNamespaceSpecifier _ _ => true | _ => false end.

Record ImportDeclaration := {
  source_value : JsString;      (* stmt.source.value *)
  source_range : Range;         (* stmt.source.range *)
  importKind : ImportKind;      (* stmt.importKind *)
  specifiers : list ImportClause;
  range : Range;
  loc_start_column : nat        (* stmt.loc.start.column *)
}.

Inductive Statement :=
| Import (stmt : ImportDeclaration)
| OtherStatement.

Record Program := {
  body : list Statement;
  program_range : Range;
  program_loc_start_column : nat
}.

(** The scope manager as [getOrInsertImport] uses it:
    [globalScope.block] and the names of
    [acquire(program, true).variables], in order. *)
Record ScopeManager := {
  globalScope_block : Program;
  programScope_variables : list JsString
}.

(** [SourceCode]: the text and its tokens (comments excluded), in
    source order. *)
Record SourceCode := {
  text : JsString;
  tokens : list Token
}.

(** [sourceCode.getTokensAfter(node, count)]: the first [count] tokens
    that start at or after the end of [node]. *)
Definition getTokensAfter (sc : SourceCode) (node : Range) (count : nat)
  : list Token :=
  take count (filter (fun t => node.2 <= (tok_range t).1) (tokens sc)).

(** [sourceCode.getTokenBefore(node, { skip })]: among the tokens that
    end at or before the start of [node], the one [skip] places before
    the nearest. *)
Definition getTokenBefore (sc : SourceCode) (node : Range) (skip : nat)
  : option Token :=
  reverse (filter (fun t => (tok_range t).2 <= node.1) (tokens sc)) !! skip.

(** [sourceCode.getText(node)] *)
Definition getText (sc : SourceCode) (node : Range) : JsString :=
  drop node.1 (take node.2 (text sc)).

End ESTree.

Import ESTree.

(** ** The rule fixer *)

Module Fixer.

Record RuleFix := {
  fix_range : Range;
  fix_text : JsString
}.

Definition insertTextAfter (nodeOrToken : Range) (t : JsString) : RuleFix :=
  {| fix_range := (nodeOrToken.2, nodeOrToken.2); fix_text := t |}.

Definition insertTextBefore (nodeOrToken : Range) (t : JsString) : RuleFix :=
  {| fix_range := (nodeOrToken.1, nodeOrToken.1); fix_text := t |}.

Definition replaceText (nodeOrToken : Range) (t : JsString) : RuleFix :=
  {| fix_range := nodeOrToken; fix_text := t |}.

(** What ESLint does with one fix: the text of its range is replaced. *)
Definition applyFix (src : JsString) (f : RuleFix) : JsString :=
  take (fix_range f).1 src ++ fix_text f ++ drop (fix_range f).2 src.

End Fixer.

Import Fixer.

(** ** [getOrInsertImport] *)

Module Synth.

(** The three variables the scan of [program.body] maintains. *)
Record Scan := {
  positionHintNode : option ImportDeclaration;
  importNode : option ImportDeclaration;
  lastImport : option ImportDeclaration
}.

Definition scan0 : Scan :=
  {| positionHintNode := None; importNode := None; lastImport := None |}.

(** The test of lines 225-229: the specifier already binds [importName]. *)
Definition bindsExport (importName : JsString) (spec : ImportClause) : bool :=
  match spec with
  | ImportDefaultSpecifier _ _ => bool_decide (importName = lit "default")
  | ImportSpecifier imported _ _ _ => bool_decide (imported = importName)
  | ImportNamespaceSpecifier _ _ => false
  end.

(** The inner loop over [stmt.specifiers]: [inl name] is the early
    [return [[], spec.local.name]], [inr e] the final value of
    [eligibleForNamedImport]. *)
Fixpoint scanSpecifiers (importName : JsString) (specs : list ImportClause)
    (eligibleForNamedImport : bool) : JsString + bool :=
  match specs with
  | [] => inr eligibleForNamedImport
  | spec :: rest =>
      if spec_is_type spec then
        scanSpecifiers importName rest eligibleForNamedImport
      else if bindsExport importName spec then inl (spec_local spec)
      else if isImportNamespaceSpecifier spec then
        scanSpecifiers importName rest false
      else scanSpecifiers importName rest eligibleForNamedImport
  end.

(** The loop over [program.body] (lines 216-243). *)
Fixpoint scanBody (source importName : JsString)
    (positionHintSources : list JsString)
    (stmts : list Statement) (st : Scan) : JsString + Scan :=
  match stmts with
  | [] => inr st
  | OtherStatement :: rest =>
      scanBody source importName positionHintSources rest st
  | Import stmt :: rest =>
      let st := {| positionHintNode := positionHintNode st;
                   importNode := importNode st;
                   lastImport := Some stmt |} in
      if bool_decide (source_value stmt = source) then
        match importKind stmt with
        | kind_type => scanBody source importName positionHintSources rest st
        | kind_value =>
            match scanSpecifiers importName (specifiers stmt) true with
            | inl name => inl name
            | inr eligibleForNamedImport =>
                scanBody source importName positionHintSources rest
                  (if negb (bool_decide (is_Some (importNode st)))
                      && eligibleForNamedImport
                   then {| positionHintNode := positionHintNode st;
                           importNode := Some stmt;
                           lastImport := lastImport st |}
                   else st)
            end
        end
      else if negb (bool_decide (is_Some (positionHintNode st)))
              && bool_decide (source_value stmt ∈ positionHintSources)
      then scanBody source importName positionHintSources rest
             {| positionHintNode := Some stmt;
                importNode := importNode st;
                lastImport := lastImport st |}
      else scanBody source importName positionHintSources rest st
  end.

(** The renaming loop [for (let i = 0; ; i++)] of lines 247-250. The
    source loop has no bound; [fuel] is the number of iterations this
    model may still run, and [None] means they ran out. *)
Fixpoint renameLoop (definedNames : gset JsString) (importName : JsString)
    (fuel i : nat) : option JsString :=
  match fuel with
  | 0 => None
  | S fuel =>
      let newName := importName ++ numberToString i in
      if negb (bool_decide (newName ∈ definedNames)) then Some newName
      else renameLoop definedNames importName fuel (S i)
  end.

(** Lines 244-251. One iteration more than there are variables is
    granted; [renameLoop_enough] shows no run needs more. *)
Definition chooseName (variables : list JsString) (importName : JsString)
  : option JsString :=
  if bool_decide (importName ∈ variables) then
    renameLoop (list_to_set variables) importName (S (length variables)) 0
  else Some importName.

(** Lines 252-253. *)
Definition specTextOf (importName newName : JsString) : JsString :=
  if bool_decide (newName = importName) then importName
  else importName ++ lit " as " ++ newName.

Definition isToken (ty : TokenType) (v : JsString) (t : Token) : bool :=
  bool_decide (tok_type t = ty) && bool_decide (tok_value t = v).

(** The text of a brand-new import statement. *)
Definition importStatementText (specText source : JsString) : JsString :=
  lit "import { " ++ specText ++ lit " } from " ++ JSON_stringify source
    ++ lit ";".

(** Lines 321-343: a brand-new statement after the last import, or
    before the position hint, or before the program. *)
Definition insertNewImport (program : Program) (st : Scan)
    (source specText : JsString) (doInsertAfter : bool) : RuleFix :=
  match (if doInsertAfter then lastImport st else None) with
  | Some last =>
      let indent := spaces (loc_start_column last) in
      insertTextAfter (range last)
        ([LF] ++ indent ++ importStatementText specText source)
  | None =>
      match positionHintNode st with
      | Some hint =>
          let indent := spaces (loc_start_column hint) in
          insertTextBefore (range hint)
            (importStatementText specText source ++ [LF] ++ indent)
      | None =>
          let indent := spaces (program_loc_start_column program) in
          insertTextBefore (program_range program)
            (importStatementText specText source ++ [LF] ++ indent)
      end
  end.

(** Lines 254-320: the edit inside the existing statement
    [importNode], when one of the recognised shapes applies. The outer
    [None] is a call that does not return (a non-null assertion that
    fails); [Some None] falls through to line 321. *)
Definition extendImport (sourceCode : SourceCode)
    (importNode : ImportDeclaration) (specText : JsString)
  : option (option RuleFix) :=
  if existsb isImportSpecifier (specifiers importNode) then
    lastSpecifier ← last (specifiers importNode);
    Some (Some (insertTextAfter (spec_range lastSpecifier)
                  (lit ", " ++ specText)))
  else if existsb isImportDefaultSpecifier (specifiers importNode) then
    defaultSpec ← find isImportDefaultSpecifier (specifiers importNode);
    let tokens := getTokensAfter sourceCode (spec_range defaultSpec) 2 in
    match tokens with
    | [t0; t1] =>
        if isToken Tok_Punctuator (lit ",") t0
           && isToken Tok_Punctuator (lit "{") t1
        then Some (Some (insertTextAfter (tok_range t1)
                           (lit " " ++ specText ++ lit " ")))
        else if isToken Tok_Identifier (lit "from") t0
        then Some (Some (insertTextAfter (tok_range t0)
                           (lit ", { " ++ specText ++ lit " }")))
        else Some None
    | t0 :: _ =>
        if isToken Tok_Identifier (lit "from") t0
        then Some (Some (insertTextAfter (tok_range t0)
                           (lit ", { " ++ specText ++ lit " }")))
        else Some None
    | [] => Some None
    end
  else
    match getTokenBefore sourceCode (source_range importNode) 0 with
    | Some token =>
        if isToken Tok_Identifier (lit "import") token
        then Some (Some (insertTextAfter (tok_range token)
                           (lit " { " ++ specText ++ lit " } from")))
        else if isToken Tok_Identifier (lit "from") token
        then
          match getTokenBefore sourceCode (source_range importNode) 2 with
          | Some openBraceToken =>
              if isToken Tok_Punctuator (lit "{") openBraceToken
              then Some (Some (insertTextAfter (tok_range openBraceToken)
                                 (lit " " ++ specText ++ lit " ")))
              else Some None
          | None => Some None
          end
        else Some None
    | None => Some None
    end.

(** [getOrInsertImport(sourceCode, scopeManager, fixer, source,
    importName, positionHintSources, doInsertAfter)]. [None]: the call
    does not return a value. *)
Definition getOrInsertImport (sourceCode : SourceCode)
    (scopeManager : ScopeManager) (source importName : JsString)
    (positionHintSources : list JsString) (doInsertAfter : bool)
  : option (list RuleFix * JsString) :=
  let program := globalScope_block scopeManager in
  match scanBody source importName positionHintSources (body program) scan0 with
  | inl name => Some ([], name)
  | inr st =>
      newName ← chooseName (programScope_variables scopeManager) importName;
      let specText := specTextOf importName newName in
      let fresh :=
        Some ([insertNewImport program st source specText doInsertAfter],
              newName) in
      match importNode st with
      | Some node =>
          attempt ← extendImport sourceCode node specText;
          match attempt with
          | Some f => Some ([f], newName)
          | None => fresh
          end
      | None => fresh
      end
  end.

End Synth.

Import Synth.

(** ** The rule: [jsxAttributeString], [eligibleForJSXTagNameExpression]
    and the [translationJSX] listener of [create] *)

Module Rule.

(** [/[...]/.test(text)] for a character class without flags: some code
    unit of [text] is in the class. *)
Definition testClass (class : list N) (t : JsString) : bool :=
  existsb (fun c => bool_decide (c ∈ class)) t.

Definition jsxAttributeString (t : JsString) : JsString :=
  if negb (testClass [CR; LF; LS; PS; dquote] t) then
    [dquote] ++ t ++ [dquote]
  else if negb (testClass [CR; LF; LS; PS; squote] t) then
    [squote] ++ t ++ [squote]
  else lit "{" ++ JSON_stringify t ++ lit "}".

Inductive LiteralValue :=
| StringValue (s : JsString)
| OtherValue. (* number, boolean, null, RegExp, bigint *)

Inductive PropertyKey :=
| KeyIdentifier (name : JsString)
| KeyLiteral (value : LiteralValue)
| KeyOther.

Record Property := {
  key : PropertyKey;
  computed : bool;
  value_range : Range
}.

Inductive ObjectMember :=
| PropertyMember (prop : Property)
| SpreadProperty.

(** An entry of [ArrayExpression.elements]: an expression, a spread,
    or [null] for a hole, as in [[ , x]]. The source asserts the type
    [(TSESTree.Expression | TSESTree.SpreadElement)[]] on line 129; the
    assertion does not remove the [null] entries the parser produces. *)
Inductive ArrayElement :=
| ExpressionElement (range : Range)
| SpreadElement
| HoleElement.

Inductive Node :=
| Identifier (name : JsString)
| MemberExpression (computed : bool) (object property : Node)
| Literal (value : LiteralValue)
| JSXElement
| ObjectExpression (properties : list ObjectMember)
| ArrayExpression (elements : list ArrayElement)
| OtherNode.

Inductive JSXAttributeName :=
| JSXIdentifier (name : JsString)
| JSXNamespacedName.

Inductive JSXAttributeItem :=
| JSXAttribute (name : JSXAttributeName)
| JSXSpreadAttribute.

(** A capture result: the tracker's [PropsOf] and [CaptureFailure]
    pseudo-nodes, or a syntax node with its range. *)
Inductive Captured :=
| PropsOf (attributes : list JSXAttributeItem)
| CaptureFailure
| Captured_node (node : Node) (range : Range).

Definition MIGRATABLE_PROP_NAMES : list JsString :=
  [lit "id"; lit "values"; lit "render"; lit "component"; lit "components"].

(** [/^[a-z]/.test(name)] *)
Definition startsLowercase (name : JsString) : bool :=
  match name with
  | c :: _ => (97 <=? c)%N && (c <=? 122)%N
  | [] => false
  end.

Fixpoint eligibleForJSXTagNameExpression (node : Node) (whole : bool) : bool :=
  match node with
  | Identifier name => if whole && startsLowercase name then false else true
  | MemberExpression computed object property =>
      negb computed
      && eligibleForJSXTagNameExpression object false
      && match property with Identifier _ => true | _ => false end
  | _ => false
  end.

(** The test of line 181: [paramKey] is [0], or a digit from 1 to 9
    followed by any number of digits. *)
Definition isArrayIndexKey (k : JsString) : bool :=
  match k with
  | [c] => isDigit c
  | c :: rest => (49 <=? c)%N && (c <=? 57)%N && forallb isDigit rest
  | [] => false
  end.

Inductive MessageIds := migrate_trans_jsx.

(** What the fix generator closes over. *)
Record FixEnv := {
  env_id : JsString;
  env_renderInElement : option JsString;
  env_params : list (JsString * JsString) (* the Map, in insertion order *)
}.

(** The descriptor passed to [context.report]; [fix_] is its [fix], absent
    in [justReport]. The reported node, [capturedRoot(propsNode)], comes
    from the tracker and is left out. *)
Record Report := {
  messageId : MessageIds;
  fix_ : option FixEnv
}.

Definition justReport : Report :=
  {| messageId := migrate_trans_jsx; fix_ := None |}.

(** A loop that either completes or leaves through
    [return justReport()]. *)
Inductive Check (A : Type) :=
| Ok (a : A)
| JustReport.
Arguments Ok {A} a.
Arguments JustReport {A}.

Record RuleContext := {
  sourceCode : SourceCode;
  scopeManager : ScopeManager;
  bookPath : JsString
}.

Section Listener.

(** [getStaticKey] of [../util]. *)
Variable getStaticKey : Property -> option JsString.

(** The test of line 178: an identifier start (or [$], [_]) followed
    by identifier parts, [-], [$], U+200C or U+200D; it needs the
    Unicode tables of the regular-expression engine. *)
Variable isJSXAttributeName : JsString -> bool.

Definition migratableAttribute (attr : JSXAttributeItem) : bool :=
  match attr with
  | JSXSpreadAttribute => false
  | JSXAttribute JSXNamespacedName => false
  | JSXAttribute (JSXIdentifier name) =>
      bool_decide (name ∈ MIGRATABLE_PROP_NAMES)
  end.

Definition paramsHas (k : JsString) (params : list (JsString * JsString))
  : bool :=
  bool_decide (k ∈ params.*1).

(** Lines 120-126. *)
Fixpoint objectLoop (sc : SourceCode) (properties : list ObjectMember)
    (params : list (JsString * JsString))
  : Check (list (JsString * JsString)) :=
  match properties with
  | [] => Ok params
  | SpreadProperty :: _ => JustReport
  | PropertyMember prop :: rest =>
      match getStaticKey prop with
      | None => JustReport
      | Some k =>
          if paramsHas k params then JustReport
          else objectLoop sc rest
                 (params ++ [(k, getText sc (value_range prop))])
      end
  end.

(** Lines 128-138. The first thing the body does with an element is
    to read [elem.type] (line 133), which throws a [TypeError] when the
    element is [null]: the result is then [None]. *)
Fixpoint arrayLoop (sc : SourceCode) (elements : list ArrayElement)
    (i : nat) (params : list (JsString * JsString))
  : option (Check (list (JsString * JsString))) :=
  match elements with
  | [] => Some (Ok params)
  | HoleElement :: _ => None
  | SpreadElement :: _ => Some JustReport
  | ExpressionElement r :: rest =>
      let k := numberToString i in
      if paramsHas k params then Some JustReport
      else arrayLoop sc rest (S i) (params ++ [(k, getText sc r)])
  end.

(** One round of the loop of line 118; [None] when it throws. *)
Definition valuesStep (sc : SourceCode) (valuesNode : Captured)
    (params : list (JsString * JsString))
  : option (Check (list (JsString * JsString))) :=
  match valuesNode with
  | Captured_node (ObjectExpression properties) _ =>
      Some (objectLoop sc properties params)
  | Captured_node (ArrayExpression elements) _ =>
      arrayLoop sc elements 0 params
  | CaptureFailure => Some (Ok params)
  | _ => Some JustReport
  end.

(** The listener of line 67. [None]: the listener throws, because a
    [captured[...]!] lookup found nothing or because line 133 read the
    type of an array hole. *)
Definition translationJSX (ctx : RuleContext) (captured : gmap string Captured)
  : option Report :=
  let sc := sourceCode ctx in
  propsNode ← captured !! "props"%string;
  match propsNode with
  | PropsOf attributes =>
      if negb (forallb migratableAttribute attributes) then Some justReport
      else
        idNode ← captured !! "id"%string;
        match idNode with
        | Captured_node (Literal (StringValue id)) _ =>
            renderNode ← captured !! "render"%string;
            let render1 : Check (option JsString) :=
              match renderNode with
              | Captured_node JSXElement r => Ok (Some (getText sc r))
              | CaptureFailure => Ok None
              | _ => JustReport
              end in
            match render1 with
            | JustReport => Some justReport
            | Ok renderInElement =>
                componentNode ← captured !! "component"%string;
                let render2 : Check (option JsString) :=
                  match componentNode with
                  | Captured_node (Identifier _ as e) r
                  | Captured_node (MemberExpression _ _ _ as e) r =>
                      if eligibleForJSXTagNameExpression e true
                      then Ok (Some (lit "<" ++ getText sc r ++ lit " />"))
                      else JustReport
                  | CaptureFailure => Ok renderInElement
                  | _ => JustReport
                  end in
                match render2 with
                | JustReport => Some justReport
                | Ok renderInElement =>
                    valuesNode ← captured !! "values"%string;
                    values1 ← valuesStep sc valuesNode [];
                    match values1 with
                    | JustReport => Some justReport
                    | Ok params =>
                        componentsNode ← captured !! "components"%string;
                        values2 ← valuesStep sc componentsNode params;
                        match values2 with
                        | JustReport => Some justReport
                        | Ok params =>
                            Some {| messageId := migrate_trans_jsx;
                                    fix_ := Some
                                      {| env_id := id;
                                         env_renderInElement := renderInElement;
                                         env_params := params |} |}
                        end
                    end
                end
            end
        | _ => Some justReport
        end
  | _ => Some justReport
  end.

(** Lines 176-186: the attribute text of one parameter. *)
Definition paramAttribute (p : JsString * JsString) : JsString :=
  if isJSXAttributeName p.1 then p.1 ++ lit "={" ++ p.2 ++ lit "}"
  else if isArrayIndexKey p.1 then
    lit "{...{ " ++ p.1 ++ lit ": " ++ p.2 ++ lit " }}"
  else lit "{...{ " ++ JSON_stringify p.1 ++ lit ": " ++ p.2 ++ lit " }}".

(** The two imports the fix generator asks for, both against the
    same source code and scope manager (lines 148-168). *)
Definition fixImports (ctx : RuleContext)
  : option ((list RuleFix * JsString) * (list RuleFix * JsString)) :=
  translate ← getOrInsertImport (sourceCode ctx) (scopeManager ctx)
                (lit "@hi18n/react") (lit "Translate")
                [lit "@lingui/react"; lit "@lingui/macro"] false;
  book ← getOrInsertImport (sourceCode ctx) (scopeManager ctx)
           (bookPath ctx) (lit "book") [] true;
  Some (translate, book).

(** The fix generator (lines 147-192): every fix it yields, in order. *)
Definition runFix (ctx : RuleContext) (node : Range) (env : FixEnv)
  : option (list RuleFix) :=
  imports ← fixImports ctx;
  let '((translateImportFixes, translateComponentName),
        (bookImportFixes, bookName)) := imports in
  let attrs :=
    [lit "book={" ++ bookName ++ lit "}";
     lit "id=" ++ jsxAttributeString (env_id env)]
    ++ match env_renderInElement env with
       | Some r => [lit "renderInElement={" ++ r ++ lit "}"]
       | None => []
       end
    ++ (paramAttribute <$> env_params env) in
  Some (translateImportFixes ++ bookImportFixes
        ++ [replaceText node
              (lit "<" ++ translateComponentName
               ++ concat ((fun a => lit " " ++ a) <$> attrs)
               ++ lit " />")]).

End Listener.

End Rule.

Import Rule.

(** ** Vocabulary of the properties *)

Module Props.

(** The import declarations of a program body, in source order. *)
Definition imports (stmts : list Statement) : list ImportDeclaration :=
  omap (fun s => match s with Import d => Some d | OtherStatement => None end)
       stmts.

(** A value import from the target module. *)
Definition valueImportFrom (source : JsString) (stmt : ImportDeclaration)
  : Prop :=
  source_value stmt = source ∧ importKind stmt ≠ kind_type.

(** A value specifier that binds the requested export: a default
    specifier when the export is [default], or a named specifier that
    imports it. *)
Definition alreadyBinds (importName : JsString) (spec : ImportClause) : Prop :=
  spec_is_type spec = false ∧
  ((∃ l r, spec = ImportDefaultSpecifier l r ∧ importName = lit "default")
   ∨ (∃ l k r, spec = ImportSpecifier importName l k r)).

#[global] Instance valueImportFrom_dec source stmt :
  Decision (valueImportFrom source stmt).
Proof. unfold valueImportFrom. apply _. Defined.

#[global] Instance alreadyBinds_dec importName spec :
  Decision (alreadyBinds importName spec).
Proof.
  unfold alreadyBinds.
  destruct spec as [l r|l r|i l k r]; simpl.
  - destruct (decide (importName = lit "default")) as [->|Hn].
    + left. split; [done|]. left. by exists l, r.
    + right. intros [_ [(?&?&?&?)|(?&?&?&?)]]; congruence.
  - right. intros [_ [(?&?&?&?)|(?&?&?&?)]]; congruence.
  - destruct k.
    + right. intros [? _]. done.
    + destruct (decide (i = importName)) as [->|Hn].
      * left. split; [done|]. right. by exists l, kind_value, r.
      * right. intros [_ [(?&?&?&?)|(?&?&?&?)]]; congruence.
Defined.

(** Every specifier that already binds the export, in the order the
    statements and their specifiers appear. *)
Definition bindingSpecifiers (source importName : JsString)
    (stmts : list Statement) : list ImportClause :=
  d ← filter (valueImportFrom source) (imports stmts);
  filter (alreadyBinds importName) (specifiers d).

(** A statement the synthesizer may extend with a named specifier: a
    value import from the target module without a namespace
    specifier. *)
Definition eligibleForAppending (source : JsString)
    (stmt : ImportDeclaration) : Prop :=
  valueImportFrom source stmt
  ∧ ∀ spec, spec ∈ specifiers stmt → isImportNamespaceSpecifier spec = false.

#[global] Instance eligibleForAppending_dec source stmt :
  Decision (eligibleForAppending source stmt).
Proof.
  unfold eligibleForAppending. apply and_dec; [apply _|].
  refine (cast_if (decide (Forall
    (fun spec => isImportNamespaceSpecifier spec = false) (specifiers stmt))));
    by rewrite <- Forall_forall.
Defined.

(** [newName] is the requested name when no module-scope variable has
    it, and otherwise the requested name followed by the least [i]
    whose suffixed name no variable has; either way no variable has
    [newName]. *)
Definition freshNameFor (variables : list JsString)
    (importName newName : JsString) : Prop :=
  (newName ∉ variables)
  ∧ (importName ∉ variables -> newName = importName)
  ∧ (importName ∈ variables ->
     ∃ i, newName = importName ++ numberToString i
          ∧ ∀ j, j < i -> importName ++ numberToString j ∈ variables).

(** The first import whose module specifier is among the hints. *)
Definition firstHintImport (positionHintSources : list JsString)
    (stmts : list Statement) : option ImportDeclaration :=
  head (filter (fun d => source_value d ∈ positionHintSources) (imports stmts)).

(** The scan variables once the whole body has been visited without a
    reuse: the first hint import that is not from the target module,
    the first statement that can be extended, the last import. *)
Definition scanned (source : JsString) (positionHintSources : list JsString)
    (stmts : list Statement) : Scan :=
  {| positionHintNode :=
       head (filter (fun d => source_value d ≠ source
                              ∧ source_value d ∈ positionHintSources)
               (imports stmts));
     importNode := head (filter (eligibleForAppending source) (imports stmts));
     lastImport := last (imports stmts) |}.

(** [name] followed by one or more decimal digits gives [name']. *)
Definition digitExtension (name name' : JsString) : Prop :=
  ∃ w, w ≠ [] ∧ Forall (fun c => isDigit c = true) w ∧ name' = name ++ w.

(** The local names the import declarations of a program bind. *)
Definition importLocals (stmts : list Statement) : list JsString :=
  d ← imports stmts; spec_local <$> specifiers d.

(** What scope analysis guarantees of a module: every import binding
    is a module-scope variable, and no two import specifiers declare
    the same local name. *)
Definition scopeConsistent (sm : ScopeManager) : Prop :=
  importLocals (body (globalScope_block sm)) ⊆ programScope_variables sm
  ∧ NoDup (importLocals (body (globalScope_block sm))).

(** The name a call returned declares nothing that was there before:
    it is a reuse (no edit, the local name of an import specifier of
    the file) or a name no module-scope variable has. *)
Definition shadowsNothing (sm : ScopeManager)
    (result : list RuleFix * JsString) : Prop :=
  (result.1 = [] ∧ result.2 ∈ importLocals (body (globalScope_block sm)))
  ∨ result.2 ∉ programScope_variables sm.

(** The key of the array entry at position [i]: its index, and [None]
    for a spread. A hole is neither a spread nor an expression; it
    holds position [i] like an expression does. *)
Definition elementKey (i : nat) (e : ArrayElement) : option JsString :=
  match e with
  | ExpressionElement _ | HoleElement => Some (numberToString i)
  | SpreadElement => None
  end.

(** The parameter keys a [values] or [components] capture contributes:
    [None] stands for a spread or a key that is not static. *)
Definition paramKeys (getStaticKey : Property -> option JsString)
    (c : Captured) : list (option JsString) :=
  match c with
  | Captured_node (ObjectExpression properties) _ =>
      (fun m => match m with
                | PropertyMember prop => getStaticKey prop
                | SpreadProperty => None
                end) <$> properties
  | Captured_node (ArrayExpression elements) _ => imap elementKey elements
  | _ => []
  end.

(** The capture is an array literal with a hole, as [[ , x]]. *)
Definition hasHole (c : Captured) : Prop :=
  ∃ elements r, c = Captured_node (ArrayExpression elements) r
                ∧ HoleElement ∈ elements.

Definition isParamsShape (c : Captured) : Prop :=
  match c with
  | Captured_node (ObjectExpression _) _
  | Captured_node (ArrayExpression _) _
  | CaptureFailure => True
  | _ => False
  end.

Definition unsupportedAttribute (attr : JSXAttributeItem) : Prop :=
  attr = JSXSpreadAttribute
  ∨ ¬ ∃ name, attr = JSXAttribute (JSXIdentifier name)
              ∧ name ∈ MIGRATABLE_PROP_NAMES.

Definition isStringLiteral (c : Captured) : Prop :=
  ∃ s r, c = Captured_node (Literal (StringValue s)) r.

Definition supportedRender (c : Captured) : Prop :=
  c = CaptureFailure ∨ ∃ r, c = Captured_node JSXElement r.

Definition supportedComponent (c : Captured) : Prop :=
  c = CaptureFailure
  ∨ ∃ e r, c = Captured_node e r
           ∧ ((∃ n, e = Identifier n) ∨ (∃ b o q, e = MemberExpression b o q))
           ∧ eligibleForJSXTagNameExpression e true = true.

(** The capture sets the listener does not rewrite. *)
Definition unsupportedCaptures (getStaticKey : Property -> option JsString)
    (props id render component values components : Captured) : Prop :=
  (∀ attributes, props ≠ PropsOf attributes)
  ∨ (∃ attributes attr, props = PropsOf attributes ∧ attr ∈ attributes
                        ∧ unsupportedAttribute attr)
  ∨ ¬ isStringLiteral id
  ∨ ¬ supportedRender render
  ∨ ¬ supportedComponent component
  ∨ ¬ isParamsShape values
  ∨ ¬ isParamsShape components
  ∨ None ∈ paramKeys getStaticKey values ++ paramKeys getStaticKey components
  ∨ ¬ NoDup (paramKeys getStaticKey values ++ paramKeys getStaticKey components).

(** Some code unit of [s] is in [class]. *)
Definition containsAny (class : list N) (s : JsString) : Prop :=
  ∃ c, c ∈ s ∧ c ∈ class.

End Props.

Import Props.

(** ** Concrete programs: text, tokens, tree and module scope *)

Module Examples.

Definition quoted (s : string) : JsString := [dquote] ++ lit s ++ [dquote].

Definition tok (ty : TokenType) (v : JsString) (a b : nat) : Token :=
  {| tok_type := ty; tok_value := v; tok_range := (a, b) |}.

Definition moduleOf (stmts : list Statement) (len : nat)
    (variables : list JsString) : ScopeManager :=
  {| globalScope_block :=
       {| body := stmts; program_range := (0, len);
          program_loc_start_column := 0 |};
     programScope_variables := variables |}.

(** [import { Trans } from "@lingui/react";] *)
Definition lingui_stmt (at_ : nat) : ImportDeclaration :=
  {| source_value := lit "@lingui/react";
     source_range := (at_ + 22, at_ + 37);
     importKind := kind_value;
     specifiers :=
       [ImportSpecifier (lit "Trans") (lit "Trans") kind_value
          (at_ + 9, at_ + 14)];
     range := (at_, at_ + 38);
     loc_start_column := 0 |}.

Definition lingui_tokens (at_ : nat) : list Token :=
  [tok Tok_Keyword (lit "import") at_ (at_ + 6);
   tok Tok_Punctuator (lit "{") (at_ + 7) (at_ + 8);
   tok Tok_Identifier (lit "Trans") (at_ + 9) (at_ + 14);
   tok Tok_Punctuator (lit "}") (at_ + 15) (at_ + 16);
   tok Tok_Identifier (lit "from") (at_ + 17) (at_ + 21);
   tok Tok_String (quoted "@lingui/react") (at_ + 22) (at_ + 37);
   tok Tok_Punctuator (lit ";") (at_ + 37) (at_ + 38)].

Definition lingui_text : JsString :=
  lit "import { Trans } from " ++ quoted "@lingui/react" ++ lit ";".

Definition lingui_code : SourceCode :=
  {| text := lingui_text; tokens := lingui_tokens 0 |}.

Definition lingui_module : ScopeManager :=
  moduleOf [Import (lingui_stmt 0)] 38 [lit "Trans"].

(** The same file once [Translate] is imported:
    [import { Translate } from "@hi18n/react";] on the line before. *)
Definition migrated_text : JsString :=
  lit "import { Translate } from " ++ quoted "@hi18n/react" ++ lit ";"
    ++ [LF] ++ lingui_text.

Definition hi18n_stmt : ImportDeclaration :=
  {| source_value := lit "@hi18n/react";
     source_range := (26, 40);
     importKind := kind_value;
     specifiers :=
       [ImportSpecifier (lit "Translate") (lit "Translate") kind_value (9, 18)];
     range := (0, 41);
     loc_start_column := 0 |}.

Definition migrated_code : SourceCode :=
  {| text := migrated_text;
     tokens :=
       [tok Tok_Keyword (lit "import") 0 6;
        tok Tok_Punctuator (lit "{") 7 8;
        tok Tok_Identifier (lit "Translate") 9 18;
        tok Tok_Punctuator (lit "}") 19 20;
        tok Tok_Identifier (lit "from") 21 25;
        tok Tok_String (quoted "@hi18n/react") 26 40;
        tok Tok_Punctuator (lit ";") 40 41]
       ++ lingui_tokens 42 |}.

Definition migrated_module : ScopeManager :=
  moduleOf [Import hi18n_stmt; Import (lingui_stmt 42)] 80
    [lit "Translate"; lit "Trans"].

(** [import Foo, {} from "m";] *)
Definition empty_braces_text : JsString :=
  lit "import Foo, {} from " ++ quoted "m" ++ lit ";".

Definition empty_braces_code : SourceCode :=
  {| text := empty_braces_text;
     tokens :=
       [tok Tok_Keyword (lit "import") 0 6;
        tok Tok_Identifier (lit "Foo") 7 10;
        tok Tok_Punctuator (lit ",") 10 11;
        tok Tok_Punctuator (lit "{") 12 13;
        tok Tok_Punctuator (lit "}") 13 14;
        tok Tok_Identifier (lit "from") 15 19;
        tok Tok_String (quoted "m") 20 23;
        tok Tok_Punctuator (lit ";") 23 24] |}.

Definition empty_braces_stmt : ImportDeclaration :=
  {| source_value := lit "m";
     source_range := (20, 23);
     importKind := kind_value;
     specifiers := [ImportDefaultSpecifier (lit "Foo") (7, 10)];
     range := (0, 24);
     loc_start_column := 0 |}.

Definition empty_braces_module (variables : list JsString) : ScopeManager :=
  moduleOf [Import empty_braces_stmt] 24 variables.

(** [import foo from "M";] *)
Definition bare_default_text : JsString :=
  lit "import foo from " ++ quoted "M" ++ lit ";".

Definition bare_default_code : SourceCode :=
  {| text := bare_default_text;
     tokens :=
       [tok Tok_Keyword (lit "import") 0 6;
        tok Tok_Identifier (lit "foo") 7 10;
        tok Tok_Identifier (lit "from") 11 15;
        tok Tok_String (quoted "M") 16 19;
        tok Tok_Punctuator (lit ";") 19 20] |}.

Definition bare_default_stmt : ImportDeclaration :=
  {| source_value := lit "M";
     source_range := (16, 19);
     importKind := kind_value;
     specifiers := [ImportDefaultSpecifier (lit "foo") (7, 10)];
     range := (0, 20);
     loc_start_column := 0 |}.

Definition bare_default_module : ScopeManager :=
  moduleOf [Import bare_default_stmt] 20 [lit "foo"].

(** [const a = 1;] *)
Definition const_a_code : SourceCode :=
  {| text := lit "const a = 1;";
     tokens :=
       [tok Tok_Keyword (lit "const") 0 5;
        tok Tok_Identifier (lit "a") 6 7;
        tok Tok_Punctuator (lit "=") 8 9;
        tok Tok_Numeric (lit "1") 10 11;
        tok Tok_Punctuator (lit ";") 11 12] |}.

Definition const_a_module : ScopeManager :=
  moduleOf [OtherStatement] 12 [lit "a"].

(** [import foo, * as ns from "m";] *)
Definition default_namespace_code : SourceCode :=
  {| text := lit "import foo, * as ns from " ++ quoted "m" ++ lit ";";
     tokens :=
       [tok Tok_Keyword (lit "import") 0 6;
        tok Tok_Identifier (lit "foo") 7 10;
        tok Tok_Punctuator (lit ",") 10 11;
        tok Tok_Punctuator (lit "*") 12 13;
        tok Tok_Identifier (lit "as") 14 16;
        tok Tok_Identifier (lit "ns") 17 19;
        tok Tok_Identifier (lit "from") 20 24;
        tok Tok_String (quoted "m") 25 28;
        tok Tok_Punctuator (lit ";") 28 29] |}.

Definition default_namespace_stmt : ImportDeclaration :=
  {| source_value := lit "m";
     source_range := (25, 28);
     importKind := kind_value;
     specifiers :=
       [ImportDefaultSpecifier (lit "foo") (7, 10);
        ImportNamespaceSpecifier (lit "ns") (12, 19)];
     range := (0, 29);
     loc_start_column := 0 |}.

Definition default_namespace_module : ScopeManager :=
  moduleOf [Import default_namespace_stmt] 29 [lit "foo"; lit "ns"].

Definition allCode : list SourceCode :=
  [lingui_code; migrated_code; empty_braces_code; bare_default_code;
   const_a_code; default_namespace_code].

(** The captures of [<Trans id="hello" foo={x} />]: the attribute
    [foo] is not migratable. *)
Definition foo_captures : gmap string Captured :=
  <["props"%string := PropsOf [JSXAttribute (JSXIdentifier (lit "id"));
                                JSXAttribute (JSXIdentifier (lit "foo"))]]>
  (<["id"%string :=
       Captured_node (Literal (StringValue (lit "hello"))) (10, 17)]>
  (<["render"%string := CaptureFailure]>
  (<["component"%string := CaptureFailure]>
  (<["values"%string := CaptureFailure]>
  (<["components"%string := CaptureFailure]> ∅))))).

End Examples.

Import Examples.

(** ** More vocabulary and programs *)

Module Shapes.

(** A dotted path [a.b.c]: an identifier, or a non-computed member
    access on a dotted path whose property is an identifier. *)
Inductive memberPath : Node -> Prop :=
| path_identifier name : memberPath (Identifier name)
| path_member object name :
    memberPath object ->
    memberPath (MemberExpression false object (Identifier name)).

(** The fix is a pure insertion: its range is empty. *)
Definition isInsertion (f : RuleFix) : Prop :=
  (fix_range f).1 = (fix_range f).2.

(** [import {} from "m";] *)
Definition empty_block_code : SourceCode :=
  {| text := lit "import {} from " ++ quoted "m" ++ lit ";";
     tokens :=
       [tok Tok_Keyword (lit "import") 0 6;
        tok Tok_Punctuator (lit "{") 7 8;
        tok Tok_Punctuator (lit "}") 8 9;
        tok Tok_Identifier (lit "from") 10 14;
        tok Tok_String (quoted "m") 15 18;
        tok Tok_Punctuator (lit ";") 18 19] |}.

Definition empty_block_stmt : ImportDeclaration :=
  {| source_value := lit "m";
     source_range := (15, 18);
     importKind := kind_value;
     specifiers := [];
     range := (0, 19);
     loc_start_column := 0 |}.

Definition empty_block_module : ScopeManager :=
  moduleOf [Import empty_block_stmt] 19 [].

(** [import "m";] *)
Definition side_effect_code : SourceCode :=
  {| text := lit "import " ++ quoted "m" ++ lit ";";
     tokens :=
       [tok Tok_Keyword (lit "import") 0 6;
        tok Tok_String (quoted "m") 7 10;
        tok Tok_Punctuator (lit ";") 10 11] |}.

Definition side_effect_stmt : ImportDeclaration :=
  {| source_value := lit "m";
     source_range := (7, 10);
     importKind := kind_value;
     specifiers := [];
     range := (0, 11);
     loc_start_column := 0 |}.

Definition side_effect_module : ScopeManager :=
  moduleOf [Import side_effect_stmt] 11 [].

(** A whole file: the Lingui import, then
    [<Trans id="hi" component={B} values={{n: x}} />]. *)
Definition trans_text : JsString :=
  lingui_text ++ [LF]
  ++ lit "<Trans id=" ++ quoted "hi" ++ lit " component={B} values={{n: x}} />".

Definition trans_code : SourceCode :=
  {| text := trans_text;
     tokens :=
       lingui_tokens 0 ++
       [
      tok Tok_Punctuator (lit "<") 39 40;
      tok Tok_JSXIdentifier (lit "Trans") 40 45;
      tok Tok_JSXIdentifier (lit "id") 46 48;
      tok Tok_Punctuator (lit "=") 48 49;
      tok Tok_String (quoted "hi") 49 53;
      tok Tok_JSXIdentifier (lit "component") 54 63;
      tok Tok_Punctuator (lit "=") 63 64;
      tok Tok_Punctuator (lit "{") 64 65;
      tok Tok_Identifier (lit "B") 65 66;
      tok Tok_Punctuator (lit "}") 66 67;
      tok Tok_JSXIdentifier (lit "values") 68 74;
      tok Tok_Punctuator (lit "=") 74 75;
      tok Tok_Punctuator (lit "{") 75 76;
      tok Tok_Punctuator (lit "{") 76 77;
      tok Tok_Identifier (lit "n") 77 78;
      tok Tok_Punctuator (lit ":") 78 79;
      tok Tok_Identifier (lit "x") 80 81;
      tok Tok_Punctuator (lit "}") 81 82;
      tok Tok_Punctuator (lit "}") 82 83;
      tok Tok_Punctuator (lit "/") 84 85;
      tok Tok_Punctuator (lit ">") 85 86] |}.

Definition trans_module : ScopeManager :=
  moduleOf [Import (lingui_stmt 0); OtherStatement] 86 [lit "Trans"].

Definition trans_context : RuleContext :=
  {| sourceCode := trans_code; scopeManager := trans_module;
     bookPath := lit "./locale" |}.

(** The matched element and its captures. *)
Definition trans_node : Range := (39, 86).

Definition trans_captures : gmap string Captured :=
  <["props"%string :=
      PropsOf [JSXAttribute (JSXIdentifier (lit "id"));
               JSXAttribute (JSXIdentifier (lit "component"));
               JSXAttribute (JSXIdentifier (lit "values"))]]>
  (<["id"%string := Captured_node (Literal (StringValue (lit "hi"))) (49, 53)]>
  (<["render"%string := CaptureFailure]>
  (<["component"%string := Captured_node (Identifier (lit "B")) (65, 66)]>
  (<["values"%string :=
       Captured_node
         (ObjectExpression
            [PropertyMember {| key := KeyIdentifier (lit "n");
                               computed := false;
                               value_range := (80, 81) |}])
         (76, 82)]>
  (<["components"%string := CaptureFailure]> ∅))))).

(** A static-key function for the examples: the name of a non-computed
    identifier key, or the value of a string-literal key. *)
Definition exampleStaticKey (prop : Property) : option JsString :=
  match key prop with
  | KeyIdentifier name => if computed prop then None else Some name
  | KeyLiteral (StringValue s) => Some s
  | _ => None
  end.

(** An attribute-name test for the examples: ASCII letters only. *)
Definition exampleAttributeName (k : JsString) : bool :=
  match k with
  | [] => false
  | _ => forallb (fun c => ((65 <=? c)%N && (c <=? 90)%N)
                           || ((97 <=? c)%N && (c <=? 122)%N)) k
  end.

Definition moreCode : list SourceCode :=
  [empty_block_code; side_effect_code; trans_code].

(** The source texts of the parameter values a [values] or [components]
    capture contributes, in order. *)
Definition paramTexts (sc : SourceCode) (c : Captured) : list JsString :=
  match c with
  | Captured_node (ObjectExpression properties) _ =>
      omap (fun m => match m with
                     | PropertyMember prop => Some (getText sc (value_range prop))
                     | SpreadProperty => None
                     end) properties
  | Captured_node (ArrayExpression elements) _ =>
      omap (fun e => match e with
                     | ExpressionElement r => Some (getText sc r)
                     | SpreadElement | HoleElement => None
                     end) elements
  | _ => []
  end.

(** The [renderInElement] of the fix: the component capture, as a
    self-closing element, when there is one; otherwise the element of
    the render capture, when there is one. *)
Definition renderInElementOf (sc : SourceCode) (render component : Captured)
  : option JsString :=
  match component with
  | Captured_node _ r => Some (lit "<" ++ getText sc r ++ lit " />")
  | _ =>
      match render with
      | Captured_node _ r => Some (getText sc r)
      | _ => None
      end
  end.

End Shapes.

Import Shapes.

(** ** [packages/core/src/index.ts]: [Book] and [selectLocale] *)

Module Core.

(** The values these functions throw or pass to the error handler. *)
Inductive Exception :=
| NoLocaleError
| MissingLocaleError (locale : JsString) (availableLocales : list JsString)
| MissingTranslationError
| Error_ (message : JsString)  (* [new Error(message)] *)
| OtherException (tag : nat).  (* whatever else a callback throws *)

(** [ErrorLevel] of [./error-handling.js]. *)
Inductive ErrorLevel := level_error | level_warn.

(** A call completes with a value or throws. *)
Inductive Completion (A : Type) :=
| Normal (a : A)
| Throw (e : Exception).
Arguments Normal {A} a.
Arguments Throw {A} e.

(** An error handler, as far as its caller can tell: it returns or it
    throws. *)
Abbreviation ErrorHandler := (Exception -> ErrorLevel -> Completion unit).

(** The fields of a [Catalog] object the [Book] constructor reads and
    writes. *)
Record Catalog := {
  locale : option JsString;
  _looseLocale : bool
}.

(** Catalog objects live in a heap, so that one object registered under
    two locales is one object. *)
Abbreviation Heap := (nat -> Catalog).

(** The heap after a write to the object [ref]. *)
Definition heapSet (heap : Heap) (ref : nat) (c : Catalog) : Heap :=
  fun r => if bool_decide (r = ref) then c else heap r.

(** A value of the record passed to [new Book]: a catalog object, or a
    loader function ([typeof catalog === "function"]). *)
Inductive Entry :=
| CatalogEntry (ref : nat)
| LoaderEntry.

(** The plain object [this.catalogs]: its own properties and the
    prototype an assignment to [__proto__] installs. *)
Record PlainObject := {
  own : gmap JsString nat;
  proto : option nat
}.

Definition emptyObject : PlainObject := {| own := ∅; proto := None |}.

(** [o[k] = ref] on a plain object. *)
Definition setProperty (o : PlainObject) (k : JsString) (ref : nat)
  : PlainObject :=
  if bool_decide (k = lit "__proto__") then {| own := own o; proto := Some ref |}
  else {| own := <[k := ref]> (own o); proto := proto o |}.

(** A record argument: its own enumerable properties, in the order
    [Object.entries] and [Object.keys] list them. *)
Abbreviation Entries := (list (JsString * Entry)).

(** [hasOwn(o, s)] *)
Definition hasOwn (o : Entries) (s : JsString) : bool :=
  bool_decide (s ∈ o.*1).

Record BookOptions := {
  handleError_option : option ErrorHandler;
  implicitLocale : option JsString
}.

Record Book := {
  catalogs : PlainObject;
  _loaders : Entries;
  _handleError : option ErrorHandler;
  _implicitLocale : option JsString
}.

(** [`${catalog.locale!}`] *)
Definition showLocale (l : option JsString) : JsString :=
  match l with Some l => l | None => lit "undefined" end.

Definition setLocale (c : Catalog) (l : JsString) : Catalog :=
  {| locale := Some l; _looseLocale := _looseLocale c |}.

(** The loop of the [Book] constructor over [Object.entries(catalogs)]. *)
Fixpoint registerCatalogs (entries : Entries) (heap : Heap)
    (this_catalogs : PlainObject) : Heap * Completion PlainObject :=
  match entries with
  | [] => (heap, Normal this_catalogs)
  | (_, LoaderEntry) :: rest => registerCatalogs rest heap this_catalogs
  | (l, CatalogEntry ref) :: rest =>
      let this_catalogs := setProperty this_catalogs l ref in
      if _looseLocale (heap ref) then
        registerCatalogs rest (heapSet heap ref (setLocale (heap ref) l))
          this_catalogs
      else if bool_decide (locale (heap ref) = Some l) then
        registerCatalogs rest heap this_catalogs
      else
        (heap,
         Throw (Error_ (lit "Locale mismatch: expected " ++ l ++ lit ", got "
                        ++ showLocale (locale (heap ref)))))
  end.

(** [new Book(catalogs, options)]: the heap afterwards, and the book or
    the error thrown. *)
Definition newBook (argument : Entries) (options : BookOptions) (heap : Heap)
  : Heap * Completion Book :=
  match registerCatalogs argument heap emptyObject with
  | (heap', Throw e) => (heap', Throw e)
  | (heap', Normal this_catalogs) =>
      match implicitLocale options with
      | Some il =>
          if negb (hasOwn argument il) then
            (heap', Throw (Error_ (lit "Invalid implicitLocale: " ++ il)))
          else
            (heap', Normal {| catalogs := this_catalogs;
                              _loaders := argument;
                              _handleError := handleError_option options;
                              _implicitLocale := Some il |})
      | None =>
          (heap', Normal {| catalogs := this_catalogs;
                            _loaders := argument;
                            _handleError := handleError_option options;
                            _implicitLocale := None |})
      end
  end.

(** The [locales] argument: [string | string[]]. *)
Inductive Locales :=
| OneLocale (l : JsString)
| ManyLocales (ls : list JsString).

(** [Array.isArray(locales) ? locales : [locales]] *)
Definition localesArrayOf (locales : Locales) : list JsString :=
  match locales with OneLocale l => [l] | ManyLocales ls => ls end.

Section WithDefaultHandler.

(** [defaultErrorHandler] of [./error-handling.js]. *)
Variable defaultErrorHandler : ErrorHandler.

(** [book.handleError(e, level)] *)
Definition handleError (book : Book) (e : Exception) (level : ErrorLevel)
  : Completion unit :=
  default defaultErrorHandler (_handleError book) e level.

(** [selectLocale(book, locales)]: the calls made to the error handler,
    and the locale returned or the error thrown. *)
Definition selectLocale (book : Book) (locales : Locales)
  : list (Exception * ErrorLevel) * Completion JsString :=
  let localesArray := localesArrayOf locales in
  let filteredLocales :=
    filter (fun l => hasOwn (_loaders book) l = true) localesArray in
  match filteredLocales with
  | first :: _ => ([], Normal first)
  | [] =>
      let error :=
        match localesArray with
        | [] => NoLocaleError
        | l0 :: _ => MissingLocaleError l0 (_loaders book).*1
        end in
      match _implicitLocale book with
      | Some il =>
          match handleError book error level_error with
          | Normal _ => ([(error, level_error)], Normal il)
          | Throw e => ([(error, level_error)], Throw e)
          end
      | None => ([], Throw error)
      end
  end.

End WithDefaultHandler.


(** Example: an English catalog, a loose catalog and a lazy Japanese
    one. *)
Definition exampleHeap : Heap :=
  fun ref =>
    match ref with
    | 0 => {| locale := Some (lit "en"); _looseLocale := false |}
    | _ => {| locale := None; _looseLocale := true |}
    end.

Definition exampleArgument : Entries :=
  [(lit "en", CatalogEntry 0); (lit "fr", CatalogEntry 1);
   (lit "ja", LoaderEntry)].

Definition exampleOptions : BookOptions :=
  {| handleError_option := None; implicitLocale := Some (lit "en") |}.

Definition exampleBook : Book :=
  {| catalogs := {| own := <[lit "fr" := 1]> (<[lit "en" := 0]> ∅);
                    proto := None |};
     _loaders := exampleArgument;
     _handleError := None;
     _implicitLocale := Some (lit "en") |}.

(** *** [Catalog.getCompiledMessage] *)

Section CompiledMessages.

(** [CompiledMessage] of [./msgfmt.js], whether a value of it is an
    object (and not a string), and [parseMessage] of
    [./msgfmt-parser.js], which returns or throws. *)
Variable CompiledMessage : Type.
Variable isObject : CompiledMessage -> bool.
Variable parseMessage : JsString -> Completion CompiledMessage.

(** The plain object [this._compiled]. *)
Record CompiledObject := {
  compiled_own : gmap JsString CompiledMessage;
  compiled_proto : option CompiledMessage
}.

(** The part of a [Catalog] that [getCompiledMessage] uses: the own
    properties of [data], and [_compiled]. *)
Record CatalogState := {
  data : gmap JsString JsString;
  _compiled : CompiledObject
}.

(** [new Catalog(locale, data)] starts with [_compiled = {}]. *)
Definition newCatalogState (d : gmap JsString JsString) : CatalogState :=
  {| data := d;
     _compiled := {| compiled_own := ∅; compiled_proto := None |} |}.

(** What [this._compiled[id]] evaluates to. *)
Inductive Returned :=
| Message (c : CompiledMessage)
| ObjectPrototype (* [Object.prototype], read through [__proto__] *)
| Inherited.      (* a property of [Object.prototype], or [undefined] *)

(** [o[id] = c]: the key [__proto__] installs a prototype when [c] is
    an object and does nothing otherwise. *)
Definition setCompiled (o : CompiledObject) (id : JsString)
    (c : CompiledMessage) : CompiledObject :=
  if bool_decide (id = lit "__proto__") then
    if isObject c then
      {| compiled_own := compiled_own o; compiled_proto := Some c |}
    else o
  else {| compiled_own := <[id := c]> (compiled_own o);
          compiled_proto := compiled_proto o |}.

(** [o[id]] *)
Definition getCompiled (o : CompiledObject) (id : JsString) : Returned :=
  match compiled_own o !! id with
  | Some c => Message c
  | None =>
      if bool_decide (id = lit "__proto__") then
        match compiled_proto o with
        | Some c => Message c
        | None => ObjectPrototype
        end
      else Inherited
  end.

(** [catalog.getCompiledMessage(id)]: the catalog afterwards, and the
    value returned or the error thrown. *)
Definition getCompiledMessage (this : CatalogState) (id : JsString)
  : CatalogState * Completion Returned :=
  match compiled_own (_compiled this) !! id with
  | Some _ => (this, Normal (getCompiled (_compiled this) id))
  | None =>
      match data this !! id with
      | None => (this, Throw MissingTranslationError)
      | Some msg =>
          match parseMessage msg with
          | Throw e => (this, Throw e)
          | Normal c =>
              let this' :=
                {| data := data this;
                   _compiled := setCompiled (_compiled this) id c |} in
              (this', Normal (getCompiled (_compiled this') id))
          end
      end
  end.

(** Every cached message is the parse of the catalog's message of that
    id. *)
Definition coherent (this : CatalogState) : Prop :=
  forall id c,
    compiled_own (_compiled this) !! id = Some c ->
    exists msg, data this !! id = Some msg ∧ parseMessage msg = Normal c.

End CompiledMessages.

Arguments compiled_own {CompiledMessage} _.
Arguments compiled_proto {CompiledMessage} _.
Arguments data {CompiledMessage} _.
Arguments _compiled {CompiledMessage} _.
Arguments newCatalogState {CompiledMessage} d.
Arguments Message {CompiledMessage} c.
Arguments ObjectPrototype {CompiledMessage}.
Arguments Inherited {CompiledMessage}.
Arguments getCompiledMessage {CompiledMessage} isObject parseMessage this id.
Arguments coherent {CompiledMessage} parseMessage this.

(** A parser for the examples: a message is compiled to its length,
    and the empty message is refused. *)
Definition exampleParse (msg : JsString) : Completion nat :=
  match msg with
  | [] => Throw (OtherException 0)
  | _ => Normal (length msg)
  end.

Definition exampleData : gmap JsString JsString :=
  <[lit "greeting" := lit "Hello"]> (<[lit "empty" := []]> ∅).

(** A handler that returns, and one that rethrows. *)
Definition quietHandler : ErrorHandler := fun _ _ => Normal tt.
Definition throwingHandler : ErrorHandler := fun e _ => Throw e.

End Core.

(** ** Reading a JSON string literal back *)

Module Json.

(** The value of a hexadecimal digit. *)
Definition hexValue (c : N) : option N :=
  if (48 <=? c)%N && (c <=? 57)%N then Some (c - 48)%N
  else if (97 <=? c)%N && (c <=? 102)%N then Some (c - 87)%N
  else if (65 <=? c)%N && (c <=? 70)%N then Some (c - 55)%N
  else None.

Definition hex4 (h1 h2 h3 h4 : N) : option N :=
  a ← hexValue h1; b ← hexValue h2; c ← hexValue h3; d ← hexValue h4;
  Some (4096 * a + 256 * b + 16 * c + d)%N.

(** The two-character escapes of the JSON grammar: the code unit that
    the character after the backslash stands for. *)
Definition simpleEscape (e : N) : option N :=
  if (e =? 34)%N then Some 34%N        (* a double quote *)
  else if (e =? 92)%N then Some 92%N   (* a backslash *)
  else if (e =? 47)%N then Some 47%N   (* a solidus *)
  else if (e =? 98)%N then Some 8%N    (* b: backspace *)
  else if (e =? 102)%N then Some 12%N  (* f: form feed *)
  else if (e =? 110)%N then Some 10%N  (* n: line feed *)
  else if (e =? 114)%N then Some 13%N  (* r: carriage return *)
  else if (e =? 116)%N then Some 9%N   (* t: tab *)
  else None.

(** The string a JSON string body denotes (ECMA-404, section 9): an
    escape stands for its code unit, any other code unit for itself; a
    bare double quote, a bare control character or a broken escape is
    not part of the grammar. *)
Fixpoint unquoteBody (s : JsString) : option JsString :=
  match s with
  | [] => Some []
  | c :: rest =>
      if (c =? backslash)%N then
        match rest with
        | [] => None
        | e :: rest1 =>
            if (e =? 117)%N then
              match rest1 with
              | h1 :: h2 :: h3 :: h4 :: rest2 =>
                  u ← hex4 h1 h2 h3 h4;
                  t ← unquoteBody rest2;
                  Some (u :: t)
              | _ => None
              end
            else
              u ← simpleEscape e;
              t ← unquoteBody rest1;
              Some (u :: t)
        end
      else if (c =? dquote)%N || (c <? 32)%N then None
      else t ← unquoteBody rest; Some (c :: t)
  end.

(** [JSON.parse] on the text of one string literal. *)
Definition JSON_parse_string (s : JsString) : option JsString :=
  match s with
  | q :: rest =>
      if (q =? dquote)%N then
        match reverse rest with
        | q' :: body =>
            if (q' =? dquote)%N then unquoteBody (reverse body) else None
        | [] => None
        end
      else None
  | [] => None
  end.

(** A code unit [JSON.stringify] has no reason to escape. *)
Definition isPlainUnit (c : N) : bool :=
  negb (c <? 32)%N && negb (c =? dquote)%N && negb (c =? backslash)%N
  && negb (isLeadSurrogate c || isTrailSurrogate c).

End Json.

Import Json.

(** ** Lines and their indentation *)

Module Layout.

(** A line terminator of the language: LF, CR, U+2028 or U+2029. *)
Definition isLineTerminator (c : N) : bool :=
  (c =? LF)%N || (c =? CR)%N || (c =? LS)%N || (c =? PS)%N.

(** The part of the last line of [s]: what follows its last line
    terminator, after [acc]. *)
Fixpoint lastLine (s acc : JsString) : JsString :=
  match s with
  | [] => acc
  | c :: rest =>
      if isLineTerminator c then lastLine rest [] else lastLine rest (acc ++ [c])
  end.

(** The text between the start of the line that holds [offset] and
    [offset]. For the first token of a line it is the indentation of
    the line, and its length is the [loc.start.column] of that token. *)
Definition linePrefix (text : JsString) (offset : nat) : JsString :=
  lastLine (take offset text) [].

End Layout.

Import Layout.

(** ** Programs for the edge cases *)

Module Cases.

(** [import { A as X, A as Y } from "m";]: the export [A] is bound
    twice. *)
Definition alias_text : JsString :=
  lit "import { A as X, A as Y } from " ++ quoted "m" ++ lit ";".

Definition alias_code : SourceCode :=
  {| text := alias_text;
     tokens :=
       [tok Tok_Keyword (lit "import") 0 6;
        tok Tok_Punctuator (lit "{") 7 8;
        tok Tok_Identifier (lit "A") 9 10;
        tok Tok_Identifier (lit "as") 11 13;
        tok Tok_Identifier (lit "X") 14 15;
        tok Tok_Punctuator (lit ",") 15 16;
        tok Tok_Identifier (lit "A") 17 18;
        tok Tok_Identifier (lit "as") 19 21;
        tok Tok_Identifier (lit "Y") 22 23;
        tok Tok_Punctuator (lit "}") 24 25;
        tok Tok_Identifier (lit "from") 26 30;
        tok Tok_String (quoted "m") 31 34;
        tok Tok_Punctuator (lit ";") 34 35] |}.

Definition alias_stmt : ImportDeclaration :=
  {| source_value := lit "m";
     source_range := (31, 34);
     importKind := kind_value;
     specifiers :=
       [ImportSpecifier (lit "A") (lit "X") kind_value (9, 15);
        ImportSpecifier (lit "A") (lit "Y") kind_value (17, 23)];
     range := (0, 35);
     loc_start_column := 0 |}.

Definition alias_module : ScopeManager :=
  moduleOf [Import alias_stmt] 35 [lit "X"; lit "Y"].

(** The Lingui import at offset [at_] of its line, which is column
    [at_]. *)
Definition lingui_stmt_at (at_ : nat) : ImportDeclaration :=
  {| source_value := lit "@lingui/react";
     source_range := (at_ + 22, at_ + 37);
     importKind := kind_value;
     specifiers :=
       [ImportSpecifier (lit "Trans") (lit "Trans") kind_value
          (at_ + 9, at_ + 14)];
     range := (at_, at_ + 38);
     loc_start_column := at_ |}.

(** The Lingui import indented by two spaces. *)
Definition indented_text : JsString := lit "  " ++ lingui_text.

Definition indented_code : SourceCode :=
  {| text := indented_text; tokens := lingui_tokens 2 |}.

Definition indented_module : ScopeManager :=
  moduleOf [Import (lingui_stmt_at 2)] 40 [lit "Trans"].

(** The Lingui import indented by one tab (U+0009). *)
Definition tabbed_text : JsString := [9%N] ++ lingui_text.

Definition tabbed_code : SourceCode :=
  {| text := tabbed_text; tokens := lingui_tokens 1 |}.

Definition tabbed_module : ScopeManager :=
  moduleOf [Import (lingui_stmt_at 1)] 39 [lit "Trans"].

(** The tokens of [<Trans id="hello" components={] at offset 39. *)
Definition components_tokens : list Token :=
  [tok Tok_Punctuator (lit "<") 39 40;
   tok Tok_JSXIdentifier (lit "Trans") 40 45;
   tok Tok_JSXIdentifier (lit "id") 46 48;
   tok Tok_Punctuator (lit "=") 48 49;
   tok Tok_String (quoted "hello") 49 56;
   tok Tok_JSXIdentifier (lit "components") 57 67;
   tok Tok_Punctuator (lit "=") 67 68;
   tok Tok_Punctuator (lit "{") 68 69].

Definition components_props : Captured :=
  PropsOf [JSXAttribute (JSXIdentifier (lit "id"));
           JSXAttribute (JSXIdentifier (lit "components"))].

Definition components_id : Captured :=
  Captured_node (Literal (StringValue (lit "hello"))) (49, 56).

Definition components_captures (components : Captured)
  : gmap string Captured :=
  <["props"%string := components_props]>
  (<["id"%string := components_id]>
  (<["render"%string := CaptureFailure]>
  (<["component"%string := CaptureFailure]>
  (<["values"%string := CaptureFailure]>
  (<["components"%string := components]> ∅))))).

(** After the Lingui import,
    [<Trans id="hello" components={[ , ...xs]} />]: a hole, then a
    spread. *)
Definition hole_text : JsString :=
  lingui_text ++ [LF] ++ lit "<Trans id=" ++ quoted "hello"
    ++ lit " components={[ , ...xs]} />".

Definition hole_code : SourceCode :=
  {| text := hole_text;
     tokens :=
       lingui_tokens 0 ++ components_tokens ++
       [tok Tok_Punctuator (lit "[") 69 70;
        tok Tok_Punctuator (lit ",") 71 72;
        tok Tok_Punctuator (lit "...") 73 76;
        tok Tok_Identifier (lit "xs") 76 78;
        tok Tok_Punctuator (lit "]") 78 79;
        tok Tok_Punctuator (lit "}") 79 80;
        tok Tok_Punctuator (lit "/") 81 82;
        tok Tok_Punctuator (lit ">") 82 83] |}.

Definition hole_context : RuleContext :=
  {| sourceCode := hole_code;
     scopeManager :=
       moduleOf [Import (lingui_stmt 0); OtherStatement] 83 [lit "Trans"];
     bookPath := lit "./locale" |}.

Definition hole_components : Captured :=
  Captured_node (ArrayExpression [HoleElement; SpreadElement]) (69, 79).

Definition hole_captures : gmap string Captured :=
  components_captures hole_components.

(** After the Lingui import,
    [<Trans id="hello" components={[<a />, , <b />]} />]: a hole
    between two elements. *)
Definition sparse_text : JsString :=
  lingui_text ++ [LF] ++ lit "<Trans id=" ++ quoted "hello"
    ++ lit " components={[<a />, , <b />]} />".

Definition sparse_code : SourceCode :=
  {| text := sparse_text;
     tokens :=
       lingui_tokens 0 ++ components_tokens ++
       [tok Tok_Punctuator (lit "[") 69 70;
        tok Tok_Punctuator (lit "<") 70 71;
        tok Tok_JSXIdentifier (lit "a") 71 72;
        tok Tok_Punctuator (lit "/") 73 74;
        tok Tok_Punctuator (lit ">") 74 75;
        tok Tok_Punctuator (lit ",") 75 76;
        tok Tok_Punctuator (lit ",") 77 78;
        tok Tok_Punctuator (lit "<") 79 80;
        tok Tok_JSXIdentifier (lit "b") 80 81;
        tok Tok_Punctuator (lit "/") 82 83;
        tok Tok_Punctuator (lit ">") 83 84;
        tok Tok_Punctuator (lit "]") 84 85;
        tok Tok_Punctuator (lit "}") 85 86;
        tok Tok_Punctuator (lit "/") 87 88;
        tok Tok_Punctuator (lit ">") 88 89] |}.

Definition sparse_context : RuleContext :=
  {| sourceCode := sparse_code;
     scopeManager :=
       moduleOf [Import (lingui_stmt 0); OtherStatement] 89 [lit "Trans"];
     bookPath := lit "./locale" |}.

Definition sparse_components : Captured :=
  Captured_node
    (ArrayExpression
       [ExpressionElement (70, 75); HoleElement; ExpressionElement (79, 84)])
    (69, 85).

Definition sparse_captures : gmap string Captured :=
  components_captures sparse_components.

Definition edgeCode : list SourceCode :=
  [alias_code; indented_code; tabbed_code; hole_code; sparse_code].



End Cases.

Import Cases.

(** * Properties *)

(** Each token of the example programs is the text at its range. *)
Lemma examples_tokens_are_text :
  Forall (fun sc =>
    Forall (fun t => getText sc (tok_range t) = tok_value t) (tokens sc))
    allCode.
Proof. repeat constructor. Qed.

Lemma edge_tokens_are_text :
  Forall (fun sc =>
    Forall (fun t => getText sc (tok_range t) = tok_value t) (tokens sc))
    edgeCode.
Proof. repeat constructor. Qed.

(** ** Decimal rendering *)

Lemma digits_inj d d' : digits d = digits d' -> d = d'.
Proof.
  revert d'. induction d; intros [] H; simpl in H;
    simplify_eq; f_equal; auto.
Qed.

Lemma numberToString_inj i j : numberToString i = numberToString j -> i = j.
Proof.
  intros H. apply Unsigned.to_uint_inj. by apply digits_inj.
Qed.

Lemma digits_isDigit d : Forall (fun c => isDigit c = true) (digits d).
Proof. induction d; simpl; constructor; auto. Qed.

Lemma numberToString_isDigit i :
  Forall (fun c => isDigit c = true) (numberToString i).
Proof. apply digits_isDigit. Qed.

Lemma numberToString_nonempty i : numberToString i ≠ [].
Proof.
  unfold numberToString. intros H.
  assert (Hn : Nat.to_uint i = Decimal.Nil) by (by destruct (Nat.to_uint i)).
  pose proof (Unsigned.to_of (Nat.to_uint i)) as Hto.
  rewrite Unsigned.of_to in Hto. rewrite Hto in Hn.
  by apply DecimalFacts.unorm_nonnil in Hn.
Qed.

Lemma suffixed_inj (name : JsString) i j :
  name ++ numberToString i = name ++ numberToString j -> i = j.
Proof. intros H. apply numberToString_inj. by apply app_inv_head in H. Qed.

(** ** The renaming loop *)

Section RenameLoop.

Variable definedNames : gset JsString.
Variable importName : JsString.

(** Pigeonhole: the suffixed names are pairwise different, so a run of
    taken names is no longer than the set is large. *)
Lemma taken_run_bounded n :
  (forall j, j < n -> (importName ++ numberToString j) ∈ definedNames) -> n <= size definedNames.
Proof.
  intros Hall.
  assert (Hnd : NoDup ((fun i => importName ++ numberToString i) <$> seq 0 n)).
  { apply NoDup_fmap_2; [|apply NoDup_seq].
    intros i j. apply suffixed_inj. }
  trans (size (list_to_set (C:=gset JsString) ((fun i => importName ++ numberToString i) <$> seq 0 n))).
  { rewrite size_list_to_set by done.
    by rewrite length_fmap, length_seq. }
  apply subseteq_size. intros x Hx.
  apply elem_of_list_to_set, list_elem_of_fmap in Hx as (j & -> & Hj).
  apply elem_of_seq in Hj. apply Hall. lia.
Qed.

(** Some suffixed name is free, and one of them is the first. *)
Lemma first_free_exists :
  exists i, i <= size definedNames
            ∧ ((importName ++ numberToString i) ∉ definedNames)
            ∧ forall j, j < i -> (importName ++ numberToString j) ∈ definedNames.
Proof.
  assert (Hsearch : forall n,
    (exists i, i < n ∧ ((importName ++ numberToString i) ∉ definedNames)
               ∧ forall j, j < i -> (importName ++ numberToString j) ∈ definedNames)
    \/ (forall j, j < n -> (importName ++ numberToString j) ∈ definedNames)).
  { induction n as [|n [IH|IH]].
    - right. intros j Hj. lia.
    - left. destruct IH as (i & ? & ? & ?). exists i. split; [lia|done].
    - destruct (decide ((importName ++ numberToString n) ∈ definedNames)) as [Hin|Hout].
      + right. intros j Hj.
        destruct (decide (j = n)) as [->|]; [done|apply IH; lia].
      + left. exists n. split; [lia|]. split; [done|]. apply IH. }
  destruct (Hsearch (S (size definedNames))) as [(i & Hi & Hfree & Hmin)|Hall].
  - exists i. split; [lia|done].
  - apply taken_run_bounded in Hall. lia.
Qed.

(** The loop started at [i] stops at the first free suffixed name from [i]
    on, as soon as the iterations granted reach it. *)
Lemma renameLoop_run k : forall fuel i,
  (forall j, i <= j < i + k ->
             importName ++ numberToString j ∈ definedNames) ->
  importName ++ numberToString (i + k) ∉ definedNames ->
  k < fuel ->
  renameLoop definedNames importName fuel i
  = Some (importName ++ numberToString (i + k)).
Proof.
  induction k as [|k IH]; intros fuel i Htaken Hfree Hfuel;
    (destruct fuel as [|fuel]; [lia|]); simpl.
  - rewrite Nat.add_0_r in Hfree.
    rewrite bool_decide_eq_false_2 by done. simpl.
    by rewrite Nat.add_0_r.
  - rewrite bool_decide_eq_true_2 by (apply Htaken; lia). simpl.
    rewrite (IH fuel (S i)).
    + do 3 f_equal. lia.
    + intros j Hj. apply Htaken. lia.
    + by replace (S i + k) with (i + S k) by lia.
    + lia.
Qed.

(** Too few iterations never yield a wrong name: they yield none. *)
Lemma renameLoop_short k : forall fuel i,
  (forall j, i <= j < i + k -> (importName ++ numberToString j) ∈ definedNames) ->
  fuel <= k ->
  renameLoop definedNames importName fuel i = None.
Proof.
  induction k as [|k IH]; intros fuel i Htaken Hfuel;
    (destruct fuel as [|fuel]; [done|]); [lia|]. simpl.
  rewrite bool_decide_eq_true_2 by (apply Htaken; lia). simpl.
  apply IH; [|lia]. intros j Hj. apply Htaken. lia.
Qed.

End RenameLoop.

Lemma size_list_to_set_le (l : list JsString) :
  size (list_to_set (C:=gset JsString) l) <= length l.
Proof.
  induction l as [|x l IH].
  - change (size (∅ : gset JsString) <= 0). by rewrite size_empty.
  - change (size ({[x]} ∪ list_to_set (C:=gset JsString) l) <= S (length l)).
    rewrite size_union_alt, size_singleton.
    assert (Hle : size (list_to_set (C:=gset JsString) l ∖ {[x]})
            <= size (list_to_set (C:=gset JsString) l)).
    { apply subseteq_size. intros y Hy.
      by apply elem_of_difference in Hy as [? _]. }
    lia.
Qed.

(** The name of lines 244-251: the requested one when it is free,
    otherwise the first free suffixed one. *)
Lemma chooseName_spec (variables : list JsString) (importName : JsString) :
  exists newName,
    chooseName variables importName = Some newName
    ∧ freshNameFor variables importName newName.
Proof.
  unfold chooseName, freshNameFor. case_bool_decide as Hin.
  - destruct (first_free_exists (list_to_set variables) importName)
      as (i & Hi & Hfree & Htaken).
    exists (importName ++ numberToString i). split; [|split; [|split]].
    + apply (renameLoop_run _ _ i _ 0).
      * intros j Hj. apply Htaken. lia.
      * done.
      * pose proof (size_list_to_set_le variables). lia.
    + by rewrite elem_of_list_to_set in Hfree.
    + done.
    + intros _. exists i. split; [done|].
      intros j Hj. specialize (Htaken j Hj).
      by rewrite elem_of_list_to_set in Htaken.
  - exists importName. split; [done|]. split; [done|]. split; done.
Qed.

(** ** The scan of the program body *)

Lemma bindsExport_alreadyBinds importName spec :
  alreadyBinds importName spec
  <-> spec_is_type spec = false ∧ bindsExport importName spec = true.
Proof.
  unfold alreadyBinds. split.
  - intros [Ht [(l & r & -> & ->)|(l & k & r & ->)]]; split; try done;
      simpl; by apply bool_decide_eq_true_2.
  - intros [Ht Hb]. split; [done|].
    destruct spec as [l r|l r|i l k r]; simpl in Hb; [| done |].
    + apply bool_decide_eq_true_1 in Hb. left. by exists l, r.
    + apply bool_decide_eq_true_1 in Hb as ->. right. by exists l, k, r.
Qed.

Lemma namespace_not_type spec :
  isImportNamespaceSpecifier spec = true -> spec_is_type spec = false.
Proof. by destruct spec. Qed.

Lemma scanSpecifiers_reuse importName specs e spec rest :
  filter (alreadyBinds importName) specs = spec :: rest ->
  scanSpecifiers importName specs e = inl (spec_local spec).
Proof.
  revert e. induction specs as [|s specs IH]; intros e Hf; [done|].
  rewrite filter_cons in Hf. simpl.
  destruct (decide (alreadyBinds importName s)) as [Hb|Hb].
  - simplify_eq. apply bindsExport_alreadyBinds in Hb as [-> ->]. done.
  - rewrite bindsExport_alreadyBinds in Hb.
    destruct (spec_is_type s); [by apply IH|].
    destruct (bindsExport importName s); [naive_solver|].
    destruct (isImportNamespaceSpecifier s); by apply IH.
Qed.

Lemma scanSpecifiers_none importName specs e :
  filter (alreadyBinds importName) specs = [] ->
  scanSpecifiers importName specs e
  = inr (e && forallb (fun s => negb (isImportNamespaceSpecifier s)) specs).
Proof.
  revert e. induction specs as [|s specs IH]; intros e Hf; simpl.
  { by rewrite andb_true_r. }
  rewrite filter_cons in Hf.
  destruct (decide (alreadyBinds importName s)) as [Hb|Hb]; [done|].
  rewrite bindsExport_alreadyBinds in Hb.
  destruct (isImportNamespaceSpecifier s) eqn:Hns; simpl.
  - destruct s; try done. simpl.
    rewrite IH by done. by rewrite andb_false_r.
  - destruct (spec_is_type s); [by apply IH|].
    destruct (bindsExport importName s); [naive_solver|]. by apply IH.
Qed.

Lemma bindingSpecifiers_other source importName rest :
  bindingSpecifiers source importName (OtherStatement :: rest)
  = bindingSpecifiers source importName rest.
Proof. done. Qed.

Lemma bindingSpecifiers_import source importName stmt rest :
  bindingSpecifiers source importName (Import stmt :: rest)
  = (if decide (valueImportFrom source stmt)
     then filter (alreadyBinds importName) (specifiers stmt) else [])
    ++ bindingSpecifiers source importName rest.
Proof.
  unfold bindingSpecifiers. simpl. rewrite filter_cons.
  destruct (decide (valueImportFrom source stmt)); done.
Qed.

Lemma eligible_forallb source stmt :
  valueImportFrom source stmt ->
  forallb (fun s => negb (isImportNamespaceSpecifier s)) (specifiers stmt) = true
  <-> eligibleForAppending source stmt.
Proof.
  intros Hv. unfold eligibleForAppending.
  rewrite forallb_forall. split.
  - intros H. split; [done|]. intros spec Hin.
    apply list_elem_of_In, H in Hin. by destruct (isImportNamespaceSpecifier spec).
  - intros [_ H] spec Hin. apply list_elem_of_In, H in Hin. by rewrite Hin.
Qed.

(** The first binding specifier, in source order, ends the scan. *)
Lemma scanBody_reuse source importName hints stmts st spec rest :
  bindingSpecifiers source importName stmts = spec :: rest ->
  scanBody source importName hints stmts st = inl (spec_local spec).
Proof.
  revert st. induction stmts as [|[stmt|] stmts IH]; intros st Hb; [done| |].
  - rewrite bindingSpecifiers_import in Hb. simpl.
    destruct (decide (valueImportFrom source stmt)) as [[Hs Hk]|Hn].
    + rewrite bool_decide_eq_true_2 by done.
      destruct (importKind stmt); [done|].
      destruct (filter (alreadyBinds importName) (specifiers stmt))
        as [|spec' rest'] eqn:Hf.
      * rewrite scanSpecifiers_none by done. by apply IH.
      * simplify_eq/=. by rewrite (scanSpecifiers_reuse _ _ _ _ _ Hf).
    + case_bool_decide as Hs.
      * destruct (importKind stmt) eqn:Hk; [by apply IH|].
        destruct Hn. split; [done|]. by rewrite Hk.
      * destruct (_ && _); by apply IH.
  - simpl. by apply IH.
Qed.

(** Without a binding specifier the scan visits the whole body; each
    variable keeps the first statement that qualifies. *)
Lemma scanBody_none source importName hints stmts : forall st,
  bindingSpecifiers source importName stmts = [] ->
  scanBody source importName hints stmts st
  = inr {| positionHintNode :=
             match positionHintNode st with
             | Some h => Some h
             | None => positionHintNode (scanned source hints stmts)
             end;
           importNode :=
             match importNode st with
             | Some n => Some n
             | None => importNode (scanned source hints stmts)
             end;
           lastImport :=
             match lastImport (scanned source hints stmts) with
             | Some l => Some l
             | None => lastImport st
             end |}.
Proof.
  induction stmts as [|[stmt|] stmts IH]; intros st Hb.
  - simpl. by destruct st as [[] [] []].
  - rewrite bindingSpecifiers_import in Hb.
    apply app_eq_nil in Hb as [Hhere Hrest].
    simpl. unfold scanned. simpl. rewrite !filter_cons, last_cons.
    fold (scanned source hints stmts).
    destruct (decide (valueImportFrom source stmt)) as [[Hs Hk]|Hn].
    + rewrite bool_decide_eq_true_2 by done.
      rewrite (decide_False (P := _ ∧ _)) by (intros [? _]; done).
      destruct (importKind stmt) eqn:Hkind; [done|].
      rewrite scanSpecifiers_none by done. simpl.
      assert (Hv : valueImportFrom source stmt) by (split; [done|by rewrite Hkind]).
      destruct (forallb _ (specifiers stmt)) eqn:Hall.
      * rewrite (decide_True (P := eligibleForAppending source stmt))
          by (by apply eligible_forallb).
        rewrite andb_true_r, IH by done. simpl.
        destruct (importNode st); simpl;
          by destruct (last (imports stmts)).
      * rewrite (decide_False (P := eligibleForAppending source stmt)).
        2:{ rewrite <- eligible_forallb by done. by rewrite Hall. }
        rewrite andb_false_r, IH by done. simpl.
        by destruct (last (imports stmts)).
    + rewrite (decide_False (P := eligibleForAppending source stmt))
        by (intros [? _]; done).
      case_bool_decide as Hs.
      * rewrite (decide_False (P := _ ∧ _)) by (intros [? _]; done).
        destruct (importKind stmt) eqn:Hkind.
        2:{ destruct Hn. split; [done|by rewrite Hkind]. }
        rewrite IH by done. simpl. by destruct (last (imports stmts)).
      * destruct (decide (source_value stmt ∈ hints)) as [Hh|Hh].
        -- rewrite (decide_True (P := _ ∧ _)) by done.
           rewrite (bool_decide_eq_true_2 _ Hh), andb_true_r.
           destruct (positionHintNode st) eqn:Hp; simpl.
           ++ rewrite IH by done. simpl.
              by destruct (last (imports stmts)).
           ++ rewrite IH by done. simpl.
              by destruct (last (imports stmts)).
        -- rewrite (decide_False (P := _ ∧ _)) by (intros [_ ?]; done).
           rewrite (bool_decide_eq_false_2 _ Hh), andb_false_r.
           rewrite IH by done. simpl. by destruct (last (imports stmts)).
  - simpl. rewrite IH by done. done.
Qed.

Lemma scanBody_scanned source importName hints stmts :
  bindingSpecifiers source importName stmts = [] ->
  scanBody source importName hints stmts scan0
  = inr (scanned source hints stmts).
Proof.
  intros Hb. rewrite scanBody_none by done. unfold scanned. simpl.
  by destruct (last (imports stmts)).
Qed.

Lemma elem_of_imports stmts d : d ∈ imports stmts <-> Import d ∈ stmts.
Proof.
  unfold imports. rewrite list_elem_of_omap. split.
  - intros ([d'|] & Hin & Heq); by simplify_eq.
  - intros Hin. by exists (Import d).
Qed.

Lemma elem_of_bindingSpecifiers source importName stmts spec :
  spec ∈ bindingSpecifiers source importName stmts
  <-> exists stmt, Import stmt ∈ stmts ∧ valueImportFrom source stmt
                   ∧ spec ∈ specifiers stmt ∧ alreadyBinds importName spec.
Proof.
  unfold bindingSpecifiers. rewrite list_elem_of_bind. split.
  - intros (d & Hspec & Hd).
    apply list_elem_of_filter in Hspec as [? ?].
    apply list_elem_of_filter in Hd as [? Hd].
    apply elem_of_imports in Hd. by exists d.
  - intros (d & Hd & Hv & Hspec & Hb). exists d.
    rewrite !list_elem_of_filter, elem_of_imports. done.
Qed.

(** ** The edit inside an existing statement *)

Lemma last_is_Some {A} (l : list A) : l ≠ [] -> is_Some (last l).
Proof.
  induction l as [|x l IH]; [done|]. intros _. rewrite last_cons.
  destruct (last l); eauto.
Qed.

Lemma extendImport_total sc node specText :
  is_Some (extendImport sc node specText).
Proof.
  unfold extendImport.
  destruct (existsb isImportSpecifier (specifiers node)) eqn:Hnamed.
  - destruct (last_is_Some (specifiers node)) as [l ->]; [|by eexists].
    intros Hnil. by rewrite Hnil in Hnamed.
  - destruct (existsb isImportDefaultSpecifier (specifiers node)) eqn:Hdef.
    + apply existsb_exists in Hdef as (d & Hin & Hd).
      destruct (find isImportDefaultSpecifier (specifiers node)) eqn:Hfind.
      2:{ eapply find_none in Hfind; [|done]. congruence. }
      simpl. repeat case_match; by eexists.
    + repeat case_match; by eexists.
Qed.

(** ** The whole call *)

(** Without a reuse the call returns one fix and the chosen name: the
    edit inside the first statement that can be extended when one of the
    recognised shapes applies there, a brand-new statement otherwise. *)
Lemma getOrInsertImport_no_reuse sc sm source importName hints after :
  bindingSpecifiers source importName (body (globalScope_block sm)) = [] ->
  exists newName f,
    chooseName (programScope_variables sm) importName = Some newName
    ∧ freshNameFor (programScope_variables sm) importName newName
    ∧ getOrInsertImport sc sm source importName hints after
      = Some ([f], newName)
    ∧ let st := scanned source hints (body (globalScope_block sm)) in
      let specText := specTextOf importName newName in
      let fresh := insertNewImport (globalScope_block sm) st source specText after in
      match importNode st with
      | Some node =>
          extendImport sc node specText = Some (Some f)
          ∨ (extendImport sc node specText = Some None ∧ f = fresh)
      | None => f = fresh
      end.
Proof.
  intros Hb.
  destruct (chooseName_spec (programScope_variables sm) importName)
    as (newName & Hname & Hfresh).
  unfold getOrInsertImport. rewrite scanBody_scanned by done.
  rewrite Hname. simpl.
  destruct (head (filter (eligibleForAppending source)
                    (imports (body (globalScope_block sm)))))
    as [node|] eqn:Hnode.
  - destruct (extendImport_total sc node (specTextOf importName newName))
      as [[f|] Hext]; rewrite Hext; simpl.
    + exists newName, f. auto.
    + eexists newName, _. do 3 (split; [done|]). by right.
  - by eexists newName, _.
Qed.

(** The call always returns. *)
Lemma getOrInsertImport_total sc sm source importName hints after :
  is_Some (getOrInsertImport sc sm source importName hints after).
Proof.
  destruct (bindingSpecifiers source importName (body (globalScope_block sm)))
    as [|spec rest] eqn:Hb.
  - destruct (getOrInsertImport_no_reuse sc sm source importName hints after Hb)
      as (n & f & _ & _ & -> & _). by eexists.
  - unfold getOrInsertImport. rewrite (scanBody_reuse _ _ _ _ _ _ _ Hb).
    by eexists.
Qed.

(** ** Reuse of an existing binding *)

(** C1, as the code has it. When some value import from the target
    module has a value specifier that already binds the requested
    export (a default specifier for [default], or a named specifier
    importing it), the call makes no edit and returns the local name of
    the first such specifier in source order. That is the local name
    of the given specifier whenever every binding specifier has its
    local name, in particular when it is the only one, as after a first
    call that introduced the binding. *)
Theorem reuse_existing_binding sc sm source importName hints after stmt spec :
  Import stmt ∈ body (globalScope_block sm) ->
  valueImportFrom source stmt ->
  spec ∈ specifiers stmt ->
  alreadyBinds importName spec ->
  exists stmt' spec',
    Import stmt' ∈ body (globalScope_block sm)
    ∧ valueImportFrom source stmt'
    ∧ spec' ∈ specifiers stmt'
    ∧ alreadyBinds importName spec'
    ∧ head (bindingSpecifiers source importName (body (globalScope_block sm)))
      = Some spec'
    ∧ getOrInsertImport sc sm source importName hints after
      = Some ([], spec_local spec')
    ∧ ((forall other,
          other ∈ bindingSpecifiers source importName
                    (body (globalScope_block sm)) ->
          spec_local other = spec_local spec) ->
       getOrInsertImport sc sm source importName hints after
       = Some ([], spec_local spec)).
Proof.
  intros Hstmt Hv Hspec Hb.
  assert (Hin : spec ∈ bindingSpecifiers source importName
                         (body (globalScope_block sm))).
  { apply elem_of_bindingSpecifiers. by exists stmt. }
  destruct (bindingSpecifiers source importName (body (globalScope_block sm)))
    as [|spec' rest] eqn:Hlist; [by apply elem_of_nil in Hin|].
  assert (Hin' : spec' ∈ bindingSpecifiers source importName
                           (body (globalScope_block sm))).
  { rewrite Hlist. apply list_elem_of_here. }
  pose proof Hin' as Hfirst.
  apply elem_of_bindingSpecifiers in Hin' as (stmt' & ? & ? & ? & ?).
  exists stmt', spec'. do 5 (split; [done|]).
  assert (Hres : getOrInsertImport sc sm source importName hints after
                 = Some ([], spec_local spec')).
  { unfold getOrInsertImport. by rewrite (scanBody_reuse _ _ _ _ _ _ _ Hlist). }
  split; [exact Hres|].
  intros Hall. rewrite Hres, (Hall spec'); [done|apply list_elem_of_here].
Qed.

Lemma reuse_existing_binding_witness :
  let spec :=
    ImportSpecifier (lit "Translate") (lit "Translate") kind_value (9, 18) in
  Import hi18n_stmt ∈ body (globalScope_block migrated_module)
  ∧ valueImportFrom (lit "@hi18n/react") hi18n_stmt
  ∧ spec ∈ specifiers hi18n_stmt
  ∧ alreadyBinds (lit "Translate") spec
  ∧ bindingSpecifiers (lit "@hi18n/react") (lit "Translate")
      (body (globalScope_block migrated_module)) = [spec]
  ∧ getOrInsertImport migrated_code migrated_module (lit "@hi18n/react")
      (lit "Translate") [lit "@lingui/react"; lit "@lingui/macro"] false
    = Some ([], lit "Translate").
Proof.
  intros spec.
  assert (H1 : Import hi18n_stmt ∈ body (globalScope_block migrated_module))
    by apply list_elem_of_here.
  assert (H2 : valueImportFrom (lit "@hi18n/react") hi18n_stmt)
    by (split; done).
  assert (H3 : spec ∈ specifiers hi18n_stmt) by apply list_elem_of_here.
  assert (H4 : alreadyBinds (lit "Translate") spec).
  { split; [done|]. right. by eexists _, _, _. }
  assert (H5 : bindingSpecifiers (lit "@hi18n/react") (lit "Translate")
                 (body (globalScope_block migrated_module)) = [spec])
    by reflexivity.
  do 5 (split; [done|]).
  destruct (reuse_existing_binding migrated_code migrated_module
              (lit "@hi18n/react") (lit "Translate")
              [lit "@lingui/react"; lit "@lingui/macro"] false
              _ _ H1 H2 H3 H4)
    as (stmt' & spec' & _ & _ & _ & _ & _ & _ & Honly).
  apply Honly. intros other Hother. rewrite H5 in Hother.
  apply list_elem_of_singleton in Hother. by subst other.
Defined.

(** On [import { A as X, A as Y } from "m";] the specifier [A as Y] is
    a value specifier of a value import from the target module that
    binds the requested export, and the call does not return its local
    name [Y]: it returns [X], the local name of the specifier before
    it. *)
Lemma reuse_existing_binding_counterexample :
  let spec := ImportSpecifier (lit "A") (lit "Y") kind_value (17, 23) in
  Import alias_stmt ∈ body (globalScope_block alias_module)
  ∧ valueImportFrom (lit "m") alias_stmt
  ∧ spec ∈ specifiers alias_stmt
  ∧ alreadyBinds (lit "A") spec
  ∧ getOrInsertImport alias_code alias_module (lit "m") (lit "A") [] false
    = Some ([], lit "X")
  ∧ getOrInsertImport alias_code alias_module (lit "m") (lit "A") [] false
    ≠ Some ([], spec_local spec).
Proof.
  intros spec. split; [apply list_elem_of_here|]. split; [by split|].
  split; [apply list_elem_of_further, list_elem_of_here|].
  split; [split; [done|]; right; by eexists _, _, _|].
  split; [reflexivity|]. discriminate.
Qed.

(** Dedup: in a state where the binding a first call introduced is the
    only binding of the export (or all its bindings share one local
    name), the call returns that name and no edit. *)
Lemma second_call_reuses sc sm source importName hints after n :
  bindingSpecifiers source importName (body (globalScope_block sm)) ≠ [] ->
  (forall spec,
     spec ∈ bindingSpecifiers source importName (body (globalScope_block sm)) ->
     spec_local spec = n) ->
  getOrInsertImport sc sm source importName hints after = Some ([], n).
Proof.
  intros Hne Hall.
  destruct (bindingSpecifiers source importName (body (globalScope_block sm)))
    as [|spec rest] eqn:Hlist; [done|].
  unfold getOrInsertImport. rewrite (scanBody_reuse _ _ _ _ _ _ _ Hlist).
  by rewrite (Hall spec) by apply list_elem_of_here.
Qed.

(** The first call on [import { Trans } from "@lingui/react";] inserts
    the import of [Translate]; on the text that edit produces, the
    second call reuses it. *)
Example dedup_on_lingui_file :
  let request sc sm :=
    getOrInsertImport sc sm (lit "@hi18n/react") (lit "Translate")
      [lit "@lingui/react"; lit "@lingui/macro"] false in
  exists f,
    request lingui_code lingui_module = Some ([f], lit "Translate")
    ∧ applyFix (text lingui_code) f = text migrated_code
    ∧ request migrated_code migrated_module = Some ([], lit "Translate").
Proof. vm_compute. eexists. repeat split. Qed.

(** ** The chosen name *)

(** C3. When no reuse applies, the returned name is the requested name
    if no module-scope variable has it; otherwise it is the requested
    name followed by the smallest [i >= 0] for which no module-scope
    variable has the suffixed name; in both cases no module-scope
    variable has the returned name. *)
Theorem chosen_name_is_fresh sc sm source importName hints after :
  bindingSpecifiers source importName (body (globalScope_block sm)) = [] ->
  exists fixes newName,
    getOrInsertImport sc sm source importName hints after
    = Some (fixes, newName)
    ∧ freshNameFor (programScope_variables sm) importName newName.
Proof.
  intros Hb.
  destruct (getOrInsertImport_no_reuse sc sm source importName hints after Hb)
    as (newName & f & _ & Hfresh & Hres & _).
  by exists [f], newName.
Qed.

Lemma chosen_name_is_fresh_witness :
  bindingSpecifiers (lit "m") (lit "a") (body (globalScope_block const_a_module))
  = []
  ∧ exists fixes newName,
      getOrInsertImport const_a_code const_a_module (lit "m") (lit "a") [] false
      = Some (fixes, newName)
      ∧ freshNameFor (programScope_variables const_a_module) (lit "a") newName.
Proof.
  split; [reflexivity|].
  apply (chosen_name_is_fresh const_a_code const_a_module). reflexivity.
Defined.

(** On [const a = 1;] the request for [a] is renamed to [a0]. *)
Example chosen_name_on_const_a :
  snd <$> getOrInsertImport const_a_code const_a_module (lit "m") (lit "a")
            [] false
  = Some (lit "a0").
Proof. reflexivity. Qed.

(** ** Termination of the renaming loop *)

(** C9. For every finite set of declared names and every base name the
    renaming loop terminates: there is a first suffix [i] whose name is
    free (no larger than the size of the set), every run granted more
    than [i] iterations returns exactly that name, and fewer iterations
    return nothing rather than another name. *)
Theorem renaming_loop_terminates (definedNames : gset JsString)
    (importName : JsString) :
  exists i,
    i <= size definedNames
    ∧ (importName ++ numberToString i ∉ definedNames)
    ∧ (forall j, j < i -> importName ++ numberToString j ∈ definedNames)
    ∧ (forall fuel, i < fuel ->
         renameLoop definedNames importName fuel 0
         = Some (importName ++ numberToString i))
    ∧ (forall fuel, fuel <= i ->
         renameLoop definedNames importName fuel 0 = None).
Proof.
  destruct (first_free_exists definedNames importName)
    as (i & Hi & Hfree & Htaken).
  exists i. do 3 (split; [done|]). split.
  - intros fuel Hfuel. apply (renameLoop_run _ _ i _ 0); [|done|done].
    intros j Hj. apply Htaken. lia.
  - intros fuel Hfuel. apply (renameLoop_short _ _ i); [|done].
    intros j Hj. apply Htaken. lia.
Qed.

(** ** A brand-new import statement *)

Lemma filter_ext_elem_of {A} (P Q : A -> Prop)
    `{!forall x, Decision (P x), !forall x, Decision (Q x)} (l : list A) :
  (forall x, x ∈ l -> P x <-> Q x) -> filter P l = filter Q l.
Proof.
  induction l as [|a l IH]; intros Hext; [done|].
  rewrite !filter_cons.
  assert (Ha : P a <-> Q a) by (apply Hext, list_elem_of_here).
  rewrite IH by (intros x Hx; apply Hext; by apply list_elem_of_further).
  destruct (decide (P a)), (decide (Q a)); tauto.
Qed.

Lemma filter_none {A} (P : A -> Prop) `{!forall x, Decision (P x)} (l : list A) :
  (forall x, x ∈ l -> ¬ P x) -> filter P l = [].
Proof.
  induction l as [|a l IH]; intros Hno; [done|].
  rewrite filter_cons, decide_False by (apply Hno, list_elem_of_here).
  apply IH. intros x Hx. by apply Hno, list_elem_of_further.
Qed.

(** No statement that can be extended means no reuse-free scan finds an
    [importNode]. *)
Lemma scanned_importNode_None source hints stmts :
  (forall stmt, Import stmt ∈ stmts -> ¬ eligibleForAppending source stmt) ->
  importNode (scanned source hints stmts) = None.
Proof.
  intros Hno. simpl. rewrite filter_none; [done|].
  intros d Hd. by apply Hno, elem_of_imports.
Qed.

Lemma bindingSpecifiers_no_import source importName stmts :
  (forall stmt, Import stmt ∈ stmts -> source_value stmt ≠ source) ->
  bindingSpecifiers source importName stmts = [].
Proof.
  intros Hno. unfold bindingSpecifiers. rewrite filter_none; [done|].
  intros d Hd [Hs _]. by apply elem_of_imports, Hno in Hd.
Qed.

(** C6, as the code has it. When no import from the target module
    exists, the call does not ask for insertion after the last import,
    and some import's module is among the position hints, the single
    edit inserts, immediately before the first such import, the new
    import statement, a line break and as many spaces as that import's
    start column. When the line of that import is indented with spaces
    only, this is the indentation of the line: in the text the edit
    produces, the new statement stands where the import stood, and the
    import follows on the next line behind the same indentation. *)
Theorem insert_before_first_hint sc sm source importName hints hint :
  (forall stmt, Import stmt ∈ body (globalScope_block sm) ->
                source_value stmt ≠ source) ->
  firstHintImport hints (body (globalScope_block sm)) = Some hint ->
  exists newName f,
    getOrInsertImport sc sm source importName hints false
    = Some ([f], newName)
    ∧ f = {| fix_range := ((range hint).1, (range hint).1);
             fix_text :=
               importStatementText (specTextOf importName newName) source
               ++ [LF] ++ replicate (loc_start_column hint) 32%N |}
    ∧ freshNameFor (programScope_variables sm) importName newName
    ∧ (linePrefix (text sc) (range hint).1
       = replicate (loc_start_column hint) 32%N ->
       applyFix (text sc) f
       = take (range hint).1 (text sc)
         ++ importStatementText (specTextOf importName newName) source
         ++ [LF] ++ linePrefix (text sc) (range hint).1
         ++ drop (range hint).1 (text sc)).
Proof.
  intros Hno Hhint.
  pose proof (bindingSpecifiers_no_import source importName _ Hno) as Hb.
  destruct (getOrInsertImport_no_reuse sc sm source importName hints false Hb)
    as (newName & f & _ & Hfresh & Hres & Hshape).
  exists newName, f. split; [exact Hres|].
  assert (Hf : f = {| fix_range := ((range hint).1, (range hint).1);
                      fix_text :=
                        importStatementText (specTextOf importName newName)
                          source
                        ++ [LF] ++ replicate (loc_start_column hint) 32%N |}).
  { simpl in Hshape. rewrite filter_none in Hshape.
    2:{ intros d Hd [[Hs _] _]. by apply elem_of_imports, Hno in Hd. }
    simpl in Hshape. subst f. unfold insertNewImport. simpl.
    unfold firstHintImport in Hhint.
    rewrite (filter_ext_elem_of _ (fun d => source_value d ∈ hints)), Hhint;
      [done|].
    intros d Hd. apply elem_of_imports, Hno in Hd. tauto. }
  split; [exact Hf|]. split; [exact Hfresh|].
  intros Hindent. rewrite Hf. unfold applyFix. cbn [fix_range fix_text fst snd].
  rewrite Hindent. by rewrite <- !app_assoc.
Qed.

Lemma insert_before_first_hint_witness :
  let statement :=
    lit "import { Translate } from " ++ quoted "@hi18n/react" ++ lit ";" in
  (forall stmt, Import stmt ∈ body (globalScope_block indented_module) ->
                source_value stmt ≠ lit "@hi18n/react")
  ∧ firstHintImport [lit "@lingui/react"]
      (body (globalScope_block indented_module))
    = Some (lingui_stmt_at 2)
  ∧ linePrefix (text indented_code) 2 = [32%N; 32%N]
  ∧ exists f,
      getOrInsertImport indented_code indented_module (lit "@hi18n/react")
        (lit "Translate") [lit "@lingui/react"] false
      = Some ([f], lit "Translate")
      ∧ f = {| fix_range := (2, 2);
               fix_text := statement ++ [LF] ++ lit "  " |}
      ∧ applyFix (text indented_code) f
        = lit "  " ++ statement ++ [LF]
          ++ lit "  import { Trans } from " ++ quoted "@lingui/react"
          ++ lit ";".
Proof.
  intros statement.
  assert (H1 : forall stmt,
             Import stmt ∈ body (globalScope_block indented_module) ->
             source_value stmt ≠ lit "@hi18n/react").
  { intros stmt Hin. apply list_elem_of_singleton in Hin.
    injection Hin as ->. done. }
  assert (H2 : firstHintImport [lit "@lingui/react"]
                 (body (globalScope_block indented_module))
               = Some (lingui_stmt_at 2)) by reflexivity.
  assert (H3 : linePrefix (text indented_code) 2 = [32%N; 32%N])
    by reflexivity.
  do 3 (split; [done|]).
  destruct (insert_before_first_hint indented_code indented_module
              (lit "@hi18n/react") (lit "Translate") [lit "@lingui/react"]
              (lingui_stmt_at 2) H1 H2)
    as (newName & f & Hres & Hf & (Hfresh & Hfree & _) & Htext).
  assert (Hname : newName = lit "Translate").
  { apply Hfree. intros Hin. apply list_elem_of_singleton in Hin. done. }
  subst newName. exists f. split; [exact Hres|]. split; [exact Hf|].
  rewrite (Htext H3). reflexivity.
Defined.

(** On the Lingui import indented by one tab, the hypotheses of the
    statement hold and the indentation of the hint import's line is the
    tab; the edit ends in one space instead. In the text it produces
    the new statement stands behind the tab and the Lingui import
    behind a space. *)
Lemma insert_before_first_hint_counterexample :
  let statement :=
    lit "import { Translate } from " ++ quoted "@hi18n/react" ++ lit ";" in
  (forall stmt, Import stmt ∈ body (globalScope_block tabbed_module) ->
                source_value stmt ≠ lit "@hi18n/react")
  ∧ firstHintImport [lit "@lingui/react"]
      (body (globalScope_block tabbed_module))
    = Some (lingui_stmt_at 1)
  ∧ linePrefix (text tabbed_code) 1 = [9%N]
  ∧ exists f,
      getOrInsertImport tabbed_code tabbed_module (lit "@hi18n/react")
        (lit "Translate") [lit "@lingui/react"] false
      = Some ([f], lit "Translate")
      ∧ fix_text f = statement ++ [LF] ++ [32%N]
      ∧ fix_text f ≠ statement ++ [LF] ++ linePrefix (text tabbed_code) 1
      ∧ applyFix (text tabbed_code) f
        = [9%N] ++ statement ++ [LF] ++ [32%N] ++ lingui_text.
Proof.
  intros statement. split.
  { intros stmt Hin. apply list_elem_of_singleton in Hin.
    injection Hin as ->. done. }
  split; [reflexivity|]. split; [reflexivity|].
  eexists. split; [reflexivity|]. split; [reflexivity|].
  split; [discriminate|reflexivity].
Qed.

(** The scenario of the specification, at column 0: the edit is at
    offset 0, ends in the line break, and the name is [Translate]. *)
Example insert_before_first_hint_at_column_0 :
  getOrInsertImport lingui_code lingui_module (lit "@hi18n/react")
    (lit "Translate") [lit "@lingui/react"] false
  = Some ([{| fix_range := (0, 0);
              fix_text := lit "import { Translate } from "
                          ++ quoted "@hi18n/react" ++ lit ";" ++ [LF] |}],
          lit "Translate").
Proof. reflexivity. Qed.

(** [" ".repeat(n)] is [n] code units, each of them a space. *)
Lemma spaces_spec n : length (spaces n) = n ∧ Forall (eq 32%N) (spaces n).
Proof.
  unfold spaces. split; [apply length_replicate|].
  apply Forall_forall. intros c Hc%elem_of_replicate. by destruct Hc.
Qed.

(** The text the edit of the example produces. *)
Example insert_before_first_hint_text :
  match getOrInsertImport lingui_code lingui_module (lit "@hi18n/react")
          (lit "Translate") [lit "@lingui/react"] false with
  | Some (fixes, _) => applyFix (text lingui_code) <$> fixes
  | None => []
  end
  = [lit "import { Translate } from " ++ quoted "@hi18n/react" ++ lit ";"
     ++ [LF]
     ++ lit "import { Trans } from " ++ quoted "@lingui/react" ++ lit ";"].
Proof. reflexivity. Qed.

(** C7, as the code has it. When no specifier already binds the
    requested export, no import statement from the target module can be
    extended, insertion after the last import is requested and an import
    exists, the single edit inserts, immediately after the last import
    statement, a line break, as many spaces as that import's start
    column, and the new import statement. *)
Theorem insert_after_last_import sc sm source importName hints lastStmt :
  bindingSpecifiers source importName (body (globalScope_block sm)) = [] ->
  (forall stmt, Import stmt ∈ body (globalScope_block sm) ->
                ¬ eligibleForAppending source stmt) ->
  last (imports (body (globalScope_block sm))) = Some lastStmt ->
  exists newName,
    getOrInsertImport sc sm source importName hints true
    = Some ([insertTextAfter (range lastStmt)
               ([LF] ++ spaces (loc_start_column lastStmt)
                ++ importStatementText (specTextOf importName newName) source)],
            newName)
    ∧ freshNameFor (programScope_variables sm) importName newName.
Proof.
  intros Hb Hno Hlast.
  destruct (getOrInsertImport_no_reuse sc sm source importName hints true Hb)
    as (newName & f & _ & Hfresh & Hres & Hshape).
  exists newName. split; [|done]. rewrite Hres. do 3 f_equal.
  cbv zeta in Hshape.
  rewrite (scanned_importNode_None _ _ _ Hno) in Hshape. subst f.
  unfold insertNewImport. simpl. by rewrite Hlast.
Qed.

Lemma insert_after_last_import_witness :
  bindingSpecifiers (lit "m") (lit "Bar")
    (body (globalScope_block default_namespace_module)) = []
  ∧ (forall stmt,
       Import stmt ∈ body (globalScope_block default_namespace_module) ->
       ¬ eligibleForAppending (lit "m") stmt)
  ∧ last (imports (body (globalScope_block default_namespace_module)))
    = Some default_namespace_stmt
  ∧ getOrInsertImport default_namespace_code default_namespace_module
      (lit "m") (lit "Bar") [] true
    = Some ([{| fix_range := (29, 29);
                fix_text := [LF] ++ lit "import { Bar } from " ++ quoted "m"
                            ++ lit ";" |}],
            lit "Bar").
Proof.
  assert (H1 : bindingSpecifiers (lit "m") (lit "Bar")
                 (body (globalScope_block default_namespace_module)) = [])
    by reflexivity.
  assert (H2 : forall stmt,
             Import stmt ∈ body (globalScope_block default_namespace_module) ->
             ¬ eligibleForAppending (lit "m") stmt).
  { intros stmt Hin [_ Hall]. apply list_elem_of_singleton in Hin.
    injection Hin as ->.
    specialize (Hall (ImportNamespaceSpecifier (lit "ns") (12, 19))).
    discriminate Hall. apply list_elem_of_further, list_elem_of_here. }
  assert (H3 : last (imports (body (globalScope_block default_namespace_module)))
               = Some default_namespace_stmt) by reflexivity.
  do 3 (split; [done|]).
  destruct (insert_after_last_import default_namespace_code
              default_namespace_module (lit "m") (lit "Bar") []
              default_namespace_stmt H1 H2 H3)
    as (newName & Hres & Hfresh & Hfree & _).
  rewrite Hres, Hfree; [reflexivity|].
  intros Hin. apply elem_of_cons in Hin as [Hin|Hin]; [done|].
  apply list_elem_of_singleton in Hin. done.
Defined.

(** C7 as stated fails: on [import foo, * as ns from "m";] no import
    from ["m"] can be extended and an import exists, yet the request for
    [default] with insertion after the last import is answered by the
    reuse of [foo], with no edit at all. *)
Lemma insert_after_last_import_counterexample :
  (forall stmt,
     Import stmt ∈ body (globalScope_block default_namespace_module) ->
     ¬ eligibleForAppending (lit "m") stmt)
  ∧ last (imports (body (globalScope_block default_namespace_module)))
    = Some default_namespace_stmt
  ∧ getOrInsertImport default_namespace_code default_namespace_module
      (lit "m") (lit "default") [] true
    = Some ([], lit "foo").
Proof.
  split; [|split; reflexivity].
  intros stmt Hin [_ Hall]. apply list_elem_of_singleton in Hin.
  injection Hin as ->.
  specialize (Hall (ImportNamespaceSpecifier (lit "ns") (12, 19))).
  discriminate Hall. apply list_elem_of_further, list_elem_of_here.
Qed.

(** ** Edits inside an existing statement *)

(** C8. On [import Foo, {} from "m";], the request for [Bar] from ["m"],
    with [Bar] not declared in the module scope, is a new binding named
    [Bar] whose single edit inserts [ Bar ] right after the opening
    brace; the text becomes [import Foo, { Bar } from "m";]. *)
Theorem empty_named_block_is_filled variables hints after :
  lit "Bar" ∉ variables ->
  getOrInsertImport empty_braces_code (empty_braces_module variables)
    (lit "m") (lit "Bar") hints after
  = Some ([{| fix_range := (13, 13); fix_text := lit " Bar " |}], lit "Bar")
  ∧ applyFix (text empty_braces_code)
      {| fix_range := (13, 13); fix_text := lit " Bar " |}
    = lit "import Foo, { Bar } from " ++ quoted "m" ++ lit ";".
Proof.
  intros Hfree. split; [|reflexivity].
  unfold getOrInsertImport.
  assert (Hscan : scanBody (lit "m") (lit "Bar") hints
                    (body (globalScope_block (empty_braces_module variables)))
                    scan0
                  = inr {| positionHintNode := None;
                           importNode := Some empty_braces_stmt;
                           lastImport := Some empty_braces_stmt |})
    by reflexivity.
  rewrite Hscan.
  assert (Hname : chooseName
                    (programScope_variables (empty_braces_module variables))
                    (lit "Bar") = Some (lit "Bar")).
  { unfold chooseName. simpl. by rewrite bool_decide_eq_false_2. }
  rewrite Hname. reflexivity.
Qed.

Lemma empty_named_block_is_filled_witness :
  (lit "Bar" ∉ [lit "Foo"])
  ∧ getOrInsertImport empty_braces_code (empty_braces_module [lit "Foo"])
      (lit "m") (lit "Bar") [] false
    = Some ([{| fix_range := (13, 13); fix_text := lit " Bar " |}], lit "Bar")
  ∧ applyFix (text empty_braces_code)
      {| fix_range := (13, 13); fix_text := lit " Bar " |}
    = lit "import Foo, { Bar } from " ++ quoted "m" ++ lit ";".
Proof.
  assert (H : lit "Bar" ∉ [lit "Foo"]).
  { intros Hin. apply list_elem_of_singleton in Hin. done. }
  split; [done|].
  exact (empty_named_block_is_filled [lit "Foo"] [] false H).
Defined.

(** The branch for a bare default import: when the first token after
    the default specifier is [from], the clause is inserted after that
    token. *)
Lemma extendImport_bare_default sc node specText l r t0 ts :
  specifiers node = [ImportDefaultSpecifier l r] ->
  getTokensAfter sc r 2 = t0 :: ts ->
  isToken Tok_Identifier (lit "from") t0 = true ->
  extendImport sc node specText
  = Some (Some (insertTextAfter (tok_range t0)
                  (lit ", { " ++ specText ++ lit " }"))).
Proof.
  intros Hspecs Htok Hfrom. unfold extendImport.
  rewrite Hspecs. simpl. rewrite Htok.
  assert (Hcomma : isToken Tok_Punctuator (lit ",") t0 = false).
  { unfold isToken in *. apply andb_true_iff in Hfrom as [Hty _].
    apply bool_decide_eq_true_1 in Hty.
    rewrite bool_decide_eq_false_2; [done|]. by rewrite Hty. }
  destruct ts as [|t1 [|t2 ts]]; rewrite ?Hcomma, ?Hfrom; done.
Qed.

(** C2 fails on the code. On [import foo from "M";] the request for
    [bar] yields the edit [, { bar }] at offset 15, the end of the
    [from] token, and not at offset 10, the end of the default
    specifier: the text becomes [import foo from, { bar } "M";] instead
    of [import foo, { bar } from "M";]. *)
Lemma bare_default_edit_is_misplaced :
  getOrInsertImport bare_default_code bare_default_module (lit "M") (lit "bar")
    [] false
  = Some ([{| fix_range := (15, 15); fix_text := lit ", { bar }" |}], lit "bar")
  ∧ applyFix (text bare_default_code)
      {| fix_range := (15, 15); fix_text := lit ", { bar }" |}
    = lit "import foo from, { bar } " ++ quoted "M" ++ lit ";"
  ∧ applyFix (text bare_default_code)
      {| fix_range := (15, 15); fix_text := lit ", { bar }" |}
    ≠ lit "import foo, { bar } from " ++ quoted "M" ++ lit ";".
Proof. split; [reflexivity|]. split; [reflexivity|]. discriminate. Qed.

(** ** No collision between the names of two requests *)

Lemma importLocals_spec stmts :
  importLocals stmts = spec_local <$> (imports stmts ≫= specifiers).
Proof.
  unfold importLocals. induction (imports stmts) as [|d l IH]; [done|].
  rewrite !bind_cons, fmap_app. by f_equal.
Qed.

Lemma bindingSpecifiers_subseteq source importName stmts :
  bindingSpecifiers source importName stmts ⊆ imports stmts ≫= specifiers.
Proof.
  intros spec (stmt & Hin & _ & Hspec & _)%elem_of_bindingSpecifiers.
  apply list_elem_of_bind. exists stmt. by rewrite elem_of_imports.
Qed.

Lemma NoDup_fmap_elem_inj {A B} (f : A -> B) (l : list A) x y :
  NoDup (f <$> l) -> x ∈ l -> y ∈ l -> f x = f y -> x = y.
Proof.
  induction l as [|a l IH]; intros Hnd Hx Hy Heq.
  { by apply elem_of_nil in Hx. }
  rewrite fmap_cons in Hnd. apply NoDup_cons in Hnd as [Ha Hnd].
  apply elem_of_cons in Hx as [->|Hx]; apply elem_of_cons in Hy as [->|Hy].
  - done.
  - destruct Ha. rewrite Heq. by apply list_elem_of_fmap_2.
  - destruct Ha. rewrite <- Heq. by apply list_elem_of_fmap_2.
  - by apply IH.
Qed.

Lemma alreadyBinds_inj e1 e2 spec :
  alreadyBinds e1 spec -> alreadyBinds e2 spec -> e1 = e2.
Proof.
  intros [_ [(?&?&->&->)|(?&?&?&->)]] [_ [(?&?&?&->)|(?&?&?&?)]];
    by simplify_eq.
Qed.

Lemma suffixed_collision e1 e2 a b :
  e1 ≠ e2 ->
  a ≠ [] -> Forall (fun c => isDigit c = true) a ->
  b ≠ [] -> Forall (fun c => isDigit c = true) b ->
  e1 ++ a = e2 ++ b ->
  digitExtension e1 e2 ∨ digitExtension e2 e1.
Proof.
  intros Hne Ha Hda Hb Hdb Heq.
  apply app_eq_inv in Heq as [(w & -> & ->)|(w & -> & ->)].
  - right. exists w. split; [|split; [|done]].
    + intros ->. by rewrite app_nil_r in Hne.
    + by apply Forall_app in Hdb as [? _].
  - left. exists w. split; [|split; [|done]].
    + intros ->. by rewrite app_nil_r in Hne.
    + by apply Forall_app in Hda as [? _].
Qed.

(** Two fresh names for different requests collide only when one
    requested name is the other followed by digits. *)
Lemma fresh_names_distinct variables e1 e2 n1 n2 :
  e1 ≠ e2 -> ¬ digitExtension e1 e2 -> ¬ digitExtension e2 e1 ->
  freshNameFor variables e1 n1 -> freshNameFor variables e2 n2 ->
  n1 ≠ n2.
Proof.
  intros Hne H12 H21 (_ & Hsame1 & Hsuf1) (_ & Hsame2 & Hsuf2) <-.
  destruct (decide (e1 ∈ variables)) as [Hin1|Hout1];
    destruct (decide (e2 ∈ variables)) as [Hin2|Hout2].
  - destruct (Hsuf1 Hin1) as (i & Hi & _), (Hsuf2 Hin2) as (j & Hj & _).
    rewrite Hi in Hj.
    destruct (suffixed_collision e1 e2 (numberToString i) (numberToString j));
      auto using numberToString_nonempty, numberToString_isDigit.
  - destruct (Hsuf1 Hin1) as (i & Hi & _). specialize (Hsame2 Hout2).
    destruct H12. exists (numberToString i).
    split; [apply numberToString_nonempty|].
    split; [apply numberToString_isDigit|]. congruence.
  - destruct (Hsuf2 Hin2) as (j & Hj & _). specialize (Hsame1 Hout1).
    destruct H21. exists (numberToString j).
    split; [apply numberToString_nonempty|].
    split; [apply numberToString_isDigit|]. congruence.
  - specialize (Hsame1 Hout1). specialize (Hsame2 Hout2). congruence.
Qed.

(** The outcome of one call, by cases on reuse. *)
Lemma getOrInsertImport_cases sc sm source importName hints after :
  (exists spec,
     spec ∈ bindingSpecifiers source importName (body (globalScope_block sm))
     ∧ getOrInsertImport sc sm source importName hints after
       = Some ([], spec_local spec))
  ∨ (exists f newName,
       bindingSpecifiers source importName (body (globalScope_block sm)) = []
       ∧ getOrInsertImport sc sm source importName hints after
         = Some ([f], newName)
       ∧ freshNameFor (programScope_variables sm) importName newName).
Proof.
  destruct (bindingSpecifiers source importName (body (globalScope_block sm)))
    as [|spec rest] eqn:Hb.
  - right.
    destruct (getOrInsertImport_no_reuse sc sm source importName hints after Hb)
      as (n & f & _ & Hfresh & Hres & _). by exists f, n.
  - left. exists spec. split; [apply list_elem_of_here|].
    unfold getOrInsertImport. by rewrite (scanBody_reuse _ _ _ _ _ _ _ Hb).
Qed.

(** A reused name is an import binding of the file, hence a
    module-scope variable of a consistent scope. *)
Lemma reused_name_is_import_local sm source importName spec :
  spec ∈ bindingSpecifiers source importName (body (globalScope_block sm)) ->
  spec_local spec ∈ importLocals (body (globalScope_block sm)).
Proof.
  intros Hin. rewrite importLocals_spec.
  by apply list_elem_of_fmap_2, (bindingSpecifiers_subseteq source importName).
Qed.

(** Two specifiers reused for different exports are different
    specifiers, and so have different local names. *)
Lemma reused_names_distinct sm src1 e1 src2 e2 s1 s2 :
  scopeConsistent sm -> e1 ≠ e2 ->
  s1 ∈ bindingSpecifiers src1 e1 (body (globalScope_block sm)) ->
  s2 ∈ bindingSpecifiers src2 e2 (body (globalScope_block sm)) ->
  spec_local s1 ≠ spec_local s2.
Proof.
  intros [_ Hnd] Hne Hs1 Hs2 Heq. apply Hne.
  assert (s1 = s2) as ->.
  { rewrite importLocals_spec in Hnd.
    eapply (NoDup_fmap_elem_inj spec_local); [done|..|done];
      by eapply bindingSpecifiers_subseteq. }
  apply elem_of_bindingSpecifiers in Hs1 as (? & _ & _ & _ & ?).
  apply elem_of_bindingSpecifiers in Hs2 as (? & _ & _ & _ & ?).
  by eapply alreadyBinds_inj.
Qed.

(** A reused name and a fresh one differ. *)
Lemma reused_and_fresh_distinct sm source importName spec e n :
  scopeConsistent sm ->
  spec ∈ bindingSpecifiers source importName (body (globalScope_block sm)) ->
  freshNameFor (programScope_variables sm) e n ->
  spec_local spec ≠ n.
Proof.
  intros [Hsub _] Hs [Hfree _] Heq. apply Hfree. rewrite <- Heq.
  eapply Hsub, reused_name_is_import_local, Hs.
Qed.

(** C4, as the code has it. Two calls against the same state, for
    requested names that differ and of which neither is the other
    followed by decimal digits (as [Translate] and [book] in the fix
    generator), in a module whose scope is consistent with its imports,
    return different names, and neither name shadows a declaration that
    was there: it is a reused import binding or a name no module-scope
    variable has. *)
Theorem distinct_requests_get_distinct_names
    sc sm src1 e1 hints1 after1 src2 e2 hints2 after2 :
  scopeConsistent sm ->
  e1 ≠ e2 -> ¬ digitExtension e1 e2 -> ¬ digitExtension e2 e1 ->
  exists r1 r2,
    getOrInsertImport sc sm src1 e1 hints1 after1 = Some r1
    ∧ getOrInsertImport sc sm src2 e2 hints2 after2 = Some r2
    ∧ r1.2 ≠ r2.2
    ∧ shadowsNothing sm r1 ∧ shadowsNothing sm r2.
Proof.
  intros Hsc Hne H12 H21.
  destruct (getOrInsertImport_cases sc sm src1 e1 hints1 after1)
    as [(s1 & Hs1 & ->)|(f1 & n1 & Hb1 & -> & Hf1)];
  destruct (getOrInsertImport_cases sc sm src2 e2 hints2 after2)
    as [(s2 & Hs2 & ->)|(f2 & n2 & Hb2 & -> & Hf2)];
  eexists _, _; (split; [done|]); (split; [done|]); simpl.
  - split; [by eapply reused_names_distinct|].
    split; left; eauto using reused_name_is_import_local.
  - split; [by eapply reused_and_fresh_distinct|].
    split; [left; eauto using reused_name_is_import_local|right; apply Hf2].
  - split; [apply not_eq_sym; by eapply reused_and_fresh_distinct|].
    split; [right; apply Hf1|left; eauto using reused_name_is_import_local].
  - split; [by eapply fresh_names_distinct|].
    split; right; [apply Hf1|apply Hf2].
Qed.

Lemma Translate_book_unrelated :
  lit "Translate" ≠ lit "book"
  ∧ ¬ digitExtension (lit "Translate") (lit "book")
  ∧ ¬ digitExtension (lit "book") (lit "Translate").
Proof.
  split; [done|]. split; intros (w & _ & _ & Heq); discriminate Heq.
Qed.

Lemma lingui_module_consistent : scopeConsistent lingui_module.
Proof.
  split.
  - intros x Hx. exact Hx.
  - apply NoDup_singleton.
Qed.

Lemma distinct_requests_get_distinct_names_witness :
  scopeConsistent lingui_module
  ∧ lit "Translate" ≠ lit "book"
  ∧ ¬ digitExtension (lit "Translate") (lit "book")
  ∧ ¬ digitExtension (lit "book") (lit "Translate")
  ∧ exists r1 r2,
      getOrInsertImport lingui_code lingui_module (lit "@hi18n/react")
        (lit "Translate") [lit "@lingui/react"; lit "@lingui/macro"] false
      = Some r1
      ∧ getOrInsertImport lingui_code lingui_module (lit "./locale")
          (lit "book") [] true
        = Some r2
      ∧ r1.2 ≠ r2.2
      ∧ shadowsNothing lingui_module r1 ∧ shadowsNothing lingui_module r2.
Proof.
  destruct Translate_book_unrelated as (H1 & H2 & H3).
  split; [exact lingui_module_consistent|].
  do 3 (split; [done|]).
  exact (distinct_requests_get_distinct_names lingui_code lingui_module
           (lit "@hi18n/react") (lit "Translate")
           [lit "@lingui/react"; lit "@lingui/macro"] false
           (lit "./locale") (lit "book") [] true
           lingui_module_consistent H1 H2 H3).
Defined.

(** C4 as stated fails: on [const a = 1;] the requests for the distinct
    exports [a] and [a0] are both given the local name [a0]. *)
Lemma distinct_requests_counterexample :
  lit "a" ≠ lit "a0"
  ∧ getOrInsertImport const_a_code const_a_module (lit "m") (lit "a") [] false
    = Some ([{| fix_range := (0, 0);
                fix_text := lit "import { a as a0 } from " ++ quoted "m"
                            ++ lit ";" ++ [LF] |}],
            lit "a0")
  ∧ getOrInsertImport const_a_code const_a_module (lit "m") (lit "a0") [] false
    = Some ([{| fix_range := (0, 0);
                fix_text := lit "import { a0 } from " ++ quoted "m"
                            ++ lit ";" ++ [LF] |}],
            lit "a0").
Proof. split; [done|]. split; reflexivity. Qed.

(** The two imports of the fix generator never collide in a module with
    a consistent scope. *)
Lemma fixImports_names_distinct (ctx : RuleContext) :
  scopeConsistent (scopeManager ctx) ->
  exists translate book,
    fixImports ctx = Some (translate, book)
    ∧ translate.2 ≠ book.2.
Proof.
  intros Hsc. destruct Translate_book_unrelated as (H1 & H2 & H3).
  unfold fixImports.
  destruct (getOrInsertImport_cases (sourceCode ctx) (scopeManager ctx)
              (lit "@hi18n/react") (lit "Translate")
              [lit "@lingui/react"; lit "@lingui/macro"] false)
    as [(s1 & Hs1 & ->)|(f1 & n1 & _ & -> & Hf1)];
  destruct (getOrInsertImport_cases (sourceCode ctx) (scopeManager ctx)
              (bookPath ctx) (lit "book") [] true)
    as [(s2 & Hs2 & ->)|(f2 & n2 & _ & -> & Hf2)];
  eexists _, _; (split; [done|]); simpl.
  - by eapply reused_names_distinct.
  - by eapply reused_and_fresh_distinct.
  - apply not_eq_sym. by eapply reused_and_fresh_distinct.
  - by eapply fresh_names_distinct.
Qed.

(** ** The listener *)

Section ListenerProperties.

Variable getStaticKey : Property -> option JsString.

Lemma migratableAttribute_spec attr :
  migratableAttribute attr = true <-> ¬ unsupportedAttribute attr.
Proof.
  unfold unsupportedAttribute. destruct attr as [[name|]|]; simpl.
  - rewrite bool_decide_eq_true. split.
    + intros Hin [|Hno]; [done|]. apply Hno. by exists name.
    + intros Hno. destruct (decide (name ∈ MIGRATABLE_PROP_NAMES)); [done|].
      destruct Hno. right. intros (name' & [= ->] & ?). done.
  - split; [done|]. intros Hno. destruct Hno. right.
    intros (name' & ? & _). done.
  - split; [done|]. intros Hno. destruct Hno. by left.
Qed.

Lemma snoc_keys (params : list (JsString * JsString)) k v :
  (params ++ [(k, v)]).*1 = params.*1 ++ [k].
Proof. by rewrite fmap_app. Qed.

Lemma NoDup_snoc_key (keys : list JsString) k :
  k ∉ keys -> NoDup keys -> NoDup (keys ++ [k]).
Proof.
  intros Hk Hnd. apply NoDup_app. split; [done|]. split.
  - intros x Hx ->%list_elem_of_singleton. done.
  - apply NoDup_singleton.
Qed.

Lemma objectLoop_Ok sc properties : forall params params',
  objectLoop getStaticKey sc properties params = Ok params' ->
  Some <$> params'.*1
  = (Some <$> params.*1)
    ++ paramKeys getStaticKey (Captured_node (ObjectExpression properties) (0, 0))
  ∧ (NoDup params.*1 -> NoDup params'.*1).
Proof.
  induction properties as [|[prop|] properties IH]; intros params params' Hok;
    simpl in *.
  - injection Hok as <-. by rewrite app_nil_r.
  - destruct (getStaticKey prop) as [k|]; [|done].
    unfold paramsHas in Hok. case_bool_decide as Hk; [done|].
    apply IH in Hok as [Hkeys Hnd]. rewrite snoc_keys in Hkeys, Hnd.
    split.
    + rewrite Hkeys, fmap_app, <- app_assoc. done.
    + intros Hp. by apply Hnd, NoDup_snoc_key.
  - done.
Qed.

Lemma imap_elementKey_shift i (elements : list ArrayElement) :
  imap ((fun j => elementKey (i + j)) ∘ S) elements
  = imap (fun j => elementKey (S i + j)) elements.
Proof.
  apply imap_ext. intros j e _. simpl. by rewrite Nat.add_succ_r.
Qed.

Lemma arrayLoop_Ok sc elements : forall i params params',
  arrayLoop sc elements i params = Some (Ok params') ->
  Some <$> params'.*1
  = (Some <$> params.*1) ++ imap (fun j => elementKey (i + j)) elements
  ∧ (NoDup params.*1 -> NoDup params'.*1)
  ∧ (HoleElement ∉ elements).
Proof.
  induction elements as [|[r| |] elements IH]; intros i params params' Hok;
    simpl in *.
  - injection Hok as <-. rewrite app_nil_r. split; [done|]. split; [done|].
    apply not_elem_of_nil.
  - unfold paramsHas in Hok. case_bool_decide as Hk; [done|].
    apply IH in Hok as (Hkeys & Hnd & Hhole).
    rewrite snoc_keys in Hkeys, Hnd.
    split; [|split].
    + rewrite Hkeys, fmap_app, <- app_assoc, Nat.add_0_r, imap_elementKey_shift.
      done.
    + intros Hp. by apply Hnd, NoDup_snoc_key.
    + intros [Heq|Hin]%elem_of_cons; [discriminate Heq|done].
  - done.
  - done.
Qed.

(** The array loop throws only at a hole. *)
Lemma arrayLoop_throws sc elements : forall i params,
  arrayLoop sc elements i params = None -> HoleElement ∈ elements.
Proof.
  induction elements as [|[r| |] elements IH]; intros i params Hthrow;
    simpl in *.
  - done.
  - destruct (paramsHas _ _); [done|].
    apply list_elem_of_further. by eapply IH.
  - done.
  - apply list_elem_of_here.
Qed.

Lemma valuesStep_Ok sc c params params' :
  valuesStep getStaticKey sc c params = Some (Ok params') ->
  isParamsShape c
  ∧ Some <$> params'.*1 = (Some <$> params.*1) ++ paramKeys getStaticKey c
  ∧ (NoDup params.*1 -> NoDup params'.*1)
  ∧ ¬ hasHole c.
Proof.
  destruct c as [| |[] r]; simpl; try done.
  - intros [= <-]. rewrite app_nil_r. do 3 (split; [done|]).
    by intros (? & ? & ? & _).
  - intros [= Hok]. split; [done|]. apply objectLoop_Ok in Hok as [? ?].
    do 2 (split; [done|]). by intros (? & ? & ? & _).
  - intros Hok. split; [done|]. apply arrayLoop_Ok in Hok as (? & ? & Hhole).
    do 2 (split; [done|]). by intros (? & ? & [= <- _] & ?).
Qed.

Lemma valuesStep_throws sc c params :
  valuesStep getStaticKey sc c params = None -> hasHole c.
Proof.
  destruct c as [| |[] r]; simpl; try done.
  intros Hthrow. eexists _, _. split; [done|]. by eapply arrayLoop_throws.
Qed.

(** The listener only reports, or offers a fix for a capture set none
    of whose parts is unsupported and that has no array hole, or throws
    at an array hole. *)
Lemma translationJSX_cases ctx (captured : gmap string Captured)
    props id render component values components :
  captured !! "props"%string = Some props ->
  captured !! "id"%string = Some id ->
  captured !! "render"%string = Some render ->
  captured !! "component"%string = Some component ->
  captured !! "values"%string = Some values ->
  captured !! "components"%string = Some components ->
  translationJSX getStaticKey ctx captured = Some justReport
  ∨ (exists env,
       translationJSX getStaticKey ctx captured
       = Some {| messageId := migrate_trans_jsx; fix_ := Some env |}
       ∧ ¬ unsupportedCaptures getStaticKey
             props id render component values components
       ∧ ¬ hasHole values ∧ ¬ hasHole components)
  ∨ (translationJSX getStaticKey ctx captured = None
     ∧ (hasHole values ∨ hasHole components)).
Proof.
  intros Hprops Hid Hrender Hcomponent Hvalues Hcomponents.
  unfold translationJSX. rewrite Hprops. simpl.
  destruct props as [attributes| |]; [|by left..].
  destruct (forallb migratableAttribute attributes) eqn:Hattrs; [|by left].
  simpl. rewrite Hid. simpl.
  destruct id as [| |[| |[s|]| | | |] rid]; try by left.
  rewrite Hrender. simpl.
  destruct render as [| |[] rr]; try by left.
  all: rewrite Hcomponent; simpl.
  all: destruct component as [| |ce rc]; try by left.
  all: try (destruct ce; try by left).
  all: try (match goal with
            | |- context [eligibleForJSXTagNameExpression ?e true] =>
                destruct (eligibleForJSXTagNameExpression e true) eqn:Helig;
                [|by left]
            end).
  all: rewrite Hvalues; simpl.
  all: destruct (valuesStep getStaticKey (sourceCode ctx) values [])
         as [[params1|]|] eqn:Hv; simpl;
         [|by left
          |right; right; split; [done|]; left; by eapply valuesStep_throws].
  all: rewrite Hcomponents; simpl.
  all: destruct (valuesStep getStaticKey (sourceCode ctx) components params1)
         as [[params2|]|] eqn:Hc; simpl;
         [|by left
          |right; right; split; [done|]; right; by eapply valuesStep_throws].
  all: right; left; eexists; (split; [done|]).
  all: apply valuesStep_Ok in Hv as (Hshape1 & Hkeys1 & Hnd1 & Hhole1).
  all: apply valuesStep_Ok in Hc as (Hshape2 & Hkeys2 & Hnd2 & Hhole2).
  all: split; [|done].
  all: simpl in Hkeys1; rewrite Hkeys1 in Hkeys2.
  all: intros [Hbad|[Hbad|[Hbad|[Hbad|[Hbad|[Hbad|[Hbad|[Hbad|Hbad]]]]]]]].
  all: try (by eapply Hbad).
  all: try (destruct Hbad as (attrs & attr & [= <-] & Hin & Hun);
            rewrite forallb_forall in Hattrs;
            apply list_elem_of_In, Hattrs, migratableAttribute_spec in Hin;
            done).
  all: try (apply Hbad; by eexists _, _).
  all: try (apply Hbad; by left).
  all: try (apply Hbad; right; by eexists).
  all: try (apply Hbad; right; eexists _, _; split; [done|]; split; [|done];
            (by left; eexists) || (by right; eexists _, _, _)).
  all: try done.
  all: try (rewrite <- Hkeys2 in Hbad;
            apply list_elem_of_fmap in Hbad as (? & ? & ?); done).
  all: try (apply Hbad; rewrite <- Hkeys2;
            apply (NoDup_fmap_2 _), Hnd2, Hnd1; constructor).
Qed.

(** Array holes apart, the listener treats every unsupported capture
    set as the rule intends: when the props capture is not a [PropsOf]
    node, some attribute is a spread or has a name outside the
    allow-list, the id is not a string literal, the render or component
    capture has an unsupported shape, or [values] / [components] are of
    another shape or contain a spread, a non-static key or a duplicate
    key, it reports [migrate-trans-jsx] without a fix. *)
Lemma unsupported_captures_without_hole_are_reported
    ctx (captured : gmap string Captured)
    props id render component values components :
  captured !! "props"%string = Some props ->
  captured !! "id"%string = Some id ->
  captured !! "render"%string = Some render ->
  captured !! "component"%string = Some component ->
  captured !! "values"%string = Some values ->
  captured !! "components"%string = Some components ->
  ¬ hasHole values -> ¬ hasHole components ->
  unsupportedCaptures getStaticKey props id render component values components ->
  translationJSX getStaticKey ctx captured
  = Some {| messageId := migrate_trans_jsx; fix_ := None |}.
Proof.
  intros Hprops Hid Hrender Hcomponent Hvalues Hcomponents Hh1 Hh2 Hun.
  destruct (translationJSX_cases ctx captured _ _ _ _ _ _
              Hprops Hid Hrender Hcomponent Hvalues Hcomponents)
    as [Hreport|[(env & _ & Hsupported & _)|[_ [Hhole|Hhole]]]];
    [exact Hreport|done..].
Qed.

(** Whatever the capture set, an unsupported one is never given a
    fix: the listener reports without one, or throws. *)
Lemma unsupported_captures_get_no_fix
    ctx (captured : gmap string Captured)
    props id render component values components env :
  captured !! "props"%string = Some props ->
  captured !! "id"%string = Some id ->
  captured !! "render"%string = Some render ->
  captured !! "component"%string = Some component ->
  captured !! "values"%string = Some values ->
  captured !! "components"%string = Some components ->
  unsupportedCaptures getStaticKey props id render component values components ->
  translationJSX getStaticKey ctx captured
  ≠ Some {| messageId := migrate_trans_jsx; fix_ := Some env |}.
Proof.
  intros Hprops Hid Hrender Hcomponent Hvalues Hcomponents Hun.
  destruct (translationJSX_cases ctx captured _ _ _ _ _ _
              Hprops Hid Hrender Hcomponent Hvalues Hcomponents)
    as [Hreport|[(env' & _ & Hsupported & _)|[Hthrow _]]].
  - by rewrite Hreport.
  - done.
  - by rewrite Hthrow.
Qed.

End ListenerProperties.

Example unsupported_attribute_is_reported :
  let ctx := {| sourceCode := lingui_code; scopeManager := lingui_module;
                bookPath := lit "./locale" |} in
  let getStaticKey := fun _ : Property => @None JsString in
  let props := PropsOf [JSXAttribute (JSXIdentifier (lit "id"));
                        JSXAttribute (JSXIdentifier (lit "foo"))] in
  let id := Captured_node (Literal (StringValue (lit "hello"))) (10, 17) in
  foo_captures !! "props"%string = Some props
  ∧ foo_captures !! "id"%string = Some id
  ∧ foo_captures !! "render"%string = Some CaptureFailure
  ∧ foo_captures !! "component"%string = Some CaptureFailure
  ∧ foo_captures !! "values"%string = Some CaptureFailure
  ∧ foo_captures !! "components"%string = Some CaptureFailure
  ∧ unsupportedCaptures getStaticKey props id
      CaptureFailure CaptureFailure CaptureFailure CaptureFailure
  ∧ translationJSX getStaticKey ctx foo_captures
    = Some {| messageId := migrate_trans_jsx; fix_ := None |}.
Proof.
  intros ctx getStaticKey props id.
  assert (Hun : unsupportedCaptures getStaticKey props id
                  CaptureFailure CaptureFailure CaptureFailure CaptureFailure).
  { right. left. exists [JSXAttribute (JSXIdentifier (lit "id"));
                         JSXAttribute (JSXIdentifier (lit "foo"))],
                        (JSXAttribute (JSXIdentifier (lit "foo"))).
    split; [done|]. split; [apply list_elem_of_further, list_elem_of_here|].
    right. intros (name & [= <-] & Hin).
    repeat (apply elem_of_cons in Hin as [Hin|Hin]; [discriminate Hin|]).
    by apply elem_of_nil in Hin. }
  do 6 (split; [reflexivity|]). split; [exact Hun|].
  apply (unsupported_captures_without_hole_are_reported getStaticKey ctx
           foo_captures props id CaptureFailure CaptureFailure CaptureFailure
           CaptureFailure); try reflexivity; try exact Hun;
    by intros (? & ? & ? & _).
Qed.

(** C5. On [<Trans id="hello" components={[ , ...xs]} />] the
    [components] capture contains a spread, so the capture set is
    unsupported and the listener is to report [migrate-trans-jsx]
    without a fix. It does not report: the array loop reaches the hole
    first, line 133 reads [elem.type] of [null], and the listener
    throws. *)
Theorem array_hole_makes_the_listener_throw :
  let getStaticKey := fun _ : Property => @None JsString in
  hole_captures !! "props"%string = Some components_props
  ∧ hole_captures !! "id"%string = Some components_id
  ∧ hole_captures !! "render"%string = Some CaptureFailure
  ∧ hole_captures !! "component"%string = Some CaptureFailure
  ∧ hole_captures !! "values"%string = Some CaptureFailure
  ∧ hole_captures !! "components"%string = Some hole_components
  ∧ hole_components
    = Captured_node (ArrayExpression [HoleElement; SpreadElement]) (69, 79)
  ∧ unsupportedCaptures getStaticKey components_props components_id
      CaptureFailure CaptureFailure CaptureFailure hole_components
  ∧ arrayLoop hole_code [HoleElement; SpreadElement] 0 [] = None
  ∧ translationJSX getStaticKey hole_context hole_captures = None
  ∧ translationJSX getStaticKey hole_context hole_captures
    ≠ Some {| messageId := migrate_trans_jsx; fix_ := None |}.
Proof.
  intros getStaticKey. do 7 (split; [reflexivity|]).
  split; [|split; [reflexivity|split; [reflexivity|discriminate]]].
  do 7 right. left. simpl. apply list_elem_of_further, list_elem_of_here.
Qed.

(** ** [jsxAttributeString] *)

Lemma testClass_spec class s : testClass class s = true <-> containsAny class s.
Proof.
  unfold testClass, containsAny. rewrite existsb_exists. split.
  - intros (c & Hin & Hc). exists c.
    by rewrite list_elem_of_In, <- (bool_decide_eq_true (c ∈ class)).
  - intros (c & Hin & Hc). exists c.
    by rewrite <- list_elem_of_In, bool_decide_eq_true.
Qed.

Lemma not_containsAny class s q :
  q ∈ class -> ¬ containsAny class s -> q ∉ s.
Proof. intros Hq Hno Hin. apply Hno. by exists q. Qed.

Lemma hexDigit_plain n :
  (n < 16)%N -> hexDigit n ≠ backslash ∧ hexDigit n ≠ dquote.
Proof.
  intros Hn. unfold hexDigit, backslash, dquote.
  destruct (N.ltb_spec n 10); lia.
Qed.

Lemma hasUnescaped_plain c t :
  c ≠ backslash -> c ≠ dquote ->
  hasUnescaped dquote (c :: t) = hasUnescaped dquote t.
Proof.
  intros Hb Hq. simpl.
  by rewrite (proj2 (N.eqb_neq c backslash)), (proj2 (N.eqb_neq c dquote)).
Qed.

Lemma hasUnescaped_unicodeEscape c t :
  hasUnescaped dquote (unicodeEscape c ++ t) = hasUnescaped dquote t.
Proof.
  unfold unicodeEscape. cbn [app].
  change (hasUnescaped dquote (backslash :: 117%N :: ?l))
    with (hasUnescaped dquote l).
  rewrite !hasUnescaped_plain; try done;
    apply hexDigit_plain, N.mod_lt; done.
Qed.

Lemma hasUnescaped_quoteUnit c t :
  hasUnescaped dquote (quoteUnit c ++ t) = hasUnescaped dquote t.
Proof.
  unfold quoteUnit.
  repeat (case_match; [done|]).
  case_match; [apply hasUnescaped_unicodeEscape|].
  case_match; [apply hasUnescaped_unicodeEscape|].
  apply hasUnescaped_plain; by apply N.eqb_neq.
Qed.

Lemma surrogate_plain c :
  isLeadSurrogate c || isTrailSurrogate c = true ->
  c ≠ backslash ∧ c ≠ dquote.
Proof.
  unfold isLeadSurrogate, isTrailSurrogate, backslash, dquote.
  intros H. apply orb_true_iff in H as [H|H];
    apply andb_true_iff in H as [H1 H2];
    apply N.leb_le in H1, H2; lia.
Qed.

(** No double quote of the body [JSON.stringify] emits is left
    unescaped. *)
Lemma quoteBody_escapes_quotes s : hasUnescaped dquote (quoteBody s) = false.
Proof.
  induction (Nat.lt_wf_0_projected length s) as [s _ IH].
  destruct s as [|c rest]; [done|].
  assert (Hstep : quoteBody (c :: rest)
                  = if isLeadSurrogate c then
                      match rest with
                      | d :: rest' =>
                          if isTrailSurrogate d then c :: d :: quoteBody rest'
                          else unicodeEscape c ++ quoteBody rest
                      | [] => unicodeEscape c
                      end
                    else quoteUnit c ++ quoteBody rest) by done.
  rewrite Hstep. clear Hstep.
  destruct (isLeadSurrogate c) eqn:Hlead.
  - destruct rest as [|d rest'].
    + rewrite <- (app_nil_r (unicodeEscape c)).
      by rewrite hasUnescaped_unicodeEscape.
    + destruct (isTrailSurrogate d) eqn:Htrail.
      * destruct (surrogate_plain c) as [? ?]; [by rewrite Hlead|].
        destruct (surrogate_plain d) as [? ?];
          [by rewrite Htrail, orb_true_r|].
        rewrite !hasUnescaped_plain by done. apply IH. simpl. lia.
      * rewrite hasUnescaped_unicodeEscape. apply IH. simpl. lia.
  - rewrite hasUnescaped_quoteUnit. apply IH. simpl. lia.
Qed.

Lemma hexValue_hexDigit n : (n < 16)%N -> hexValue (hexDigit n) = Some n.
Proof.
  intros Hn. unfold hexValue, hexDigit.
  destruct (N.ltb_spec n 10).
  - rewrite (proj2 (N.leb_le 48 (48 + n))) by lia.
    rewrite (proj2 (N.leb_le (48 + n) 57)) by lia. simpl. f_equal. lia.
  - rewrite (proj2 (N.leb_le 48 (87 + n))) by lia.
    rewrite (proj2 (N.leb_gt (87 + n) 57)) by lia.
    rewrite (proj2 (N.leb_le 97 (87 + n))) by lia.
    rewrite (proj2 (N.leb_le (87 + n) 102)) by lia. simpl. f_equal. lia.
Qed.

Lemma hex4_digits c :
  (c < 65536)%N ->
  hex4 (hexDigit (c / 4096 mod 16)) (hexDigit (c / 256 mod 16))
       (hexDigit (c / 16 mod 16)) (hexDigit (c mod 16)) = Some c.
Proof.
  intros Hc. unfold hex4.
  rewrite !hexValue_hexDigit by (by apply N.mod_lt). simpl. f_equal.
  zify. Z.to_euclidean_division_equations. lia.
Qed.

(** An escape [\uXXXX] reads back as the code unit it was made from. *)
Lemma unquoteBody_unicodeEscape c t :
  (c < 65536)%N ->
  unquoteBody (unicodeEscape c ++ t) = t' ← unquoteBody t; Some (c :: t').
Proof.
  intros Hc. unfold unicodeEscape. cbn [app].
  change (unquoteBody (backslash :: 117%N :: ?h1 :: ?h2 :: ?h3 :: ?h4 :: t))
    with (u ← hex4 h1 h2 h3 h4; t' ← unquoteBody t; Some (u :: t')).
  by rewrite hex4_digits.
Qed.

Lemma unquoteBody_plain c t :
  c ≠ backslash -> c ≠ dquote -> (32 <= c)%N ->
  unquoteBody (c :: t) = t' ← unquoteBody t; Some (c :: t').
Proof.
  intros Hb Hq Hc. simpl.
  rewrite (proj2 (N.eqb_neq c backslash)), (proj2 (N.eqb_neq c dquote)) by done.
  by rewrite (proj2 (N.ltb_ge c 32)).
Qed.

Lemma surrogate_bounds c :
  isLeadSurrogate c || isTrailSurrogate c = true ->
  (32 <= c)%N ∧ (c < 65536)%N.
Proof.
  unfold isLeadSurrogate, isTrailSurrogate.
  intros H. apply orb_true_iff in H as [H|H];
    apply andb_true_iff in H as [H1 H2];
    apply N.leb_le in H1, H2; lia.
Qed.

Lemma unquoteBody_quoteUnit c t :
  unquoteBody (quoteUnit c ++ t) = t' ← unquoteBody t; Some (c :: t').
Proof.
  unfold quoteUnit.
  repeat (case_match;
          [match goal with H : (_ =? _)%N = true |- _ =>
             apply N.eqb_eq in H; subst c; reflexivity end|]).
  repeat match goal with H : (_ =? _)%N = false |- _ =>
    apply N.eqb_neq in H end.
  case_match.
  { apply unquoteBody_unicodeEscape.
    match goal with H : (_ <? _)%N = true |- _ => apply N.ltb_lt in H end.
    lia. }
  match goal with H : (_ <? _)%N = false |- _ => apply N.ltb_ge in H end.
  case_match.
  { apply unquoteBody_unicodeEscape. by apply surrogate_bounds. }
  simpl. by apply unquoteBody_plain.
Qed.

(** Round trip of the literal body: what [JSON.stringify] emits between
    the quotes denotes the string it was given. *)
Lemma unquoteBody_quoteBody s : unquoteBody (quoteBody s) = Some s.
Proof.
  induction (Nat.lt_wf_0_projected length s) as [s _ IH].
  destruct s as [|c rest]; [done|].
  assert (Hstep : quoteBody (c :: rest)
                  = if isLeadSurrogate c then
                      match rest with
                      | d :: rest' =>
                          if isTrailSurrogate d then c :: d :: quoteBody rest'
                          else unicodeEscape c ++ quoteBody rest
                      | [] => unicodeEscape c
                      end
                    else quoteUnit c ++ quoteBody rest) by done.
  rewrite Hstep. clear Hstep.
  destruct (isLeadSurrogate c) eqn:Hlead.
  - destruct (surrogate_plain c) as [? ?]; [by rewrite Hlead|].
    destruct (surrogate_bounds c) as [? ?]; [by rewrite Hlead|].
    destruct rest as [|d rest'].
    + rewrite <- (app_nil_r (unicodeEscape c)).
      by rewrite unquoteBody_unicodeEscape.
    + destruct (isTrailSurrogate d) eqn:Htrail.
      * destruct (surrogate_plain d) as [? ?];
          [by rewrite Htrail, orb_true_r|].
        destruct (surrogate_bounds d) as [? ?];
          [by rewrite Htrail, orb_true_r|].
        rewrite !unquoteBody_plain by done.
        rewrite IH by (simpl; lia). done.
      * rewrite unquoteBody_unicodeEscape by done.
        rewrite IH by (simpl; lia). done.
  - rewrite unquoteBody_quoteUnit. rewrite IH by (simpl; lia). done.
Qed.

(** [JSON.parse(JSON.stringify(s)) === s] *)
Lemma JSON_parse_stringify s : JSON_parse_string (JSON_stringify s) = Some s.
Proof.
  unfold JSON_stringify, JSON_parse_string. cbn [app].
  rewrite N.eqb_refl, reverse_snoc, N.eqb_refl, reverse_involutive.
  apply unquoteBody_quoteBody.
Qed.

(** [JSON.stringify] changes nothing in a string without control
    characters, double quotes, backslashes and surrogates. *)
Lemma quoteBody_plain s :
  forallb isPlainUnit s = true -> quoteBody s = s.
Proof.
  induction s as [|c rest IH]; [done|].
  intros [Hc Hrest]%andb_true_iff.
  unfold isPlainUnit in Hc.
  apply andb_true_iff in Hc as [Hc Hsur].
  apply andb_true_iff in Hc as [Hc Hb].
  apply andb_true_iff in Hc as [Hc Hq].
  apply negb_true_iff in Hc, Hq, Hb, Hsur.
  apply orb_false_iff in Hsur as [Hlead Htrail].
  assert (Hstep : quoteBody (c :: rest)
                  = if isLeadSurrogate c then
                      match rest with
                      | d :: rest' =>
                          if isTrailSurrogate d then c :: d :: quoteBody rest'
                          else unicodeEscape c ++ quoteBody rest
                      | [] => unicodeEscape c
                      end
                    else quoteUnit c ++ quoteBody rest) by done.
  rewrite Hstep, Hlead, IH by done. unfold quoteUnit.
  rewrite Hq, Hb, Hc, Hlead, Htrail.
  apply N.ltb_ge in Hc.
  by rewrite !(proj2 (N.eqb_neq c _)) by (unfold dquote, backslash; lia).
Qed.

(** What [JSON.stringify] returns for each kind of code unit: the
    two-character escapes, [\u] escapes in lower-case hexadecimal for
    the other control characters and for lone surrogates, a surrogate
    pair and everything else as they are. *)
Example JSON_stringify_examples :
  JSON_stringify [8; 9; 10; 12; 13]%N
  = [dquote] ++ [backslash] ++ lit "b" ++ [backslash] ++ lit "t"
    ++ [backslash] ++ lit "n" ++ [backslash] ++ lit "f"
    ++ [backslash] ++ lit "r" ++ [dquote]
  ∧ JSON_stringify [dquote; backslash; 47%N]
    = [dquote; backslash; dquote; backslash; backslash; 47%N; dquote]
  ∧ JSON_stringify [0; 1; 11; 31; 127]%N
    = [dquote] ++ [backslash] ++ lit "u0000" ++ [backslash] ++ lit "u0001"
      ++ [backslash] ++ lit "u000b" ++ [backslash] ++ lit "u001f"
      ++ [127%N] ++ [dquote]
  ∧ JSON_stringify [55357; 56832]%N = [dquote; 55357; 56832; dquote]%N
  ∧ JSON_stringify [55357; 97; 56832; 57343; 55296]%N
    = [dquote] ++ [backslash] ++ lit "ud83d" ++ lit "a"
      ++ [backslash] ++ lit "ude00" ++ [backslash] ++ lit "udfff"
      ++ [backslash] ++ lit "ud800" ++ [dquote]
  ∧ JSON_stringify ([LS; PS; 233; 65535]%N ++ lit "it's")
    = [dquote] ++ [LS; PS; 233; 65535]%N ++ lit "it's" ++ [dquote].
Proof. repeat split. Qed.

(** C10. [jsxAttributeString s] is [s] in double quotes when [s] has no
    carriage return, line feed, U+2028, U+2029 or double quote;
    otherwise [s] in single quotes when it has none of those line
    terminators and no single quote; otherwise [JSON.stringify s] in
    braces. The delimiter chosen does not occur in a quoted [s]; the
    JSON string literal is one that reads back as [s], and no double
    quote inside it is unescaped. *)
Theorem jsxAttributeString_spec (s : JsString) :
  (¬ containsAny [CR; LF; LS; PS; dquote] s ->
   jsxAttributeString s = [dquote] ++ s ++ [dquote] ∧ dquote ∉ s)
  ∧ (containsAny [CR; LF; LS; PS; dquote] s ->
     ¬ containsAny [CR; LF; LS; PS; squote] s ->
     jsxAttributeString s = [squote] ++ s ++ [squote] ∧ squote ∉ s)
  ∧ (containsAny [CR; LF; LS; PS; dquote] s ->
     containsAny [CR; LF; LS; PS; squote] s ->
     jsxAttributeString s = lit "{" ++ JSON_stringify s ++ lit "}"
     ∧ JSON_stringify s = [dquote] ++ quoteBody s ++ [dquote]
     ∧ JSON_parse_string (JSON_stringify s) = Some s
     ∧ unquoteBody (quoteBody s) = Some s
     ∧ hasUnescaped dquote (quoteBody s) = false).
Proof.
  unfold jsxAttributeString.
  rewrite <- !testClass_spec.
  destruct (testClass [CR; LF; LS; PS; dquote] s) eqn:Hd;
    destruct (testClass [CR; LF; LS; PS; squote] s) eqn:Hs; simpl.
  all: split; [intros Hno|split; [intros Hyes Hno|intros Hyes Hyes']];
    try done.
  - split; [done|]. split; [done|].
    split; [apply JSON_parse_stringify|].
    split; [apply unquoteBody_quoteBody|apply quoteBody_escapes_quotes].
  - split; [done|].
    apply (not_containsAny [CR; LF; LS; PS; squote]).
    + do 4 apply list_elem_of_further. apply list_elem_of_here.
    + rewrite <- testClass_spec. by rewrite Hs.
  - split; [done|].
    apply (not_containsAny [CR; LF; LS; PS; dquote]).
    + do 4 apply list_elem_of_further. apply list_elem_of_here.
    + rewrite <- testClass_spec. by rewrite Hd.
  - split; [done|].
    apply (not_containsAny [CR; LF; LS; PS; dquote]).
    + do 4 apply list_elem_of_further. apply list_elem_of_here.
    + rewrite <- testClass_spec. by rewrite Hd.
Qed.

(** One string for each branch: [hello], [say "hi"] and a
    two-line text with both kinds of quote. *)
Example jsxAttributeString_examples :
  jsxAttributeString (lit "hello") = [dquote] ++ lit "hello" ++ [dquote]
  ∧ jsxAttributeString (lit "say " ++ quoted "hi")
    = [squote] ++ lit "say " ++ quoted "hi" ++ [squote]
  ∧ jsxAttributeString (lit "it's" ++ [LF] ++ quoted "x")
    = lit "{" ++ [dquote] ++ lit "it's" ++ [backslash] ++ lit "n"
      ++ [backslash; dquote] ++ lit "x" ++ [backslash; dquote]
      ++ [dquote] ++ lit "}".
Proof. repeat split. Qed.

(** The third branch on a text with a line feed, both kinds of quote,
    the control character U+0001 and a lone surrogate. *)
Example jsxAttributeString_escapes :
  jsxAttributeString ([LF; squote; dquote; 1; 56832]%N)
  = lit "{" ++ [dquote] ++ [backslash] ++ lit "n'" ++ [backslash; dquote]
    ++ [backslash] ++ lit "u0001" ++ [backslash] ++ lit "ude00"
    ++ [dquote] ++ lit "}"
  ∧ JSON_parse_string
      ([dquote] ++ [backslash] ++ lit "n'" ++ [backslash; dquote]
       ++ [backslash] ++ lit "u0001" ++ [backslash] ++ lit "ude00"
       ++ [dquote])
    = Some [LF; squote; dquote; 1; 56832]%N.
Proof. split; reflexivity. Qed.

(** * Further properties of the synthesizer *)

Lemma more_tokens_are_text :
  Forall (fun sc =>
    Forall (fun t => getText sc (tok_range t) = tok_value t) (tokens sc))
    moreCode.
Proof. repeat constructor. Qed.

(** X1. Every call returns, and in one of two ways only: with no edit
    and the local name of a value specifier that already binds the
    export in a value import from the target module; or with exactly
    one edit and a fresh name, when no such specifier exists. *)
Theorem call_reuses_or_adds_one_edit sc sm source importName hints after :
  exists fixes name,
    getOrInsertImport sc sm source importName hints after = Some (fixes, name)
    ∧ ((fixes = []
        ∧ exists stmt spec,
            Import stmt ∈ body (globalScope_block sm)
            ∧ valueImportFrom source stmt
            ∧ spec ∈ specifiers stmt
            ∧ alreadyBinds importName spec
            ∧ spec_local spec = name)
       ∨ ((exists f, fixes = [f])
          ∧ freshNameFor (programScope_variables sm) importName name
          ∧ forall stmt spec,
              Import stmt ∈ body (globalScope_block sm) ->
              valueImportFrom source stmt ->
              spec ∈ specifiers stmt ->
              ¬ alreadyBinds importName spec)).
Proof.
  destruct (getOrInsertImport_cases sc sm source importName hints after)
    as [(spec & Hin & ->)|(f & n & Hb & -> & Hfresh)].
  - exists [], (spec_local spec). split; [done|]. left. split; [done|].
    apply elem_of_bindingSpecifiers in Hin as (stmt & ? & ? & ? & ?).
    by exists stmt, spec.
  - exists [f], n. split; [done|]. right. split; [by exists f|].
    split; [done|]. intros stmt spec H1 H2 H3 H4.
    assert (Hin : spec ∈ bindingSpecifiers source importName
                           (body (globalScope_block sm))).
    { apply elem_of_bindingSpecifiers. by exists stmt. }
    rewrite Hb in Hin. by apply elem_of_nil in Hin.
Qed.

Lemma extendImport_is_insertion sc node specText f :
  extendImport sc node specText = Some (Some f) -> isInsertion f.
Proof.
  unfold extendImport, isInsertion. intros H.
  repeat (case_match; simplify_option_eq; try done).
Qed.

Lemma insertNewImport_is_insertion program st source specText after :
  isInsertion (insertNewImport program st source specText after).
Proof. unfold insertNewImport, isInsertion. by repeat case_match. Qed.

(** A call returns at most one fix, and that fix is an insertion. *)
Lemma getOrInsertImport_fixes sc sm source importName hints after fixes name :
  getOrInsertImport sc sm source importName hints after = Some (fixes, name) ->
  length fixes <= 1 ∧ Forall isInsertion fixes.
Proof.
  intros Hres.
  destruct (getOrInsertImport_cases sc sm source importName hints after)
    as [(spec & _ & Hr)|(f' & n & Hb & Hr & _)].
  - rewrite Hr in Hres. injection Hres as <- <-.
    split; [simpl; lia|constructor].
  - destruct (getOrInsertImport_no_reuse sc sm source importName hints after Hb)
      as (n' & f'' & _ & _ & Hr' & Hshape).
    rewrite Hr' in Hres. injection Hres as <- <-.
    split; [simpl; lia|]. constructor; [|constructor].
    cbv zeta in Hshape.
    destruct (importNode _) as [node|].
    + destruct Hshape as [Hext|[_ ->]].
      * by eapply extendImport_is_insertion.
      * apply insertNewImport_is_insertion.
    + subst. apply insertNewImport_is_insertion.
Qed.

(** X2. The synthesizer only inserts: every fix it returns has an empty
    range, so no character of the file is removed or replaced. *)
Theorem synthesizer_only_inserts sc sm source importName hints after fixes name f :
  getOrInsertImport sc sm source importName hints after = Some (fixes, name) ->
  f ∈ fixes ->
  isInsertion f.
Proof.
  intros Hres Hin.
  apply getOrInsertImport_fixes in Hres as [_ Hall].
  rewrite Forall_forall in Hall. by apply Hall.
Qed.

Lemma synthesizer_only_inserts_witness :
  getOrInsertImport lingui_code lingui_module (lit "@lingui/react")
    (lit "Plural") [] false
  = Some ([{| fix_range := (14, 14); fix_text := lit ", Plural" |}],
          lit "Plural")
  ∧ {| fix_range := (14, 14); fix_text := lit ", Plural" |}
    ∈ [{| fix_range := (14, 14); fix_text := lit ", Plural" |}]
  ∧ isInsertion {| fix_range := (14, 14); fix_text := lit ", Plural" |}.
Proof.
  assert (H1 : getOrInsertImport lingui_code lingui_module
                 (lit "@lingui/react") (lit "Plural") [] false
               = Some ([{| fix_range := (14, 14);
                           fix_text := lit ", Plural" |}], lit "Plural"))
    by reflexivity.
  assert (H2 : {| fix_range := (14, 14); fix_text := lit ", Plural" |}
               ∈ [{| fix_range := (14, 14); fix_text := lit ", Plural" |}])
    by apply list_elem_of_here.
  split; [exact H1|]. split; [exact H2|].
  exact (synthesizer_only_inserts _ _ _ _ _ _ _ _ _ H1 H2).
Defined.

(** The call, once the first statement that can be extended and the
    outcome of the attempt to extend it are known. *)
Lemma call_on_extensible_import sc sm source importName hints after node
    (attempt : JsString -> option RuleFix) :
  bindingSpecifiers source importName (body (globalScope_block sm)) = [] ->
  head (filter (eligibleForAppending source)
          (imports (body (globalScope_block sm)))) = Some node ->
  (forall specText, extendImport sc node specText = Some (attempt specText)) ->
  exists newName,
    freshNameFor (programScope_variables sm) importName newName
    ∧ getOrInsertImport sc sm source importName hints after
      = Some ([default
                 (insertNewImport (globalScope_block sm)
                    (scanned source hints (body (globalScope_block sm)))
                    source (specTextOf importName newName) after)
                 (attempt (specTextOf importName newName))],
              newName).
Proof.
  intros Hb Hnode Hext.
  destruct (getOrInsertImport_no_reuse sc sm source importName hints after Hb)
    as (newName & f & _ & Hfresh & Hres & Hshape).
  exists newName. split; [done|]. rewrite Hres. do 3 f_equal.
  cbv zeta in Hshape. simpl in Hshape. rewrite Hnode, Hext in Hshape.
  destruct Hshape as [[= ->]|[[= ->] ->]]; done.
Qed.

(** X3. Without a reuse, when the first import from the target module
    that can be extended has a named specifier, the single edit appends
    [, name] (or [, name as alias]) right after the last specifier of
    that statement. *)
Theorem named_import_is_extended
    sc sm source importName hints after node lastSpecifier :
  bindingSpecifiers source importName (body (globalScope_block sm)) = [] ->
  head (filter (eligibleForAppending source)
          (imports (body (globalScope_block sm)))) = Some node ->
  existsb isImportSpecifier (specifiers node) = true ->
  last (specifiers node) = Some lastSpecifier ->
  exists newName,
    freshNameFor (programScope_variables sm) importName newName
    ∧ getOrInsertImport sc sm source importName hints after
      = Some ([insertTextAfter (spec_range lastSpecifier)
                 (lit ", " ++ specTextOf importName newName)],
              newName).
Proof.
  intros Hb Hnode Hnamed Hlast.
  apply (call_on_extensible_import sc sm source importName hints after node
           (fun specText => Some (insertTextAfter (spec_range lastSpecifier)
                                    (lit ", " ++ specText)))); [done..|].
  intros specText. unfold extendImport. by rewrite Hnamed, Hlast.
Qed.

Lemma named_import_is_extended_witness :
  bindingSpecifiers (lit "@lingui/react") (lit "Plural")
    (body (globalScope_block lingui_module)) = []
  ∧ head (filter (eligibleForAppending (lit "@lingui/react"))
            (imports (body (globalScope_block lingui_module))))
    = Some (lingui_stmt 0)
  ∧ existsb isImportSpecifier (specifiers (lingui_stmt 0)) = true
  ∧ last (specifiers (lingui_stmt 0))
    = Some (ImportSpecifier (lit "Trans") (lit "Trans") kind_value (9, 14))
  ∧ exists newName,
      freshNameFor (programScope_variables lingui_module) (lit "Plural") newName
      ∧ getOrInsertImport lingui_code lingui_module (lit "@lingui/react")
          (lit "Plural") [] true
        = Some ([insertTextAfter (9, 14)
                   (lit ", " ++ specTextOf (lit "Plural") newName)],
                newName).
Proof.
  do 4 (split; [reflexivity|]).
  exact (named_import_is_extended lingui_code lingui_module
           (lit "@lingui/react") (lit "Plural") [] true (lingui_stmt 0)
           (ImportSpecifier (lit "Trans") (lit "Trans") kind_value (9, 14))
           eq_refl eq_refl eq_refl eq_refl).
Defined.

(** The text after the edit of the example. *)
Example named_import_is_extended_text :
  match getOrInsertImport lingui_code lingui_module (lit "@lingui/react")
          (lit "Plural") [] true with
  | Some (fixes, _) => applyFix (text lingui_code) <$> fixes
  | None => []
  end
  = [lit "import { Trans, Plural } from " ++ quoted "@lingui/react" ++ lit ";"].
Proof. reflexivity. Qed.

(** X4. Without a reuse, when the first import from the target module
    that can be extended has no specifier, the token before its source
    is [from] and the token two places before that is an opening brace
    (the shape [import {} from "m";]), the single edit inserts the
    specifier, with a space on each side, right after the brace. *)
Theorem empty_import_block_is_filled
    sc sm source importName hints after node fromToken openBraceToken :
  bindingSpecifiers source importName (body (globalScope_block sm)) = [] ->
  head (filter (eligibleForAppending source)
          (imports (body (globalScope_block sm)))) = Some node ->
  specifiers node = [] ->
  getTokenBefore sc (source_range node) 0 = Some fromToken ->
  isToken Tok_Identifier (lit "from") fromToken = true ->
  getTokenBefore sc (source_range node) 2 = Some openBraceToken ->
  isToken Tok_Punctuator (lit "{") openBraceToken = true ->
  exists newName,
    freshNameFor (programScope_variables sm) importName newName
    ∧ getOrInsertImport sc sm source importName hints after
      = Some ([insertTextAfter (tok_range openBraceToken)
                 (lit " " ++ specTextOf importName newName ++ lit " ")],
              newName).
Proof.
  intros Hb Hnode Hspecs Hfrom Hisfrom Hbrace Hisbrace.
  apply (call_on_extensible_import sc sm source importName hints after node
           (fun specText => Some (insertTextAfter (tok_range openBraceToken)
                                    (lit " " ++ specText ++ lit " "))));
    [done..|].
  intros specText. unfold extendImport.
  rewrite Hspecs. simpl. rewrite Hfrom, Hbrace, Hisfrom, Hisbrace.
  assert (Himport : isToken Tok_Identifier (lit "import") fromToken = false).
  { unfold isToken in *. apply andb_true_iff in Hisfrom as [_ Hv].
    apply bool_decide_eq_true_1 in Hv. rewrite Hv.
    by rewrite andb_false_r. }
  by rewrite Himport.
Qed.

Lemma empty_import_block_is_filled_witness :
  bindingSpecifiers (lit "m") (lit "Bar")
    (body (globalScope_block empty_block_module)) = []
  ∧ head (filter (eligibleForAppending (lit "m"))
            (imports (body (globalScope_block empty_block_module))))
    = Some empty_block_stmt
  ∧ specifiers empty_block_stmt = []
  ∧ getTokenBefore empty_block_code (source_range empty_block_stmt) 0
    = Some (tok Tok_Identifier (lit "from") 10 14)
  ∧ isToken Tok_Identifier (lit "from") (tok Tok_Identifier (lit "from") 10 14)
    = true
  ∧ getTokenBefore empty_block_code (source_range empty_block_stmt) 2
    = Some (tok Tok_Punctuator (lit "{") 7 8)
  ∧ isToken Tok_Punctuator (lit "{") (tok Tok_Punctuator (lit "{") 7 8) = true
  ∧ exists newName,
      freshNameFor (programScope_variables empty_block_module) (lit "Bar")
        newName
      ∧ getOrInsertImport empty_block_code empty_block_module (lit "m")
          (lit "Bar") [] false
        = Some ([insertTextAfter (7, 8)
                   (lit " " ++ specTextOf (lit "Bar") newName ++ lit " ")],
                newName).
Proof.
  do 7 (split; [reflexivity|]).
  exact (empty_import_block_is_filled empty_block_code empty_block_module
           (lit "m") (lit "Bar") [] false empty_block_stmt
           (tok Tok_Identifier (lit "from") 10 14)
           (tok Tok_Punctuator (lit "{") 7 8)
           eq_refl eq_refl eq_refl eq_refl eq_refl eq_refl eq_refl).
Defined.

Example empty_import_block_is_filled_text :
  match getOrInsertImport empty_block_code empty_block_module (lit "m")
          (lit "Bar") [] false with
  | Some (fixes, _) => applyFix (text empty_block_code) <$> fixes
  | None => []
  end
  = [lit "import { Bar } from " ++ quoted "m" ++ lit ";"].
Proof. reflexivity. Qed.

(** X5. A statement without specifiers whose source is not preceded by
    an identifier token is left alone: for the side-effect import
    [import "m";], whose [import] token is a keyword, the call with
    insertion after the last import adds a brand-new statement after the
    last import instead of rewriting [import "m";]. *)
Theorem side_effect_import_is_not_extended
    sc sm source importName hints node token lastStmt :
  bindingSpecifiers source importName (body (globalScope_block sm)) = [] ->
  head (filter (eligibleForAppending source)
          (imports (body (globalScope_block sm)))) = Some node ->
  specifiers node = [] ->
  getTokenBefore sc (source_range node) 0 = Some token ->
  tok_type token ≠ Tok_Identifier ->
  last (imports (body (globalScope_block sm))) = Some lastStmt ->
  exists newName,
    freshNameFor (programScope_variables sm) importName newName
    ∧ getOrInsertImport sc sm source importName hints true
      = Some ([insertTextAfter (range lastStmt)
                 ([LF] ++ spaces (loc_start_column lastStmt)
                  ++ importStatementText (specTextOf importName newName)
                       source)],
              newName).
Proof.
  intros Hb Hnode Hspecs Htoken Htype Hlast.
  destruct (call_on_extensible_import sc sm source importName hints true node
              (fun _ => None) Hb Hnode) as (newName & Hfresh & Hres).
  - intros specText. unfold extendImport. rewrite Hspecs. simpl.
    rewrite Htoken. unfold isToken.
    by rewrite (bool_decide_eq_false_2 (tok_type token = Tok_Identifier)).
  - exists newName. split; [done|]. rewrite Hres. simpl.
    unfold insertNewImport. simpl. by rewrite Hlast.
Qed.

Lemma side_effect_import_is_not_extended_witness :
  bindingSpecifiers (lit "m") (lit "Bar")
    (body (globalScope_block side_effect_module)) = []
  ∧ head (filter (eligibleForAppending (lit "m"))
            (imports (body (globalScope_block side_effect_module))))
    = Some side_effect_stmt
  ∧ specifiers side_effect_stmt = []
  ∧ getTokenBefore side_effect_code (source_range side_effect_stmt) 0
    = Some (tok Tok_Keyword (lit "import") 0 6)
  ∧ tok_type (tok Tok_Keyword (lit "import") 0 6) ≠ Tok_Identifier
  ∧ last (imports (body (globalScope_block side_effect_module)))
    = Some side_effect_stmt
  ∧ exists newName,
      freshNameFor (programScope_variables side_effect_module) (lit "Bar")
        newName
      ∧ getOrInsertImport side_effect_code side_effect_module (lit "m")
          (lit "Bar") [] true
        = Some ([insertTextAfter (range side_effect_stmt)
                   ([LF] ++ spaces (loc_start_column side_effect_stmt)
                    ++ importStatementText (specTextOf (lit "Bar") newName)
                         (lit "m"))],
                newName).
Proof.
  assert (Hty : tok_type (tok Tok_Keyword (lit "import") 0 6) ≠ Tok_Identifier)
    by discriminate.
  do 4 (split; [reflexivity|]). split; [exact Hty|]. split; [reflexivity|].
  exact (side_effect_import_is_not_extended side_effect_code side_effect_module
           (lit "m") (lit "Bar") [] side_effect_stmt
           (tok Tok_Keyword (lit "import") 0 6) side_effect_stmt
           eq_refl eq_refl eq_refl eq_refl Hty eq_refl).
Defined.

Example side_effect_import_is_not_extended_text :
  match getOrInsertImport side_effect_code side_effect_module (lit "m")
          (lit "Bar") [] true with
  | Some (fixes, _) => applyFix (text side_effect_code) <$> fixes
  | None => []
  end
  = [lit "import " ++ quoted "m" ++ lit ";" ++ [LF]
     ++ lit "import { Bar } from " ++ quoted "m" ++ lit ";"].
Proof. reflexivity. Qed.

(** X6. In a program without any import declaration the single edit is
    placed before the program, followed by a line break and the
    program's indentation, whatever the position hints are and whether
    or not insertion after the last import was requested. *)
Theorem first_import_goes_before_program sc sm source importName hints after :
  imports (body (globalScope_block sm)) = [] ->
  exists newName,
    freshNameFor (programScope_variables sm) importName newName
    ∧ getOrInsertImport sc sm source importName hints after
      = Some ([insertTextBefore (program_range (globalScope_block sm))
                 (importStatementText (specTextOf importName newName) source
                  ++ [LF]
                  ++ spaces (program_loc_start_column (globalScope_block sm)))],
              newName).
Proof.
  intros Hnone.
  assert (Hb : bindingSpecifiers source importName
                 (body (globalScope_block sm)) = [])
    by (unfold bindingSpecifiers; by rewrite Hnone).
  destruct (getOrInsertImport_no_reuse sc sm source importName hints after Hb)
    as (newName & f & _ & Hfresh & Hres & Hshape).
  exists newName. split; [done|]. rewrite Hres. do 3 f_equal.
  cbv zeta in Hshape. unfold scanned in Hshape. rewrite Hnone in Hshape.
  simpl in Hshape. subst f. unfold insertNewImport. simpl. by destruct after.
Qed.

Lemma first_import_goes_before_program_witness :
  imports (body (globalScope_block const_a_module)) = []
  ∧ exists newName,
      freshNameFor (programScope_variables const_a_module) (lit "a") newName
      ∧ getOrInsertImport const_a_code const_a_module (lit "m") (lit "a")
          [lit "x"] true
        = Some ([insertTextBefore (program_range (globalScope_block const_a_module))
                   (importStatementText (specTextOf (lit "a") newName) (lit "m")
                    ++ [LF]
                    ++ spaces (program_loc_start_column
                                 (globalScope_block const_a_module)))],
                newName).
Proof.
  split; [reflexivity|].
  exact (first_import_goes_before_program const_a_code const_a_module
           (lit "m") (lit "a") [lit "x"] true eq_refl).
Defined.

(** X7. The inserted specifier is the bare requested name exactly when
    no module-scope variable has that name; otherwise it is
    [name as alias] with an alias different from the name. *)
Theorem specifier_is_aliased_iff_name_is_declared variables importName newName :
  chooseName variables importName = Some newName ->
  (importName ∉ variables ->
   newName = importName ∧ specTextOf importName newName = importName)
  ∧ (importName ∈ variables ->
     newName ≠ importName
     ∧ specTextOf importName newName
       = importName ++ lit " as " ++ newName).
Proof.
  intros Hchoose.
  destruct (chooseName_spec variables importName)
    as (n & Hn & Hfree & Hsame & Hsuffix).
  rewrite Hn in Hchoose. injection Hchoose as ->.
  unfold specTextOf. split.
  - intros Hout. rewrite (Hsame Hout). by rewrite bool_decide_eq_true_2.
  - intros Hin.
    assert (Hne : newName ≠ importName) by (intros ->; done).
    by rewrite bool_decide_eq_false_2.
Qed.

Lemma specifier_is_aliased_iff_name_is_declared_witness :
  chooseName [lit "a"; lit "a0"] (lit "a") = Some (lit "a1")
  ∧ (lit "a" ∉ [lit "a"; lit "a0"] ->
     lit "a1" = lit "a" ∧ specTextOf (lit "a") (lit "a1") = lit "a")
  ∧ (lit "a" ∈ [lit "a"; lit "a0"] ->
     lit "a1" ≠ lit "a"
     ∧ specTextOf (lit "a") (lit "a1") = lit "a" ++ lit " as " ++ lit "a1").
Proof.
  split; [reflexivity|].
  exact (specifier_is_aliased_iff_name_is_declared
           [lit "a"; lit "a0"] (lit "a") (lit "a1") eq_refl).
Defined.

(** * Further properties of the rule *)

(** X8. [eligibleForJSXTagNameExpression] accepts exactly the dotted
    paths [a.b.c] (identifiers joined by non-computed member accesses
    whose properties are identifiers), except that a path that is a
    single identifier starting with a lowercase ASCII letter is refused
    when it stands for the whole tag name. *)
Theorem eligible_tag_names_are_dotted_paths node whole :
  eligibleForJSXTagNameExpression node whole = true
  <-> memberPath node
      ∧ (whole = true ->
         forall name, node = Identifier name -> startsLowercase name = false).
Proof.
  revert whole.
  induction node as [name|computed object IHo property IHp| | | | |];
    intros whole; simpl.
  - split.
    + intros H. split; [constructor|]. intros -> n [= <-].
      simpl in H. by destruct (startsLowercase name).
    + intros [_ H]. destruct whole; [|done]. simpl.
      by rewrite (H eq_refl name eq_refl).
  - rewrite !andb_true_iff, negb_true_iff, IHo. split.
    + intros [[-> [Hpath _]] Hprop].
      destruct property; try done. split; [by constructor|]. done.
    + intros [Hpath _]. inversion Hpath; subst. done.
  - split; [done|]. intros [H _]. inversion H.
  - split; [done|]. intros [H _]. inversion H.
  - split; [done|]. intros [H _]. inversion H.
  - split; [done|]. intros [H _]. inversion H.
  - split; [done|]. intros [H _]. inversion H.
Qed.

(** [Foo.bar] and [foo.Bar] are tag names, [foo] alone and [foo[x]] are
    not. *)
Example eligible_tag_names :
  eligibleForJSXTagNameExpression
    (MemberExpression false (Identifier (lit "foo")) (Identifier (lit "Bar")))
    true = true
  ∧ eligibleForJSXTagNameExpression (Identifier (lit "Foo")) true = true
  ∧ eligibleForJSXTagNameExpression (Identifier (lit "foo")) true = false
  ∧ eligibleForJSXTagNameExpression
      (MemberExpression true (Identifier (lit "Foo")) (Identifier (lit "x")))
      true = false.
Proof. repeat split. Qed.

Section ListenerCompleteness.

Variable getStaticKey : Property -> option JsString.

Lemma snoc_texts (params : list (JsString * JsString)) k v :
  (params ++ [(k, v)]).*2 = params.*2 ++ [v].
Proof. by rewrite fmap_app. Qed.

Lemma objectLoop_texts sc properties : forall params params',
  objectLoop getStaticKey sc properties params = Ok params' ->
  params'.*2
  = params.*2 ++ paramTexts sc (Captured_node (ObjectExpression properties) (0, 0)).
Proof.
  induction properties as [|[prop|] properties IH]; intros params params' Hok;
    simpl in *.
  - injection Hok as <-. by rewrite app_nil_r.
  - destruct (getStaticKey prop) as [k|]; [|done].
    destruct (paramsHas k params); [done|].
    apply IH in Hok. by rewrite Hok, snoc_texts, <- app_assoc.
  - done.
Qed.

Lemma arrayLoop_texts sc elements : forall i params params',
  arrayLoop sc elements i params = Some (Ok params') ->
  params'.*2
  = params.*2 ++ paramTexts sc (Captured_node (ArrayExpression elements) (0, 0)).
Proof.
  induction elements as [|[r| |] elements IH]; intros i params params' Hok;
    simpl in *.
  - injection Hok as <-. by rewrite app_nil_r.
  - destruct (paramsHas (numberToString i) params); [done|].
    apply IH in Hok. by rewrite Hok, snoc_texts, <- app_assoc.
  - done.
  - done.
Qed.

Lemma valuesStep_texts sc c params params' :
  valuesStep getStaticKey sc c params = Some (Ok params') ->
  params'.*2 = params.*2 ++ paramTexts sc c.
Proof.
  destruct c as [| |[] r]; simpl; try done.
  - intros [= <-]. by rewrite app_nil_r.
  - intros [= Hok]. by apply objectLoop_texts.
  - apply arrayLoop_texts.
Qed.

Lemma key_is_new (keys : list JsString) (k : JsString) rest :
  NoDup ((Some <$> keys) ++ Some k :: rest) -> k ∉ keys.
Proof.
  intros Hnd Hin. apply NoDup_app in Hnd as (_ & Hdisj & _).
  apply (Hdisj (Some k)); [by apply list_elem_of_fmap_2|apply list_elem_of_here].
Qed.

Lemma keys_after_new (keys : list JsString) (k : JsString) rest :
  NoDup ((Some <$> keys) ++ Some k :: rest) ->
  NoDup ((Some <$> keys ++ [k]) ++ rest).
Proof. intros Hnd. by rewrite fmap_app, <- app_assoc. Qed.

Lemma objectLoop_complete sc properties : forall params,
  None ∉ paramKeys getStaticKey (Captured_node (ObjectExpression properties) (0, 0)) ->
  NoDup ((Some <$> params.*1)
         ++ paramKeys getStaticKey
              (Captured_node (ObjectExpression properties) (0, 0))) ->
  exists params', objectLoop getStaticKey sc properties params = Ok params'.
Proof.
  induction properties as [|[prop|] properties IH]; intros params Hsome Hnd;
    simpl in *.
  - by eexists.
  - destruct (getStaticKey prop) as [k|];
      [|destruct Hsome; apply list_elem_of_here].
    unfold paramsHas. rewrite bool_decide_eq_false_2 by (by eapply key_is_new).
    apply IH.
    + intros Hin. apply Hsome. by apply list_elem_of_further.
    + rewrite snoc_keys. by apply keys_after_new.
  - destruct Hsome. apply list_elem_of_here.
Qed.

Lemma arrayLoop_complete sc elements : forall i params,
  HoleElement ∉ elements ->
  None ∉ imap (fun j => elementKey (i + j)) elements ->
  NoDup ((Some <$> params.*1) ++ imap (fun j => elementKey (i + j)) elements) ->
  exists params', arrayLoop sc elements i params = Some (Ok params').
Proof.
  induction elements as [|[r| |] elements IH]; intros i params Hhole Hsome Hnd;
    simpl in *.
  - by eexists.
  - rewrite Nat.add_0_r, imap_elementKey_shift in Hsome, Hnd.
    unfold paramsHas. rewrite bool_decide_eq_false_2 by (by eapply key_is_new).
    apply IH.
    + intros Hin. apply Hhole. by apply list_elem_of_further.
    + intros Hin. apply Hsome. by apply list_elem_of_further.
    + rewrite snoc_keys. by apply keys_after_new.
  - destruct Hsome. apply list_elem_of_here.
  - destruct Hhole. apply list_elem_of_here.
Qed.

Lemma valuesStep_complete sc c params :
  isParamsShape c ->
  ¬ hasHole c ->
  None ∉ paramKeys getStaticKey c ->
  NoDup ((Some <$> params.*1) ++ paramKeys getStaticKey c) ->
  exists params', valuesStep getStaticKey sc c params = Some (Ok params').
Proof.
  destruct c as [| |[] r]; simpl; try done.
  - intros _ _ _ _. by eexists.
  - intros _ _ Hsome Hnd.
    destruct (objectLoop_complete sc properties params Hsome Hnd) as (? & ->).
    by eexists.
  - intros _ Hhole. apply (arrayLoop_complete sc elements 0).
    intros Hin. apply Hhole. by eexists _, _.
Qed.

End ListenerCompleteness.

Section ListenerFix.

Variable getStaticKey : Property -> option JsString.

(** What an offered fix tells about the captures and about itself. *)
Lemma translationJSX_fix_inv ctx (captured : gmap string Captured)
    props id render component values components env :
  captured !! "props"%string = Some props ->
  captured !! "id"%string = Some id ->
  captured !! "render"%string = Some render ->
  captured !! "component"%string = Some component ->
  captured !! "values"%string = Some values ->
  captured !! "components"%string = Some components ->
  translationJSX getStaticKey ctx captured
  = Some {| messageId := migrate_trans_jsx; fix_ := Some env |} ->
  (exists rid, id = Captured_node (Literal (StringValue (env_id env))) rid)
  ∧ env_renderInElement env
    = renderInElementOf (sourceCode ctx) render component
  ∧ exists params1,
      valuesStep getStaticKey (sourceCode ctx) values [] = Some (Ok params1)
      ∧ valuesStep getStaticKey (sourceCode ctx) components params1
        = Some (Ok (env_params env)).
Proof.
  intros Hprops Hid Hrender Hcomponent Hvalues Hcomponents.
  unfold translationJSX. rewrite Hprops. simpl.
  destruct props as [attributes| |]; [|done..].
  destruct (forallb migratableAttribute attributes); [|done].
  simpl. rewrite Hid. simpl.
  destruct id as [| |[| |[s|]| | | |] rid]; try done.
  rewrite Hrender. simpl.
  destruct render as [| |[] rr]; try done.
  all: rewrite Hcomponent; simpl.
  all: destruct component as [| |ce rc]; try done.
  all: try (destruct ce; try done).
  all: try (match goal with
            | |- context [eligibleForJSXTagNameExpression ?e true] =>
                destruct (eligibleForJSXTagNameExpression e true); [|done]
            end).
  all: rewrite Hvalues; simpl.
  all: destruct (valuesStep getStaticKey (sourceCode ctx) values [])
         as [[params1|]|]; simpl; [|done..].
  all: rewrite Hcomponents; simpl.
  all: destruct (valuesStep getStaticKey (sourceCode ctx) components params1)
         as [[params2|]|] eqn:Hc; simpl; [|done..].
  all: intros [= <-]; simpl.
  all: split; [by eexists|]; split; [done|]; by eexists.
Qed.

(** What a supported capture set consists of. *)
Lemma supported_captures_inv props id render component values components :
  ¬ unsupportedCaptures getStaticKey props id render component values components ->
  (exists attributes,
     props = PropsOf attributes
     ∧ forallb migratableAttribute attributes = true)
  ∧ isStringLiteral id
  ∧ supportedRender render
  ∧ supportedComponent component
  ∧ isParamsShape values ∧ isParamsShape components
  ∧ (None ∉ paramKeys getStaticKey values ++ paramKeys getStaticKey components)
  ∧ NoDup (paramKeys getStaticKey values ++ paramKeys getStaticKey components).
Proof.
  intros Hsup. repeat split.
  - destruct props as [attributes| |].
    + exists attributes. split; [done|].
      apply forallb_forall. intros attr Hin.
      apply migratableAttribute_spec. intros Hun. apply Hsup. right. left.
      exists attributes, attr. by rewrite list_elem_of_In.
    + destruct Hsup. by left.
    + destruct Hsup. by left.
  - destruct id as [| |[| |[s|]| | | |] rid];
      try (destruct Hsup; do 2 right; left; by intros (? & ? & ?)).
    by exists s, rid.
  - destruct render as [| |[] rr];
      try (destruct Hsup; do 3 right; left; by intros [?|(? & ?)]).
    + by left.
    + right. by exists rr.
  - destruct component as [| |ce rc].
    + destruct Hsup. do 4 right. left. by intros [?|(? & ? & ? & _)].
    + by left.
    + destruct (eligibleForJSXTagNameExpression ce true) eqn:Helig.
      * destruct ce;
          try (destruct Hsup; do 4 right; left;
               intros [?|(? & ? & [= <- <-] & [(? & ?)|(? & ? & ? & ?)] & _)];
               done).
        -- right. eexists _, _. split; [done|]. split; [|done].
           left. by eexists.
        -- right. eexists _, _. split; [done|]. split; [|done].
           right. by eexists _, _, _.
      * destruct Hsup. do 4 right. left.
        intros [?|(? & ? & [= <- <-] & _ & Hel)]; [done|]. congruence.
  - assert (Hd : isParamsShape values ∨ ¬ isParamsShape values)
      by (destruct values as [| |[] ?]; simpl; tauto).
    destruct Hd as [|Hno]; [done|].
    destruct Hsup. do 5 right. by left.
  - assert (Hd : isParamsShape components ∨ ¬ isParamsShape components)
      by (destruct components as [| |[] ?]; simpl; tauto).
    destruct Hd as [|Hno]; [done|].
    destruct Hsup. do 6 right. by left.
  - intros Hin. apply Hsup. do 7 right. by left.
  - destruct (decide (NoDup (paramKeys getStaticKey values
                             ++ paramKeys getStaticKey components)))
      as [|Hno]; [done|].
    destruct Hsup. by do 8 right.
Qed.

(** X9. The listener offers a fix exactly for the capture sets that
    are not unsupported and have no array hole: a [PropsOf] node with
    only allow-listed attributes, a string-literal id, render and
    component captures of a supported shape, and [values] /
    [components] with static, distinct keys, no spread and no hole. *)
Theorem fix_is_offered_iff_supported ctx (captured : gmap string Captured)
    props id render component values components :
  captured !! "props"%string = Some props ->
  captured !! "id"%string = Some id ->
  captured !! "render"%string = Some render ->
  captured !! "component"%string = Some component ->
  captured !! "values"%string = Some values ->
  captured !! "components"%string = Some components ->
  (exists env,
     translationJSX getStaticKey ctx captured
     = Some {| messageId := migrate_trans_jsx; fix_ := Some env |})
  <-> (¬ unsupportedCaptures getStaticKey
           props id render component values components
       ∧ ¬ hasHole values ∧ ¬ hasHole components).
Proof.
  intros Hprops Hid Hrender Hcomponent Hvalues Hcomponents. split.
  - intros (env & Hfix).
    destruct (translationJSX_cases getStaticKey ctx captured _ _ _ _ _ _
                Hprops Hid Hrender Hcomponent Hvalues Hcomponents)
      as [Hreport|[(env' & _ & Hsup)|[Hthrow _]]]; [|done|].
    + rewrite Hreport in Hfix. discriminate Hfix.
    + rewrite Hthrow in Hfix. discriminate Hfix.
  - intros (Hsup & Hhole1 & Hhole2).
    apply supported_captures_inv in Hsup
      as ((attributes & -> & Hattrs) & (s & rid & ->) & Hr & Hc
          & Hshape1 & Hshape2 & Hsome & Hnd).
    destruct (valuesStep_complete getStaticKey (sourceCode ctx) values [])
      as (params1 & Hv1); [done|done| |by apply NoDup_app in Hnd as (? & _)|].
    { intros Hin. apply Hsome, elem_of_app. by left. }
    destruct (valuesStep_Ok _ _ _ _ _ Hv1) as (_ & Hkeys1 & _).
    simpl in Hkeys1.
    destruct (valuesStep_complete getStaticKey (sourceCode ctx) components
                params1) as (params2 & Hv2); [done|done| |by rewrite Hkeys1|].
    { intros Hin. apply Hsome, elem_of_app. by right. }
    unfold translationJSX.
    rewrite Hprops. simpl. rewrite Hattrs. simpl. rewrite Hid. simpl.
    rewrite Hrender. simpl.
    destruct Hr as [->|(rr & ->)];
      rewrite Hcomponent; simpl;
      destruct Hc as [->|(e & rc & -> & [(n & ->)|(b & o & q & ->)] & Hel)];
      rewrite ?Hel, Hvalues; simpl;
      rewrite Hv1, Hcomponents; simpl; rewrite Hv2; by eexists.
Qed.

End ListenerFix.

Section FixContents.

Variable getStaticKey : Property -> option JsString.

(** X10. In an offered fix the component capture takes precedence over
    the render capture: [renderInElement] is [<C />] for a captured
    component [C]; without one it is the text of the captured render
    element, and it is absent when neither was captured. *)
Theorem component_overrides_render ctx (captured : gmap string Captured)
    props id render component values components env :
  captured !! "props"%string = Some props ->
  captured !! "id"%string = Some id ->
  captured !! "render"%string = Some render ->
  captured !! "component"%string = Some component ->
  captured !! "values"%string = Some values ->
  captured !! "components"%string = Some components ->
  translationJSX getStaticKey ctx captured
  = Some {| messageId := migrate_trans_jsx; fix_ := Some env |} ->
  env_renderInElement env
  = match component with
    | Captured_node _ r => Some (lit "<" ++ getText (sourceCode ctx) r ++ lit " />")
    | _ =>
        match render with
        | Captured_node _ r => Some (getText (sourceCode ctx) r)
        | _ => None
        end
    end.
Proof.
  intros Hprops Hid Hrender Hcomponent Hvalues Hcomponents Hfix.
  by destruct (translationJSX_fix_inv getStaticKey ctx captured _ _ _ _ _ _ _
                 Hprops Hid Hrender Hcomponent Hvalues Hcomponents Hfix)
    as (_ & Hr & _).
Qed.

(** X11. An offered fix carries the captured string id, and its
    parameters are those of [values] followed by those of [components]:
    their keys in that order, pairwise different, each with the source
    text of its value. *)
Theorem fix_carries_the_parameters ctx (captured : gmap string Captured)
    props id render component values components env :
  captured !! "props"%string = Some props ->
  captured !! "id"%string = Some id ->
  captured !! "render"%string = Some render ->
  captured !! "component"%string = Some component ->
  captured !! "values"%string = Some values ->
  captured !! "components"%string = Some components ->
  translationJSX getStaticKey ctx captured
  = Some {| messageId := migrate_trans_jsx; fix_ := Some env |} ->
  (exists rid, id = Captured_node (Literal (StringValue (env_id env))) rid)
  ∧ Some <$> (env_params env).*1
    = paramKeys getStaticKey values ++ paramKeys getStaticKey components
  ∧ NoDup (env_params env).*1
  ∧ (env_params env).*2
    = paramTexts (sourceCode ctx) values
      ++ paramTexts (sourceCode ctx) components.
Proof.
  intros Hprops Hid Hrender Hcomponent Hvalues Hcomponents Hfix.
  destruct (translationJSX_fix_inv getStaticKey ctx captured _ _ _ _ _ _ _
              Hprops Hid Hrender Hcomponent Hvalues Hcomponents Hfix)
    as (Hlit & _ & params1 & Hv1 & Hv2).
  split; [done|].
  destruct (valuesStep_Ok _ _ _ _ _ Hv1) as (_ & Hk1 & Hn1).
  destruct (valuesStep_Ok _ _ _ _ _ Hv2) as (_ & Hk2 & Hn2).
  apply valuesStep_texts in Hv1, Hv2. simpl in *.
  split; [by rewrite Hk2, Hk1|].
  split; [apply Hn2, Hn1; constructor|].
  by rewrite Hv2, Hv1.
Qed.

End FixContents.

Lemma trans_captures_fix :
  translationJSX exampleStaticKey trans_context trans_captures
  = Some {| messageId := migrate_trans_jsx;
            fix_ := Some {| env_id := lit "hi";
                            env_renderInElement := Some (lit "<B />");
                            env_params := [(lit "n", lit "x")] |} |}.
Proof. reflexivity. Qed.

Lemma component_overrides_render_witness :
  trans_captures !! "props"%string
  = Some (PropsOf [JSXAttribute (JSXIdentifier (lit "id"));
                   JSXAttribute (JSXIdentifier (lit "component"));
                   JSXAttribute (JSXIdentifier (lit "values"))])
  ∧ trans_captures !! "id"%string
    = Some (Captured_node (Literal (StringValue (lit "hi"))) (49, 53))
  ∧ trans_captures !! "render"%string = Some CaptureFailure
  ∧ trans_captures !! "component"%string
    = Some (Captured_node (Identifier (lit "B")) (65, 66))
  ∧ trans_captures !! "values"%string
    = Some (Captured_node
              (ObjectExpression
                 [PropertyMember {| key := KeyIdentifier (lit "n");
                                    computed := false;
                                    value_range := (80, 81) |}])
              (76, 82))
  ∧ trans_captures !! "components"%string = Some CaptureFailure
  ∧ translationJSX exampleStaticKey trans_context trans_captures
    = Some {| messageId := migrate_trans_jsx;
              fix_ := Some {| env_id := lit "hi";
                              env_renderInElement := Some (lit "<B />");
                              env_params := [(lit "n", lit "x")] |} |}
  ∧ Some (lit "<B />")
    = Some (lit "<" ++ getText (sourceCode trans_context) (65, 66) ++ lit " />").
Proof.
  do 6 (split; [reflexivity|]). split; [exact trans_captures_fix|].
  exact (component_overrides_render exampleStaticKey trans_context
           trans_captures _ _ _ _ _ _ _
           eq_refl eq_refl eq_refl eq_refl eq_refl eq_refl trans_captures_fix).
Defined.

Lemma fix_carries_the_parameters_witness :
  let values :=
    Captured_node
      (ObjectExpression
         [PropertyMember {| key := KeyIdentifier (lit "n");
                            computed := false;
                            value_range := (80, 81) |}])
      (76, 82) in
  let env := {| env_id := lit "hi";
                env_renderInElement := Some (lit "<B />");
                env_params := [(lit "n", lit "x")] |} in
  trans_captures !! "props"%string
  = Some (PropsOf [JSXAttribute (JSXIdentifier (lit "id"));
                   JSXAttribute (JSXIdentifier (lit "component"));
                   JSXAttribute (JSXIdentifier (lit "values"))])
  ∧ trans_captures !! "id"%string
    = Some (Captured_node (Literal (StringValue (lit "hi"))) (49, 53))
  ∧ trans_captures !! "render"%string = Some CaptureFailure
  ∧ trans_captures !! "component"%string
    = Some (Captured_node (Identifier (lit "B")) (65, 66))
  ∧ trans_captures !! "values"%string = Some values
  ∧ trans_captures !! "components"%string = Some CaptureFailure
  ∧ translationJSX exampleStaticKey trans_context trans_captures
    = Some {| messageId := migrate_trans_jsx; fix_ := Some env |}
  ∧ (exists rid,
       Captured_node (Literal (StringValue (lit "hi"))) (49, 53)
       = Captured_node (Literal (StringValue (env_id env))) rid)
  ∧ Some <$> (env_params env).*1
    = paramKeys exampleStaticKey values
      ++ paramKeys exampleStaticKey CaptureFailure
  ∧ NoDup (env_params env).*1
  ∧ (env_params env).*2
    = paramTexts (sourceCode trans_context) values
      ++ paramTexts (sourceCode trans_context) CaptureFailure.
Proof.
  intros values env.
  do 6 (split; [reflexivity|]). split; [exact trans_captures_fix|].
  exact (fix_carries_the_parameters exampleStaticKey trans_context
           trans_captures _ _ _ _ _ _ _
           eq_refl eq_refl eq_refl eq_refl eq_refl eq_refl trans_captures_fix).
Defined.

Lemma nzhead_not_zero d :
  match Decimal.nzhead d with Decimal.D0 _ => False | _ => True end.
Proof. induction d; simpl; done. Qed.

Lemma to_uint_normal i : Nat.to_uint i = Decimal.unorm (Nat.to_uint i).
Proof.
  pose proof (Unsigned.to_of (Nat.to_uint i)) as H.
  by rewrite Unsigned.of_to in H.
Qed.

Lemma isArrayIndexKey_numberToString i :
  isArrayIndexKey (numberToString i) = true.
Proof.
  unfold numberToString. rewrite to_uint_normal. unfold Decimal.unorm.
  pose proof (nzhead_not_zero (Nat.to_uint i)) as Hnz.
  pose proof (digits_isDigit (Decimal.nzhead (Nat.to_uint i))) as Hd.
  destruct (Decimal.nzhead (Nat.to_uint i)) as [|d|d|d|d|d|d|d|d|d|d];
    try done; simpl in *;
    apply Forall_cons in Hd as [_ Hd];
    (destruct (digits d) eqn:Hdig; [done|]);
    apply forallb_forall; intros c Hc;
    rewrite Forall_forall in Hd; apply Hd; by apply list_elem_of_In.
Qed.

(** X13. Every key the array loop generates is a canonical decimal
    index, so an array element whose index is not a JSX attribute name
    is emitted as the spread [{...{ i: value }}] with the index
    unquoted. *)
Theorem array_parameter_is_spread_by_index
    (isJSXAttributeName : JsString -> bool) i value :
  isJSXAttributeName (numberToString i) = false ->
  isArrayIndexKey (numberToString i) = true
  ∧ paramAttribute isJSXAttributeName (numberToString i, value)
    = lit "{...{ " ++ numberToString i ++ lit ": " ++ value ++ lit " }}".
Proof.
  intros Hname. split; [apply isArrayIndexKey_numberToString|].
  unfold paramAttribute. simpl.
  by rewrite Hname, isArrayIndexKey_numberToString.
Qed.

Lemma array_parameter_is_spread_by_index_witness :
  exampleAttributeName (numberToString 10) = false
  ∧ isArrayIndexKey (numberToString 10) = true
  ∧ paramAttribute exampleAttributeName (numberToString 10, lit "x")
    = lit "{...{ " ++ numberToString 10 ++ lit ": " ++ lit "x" ++ lit " }}".
Proof.
  split; [reflexivity|].
  exact (array_parameter_is_spread_by_index exampleAttributeName 10 (lit "x")
           eq_refl).
Defined.

(** X12. The fix generator always completes. It yields the edits of the
    two import requests, at most two and all of them insertions, and
    then exactly one replacement of the matched element, whose text is
    [<Name book={book} id=...] followed by the other attributes and
    [ />], with the two names the import requests returned. *)
Theorem fix_is_imports_then_one_replacement
    (isJSXAttributeName : JsString -> bool) ctx node env :
  exists translate book replacement,
    fixImports ctx = Some (translate, book)
    ∧ runFix isJSXAttributeName ctx node env
      = Some (translate.1 ++ book.1 ++ [replacement])
    ∧ length (translate.1 ++ book.1) <= 2
    ∧ Forall isInsertion (translate.1 ++ book.1)
    ∧ fix_range replacement = node
    ∧ (lit "<" ++ translate.2 ++ lit " book={" ++ book.2 ++ lit "} id="
       ++ jsxAttributeString (env_id env)) `prefix_of` fix_text replacement
    ∧ lit " />" `suffix_of` fix_text replacement.
Proof.
  destruct (getOrInsertImport_total (sourceCode ctx) (scopeManager ctx)
              (lit "@hi18n/react") (lit "Translate")
              [lit "@lingui/react"; lit "@lingui/macro"] false)
    as [[fixes1 name1] H1].
  destruct (getOrInsertImport_total (sourceCode ctx) (scopeManager ctx)
              (bookPath ctx) (lit "book") [] true) as [[fixes2 name2] H2].
  assert (Himports : fixImports ctx = Some ((fixes1, name1), (fixes2, name2))).
  { unfold fixImports. by rewrite H1, H2. }
  exists (fixes1, name1), (fixes2, name2).
  exists (replaceText node
            (lit "<" ++ name1
             ++ concat ((fun a => lit " " ++ a) <$>
                  ([lit "book={" ++ name2 ++ lit "}";
                    lit "id=" ++ jsxAttributeString (env_id env)]
                   ++ match env_renderInElement env with
                      | Some r => [lit "renderInElement={" ++ r ++ lit "}"]
                      | None => []
                      end
                   ++ (paramAttribute isJSXAttributeName <$> env_params env)))
             ++ lit " />")).
  split; [done|]. split.
  { unfold runFix. by rewrite Himports. }
  apply getOrInsertImport_fixes in H1 as [Hl1 Hi1].
  apply getOrInsertImport_fixes in H2 as [Hl2 Hi2].
  cbn [fst snd]. split; [rewrite length_app; lia|].
  split; [by apply Forall_app|]. split; [done|]. split.
  - exists (concat ((fun a => lit " " ++ a) <$>
              (match env_renderInElement env with
               | Some r => [lit "renderInElement={" ++ r ++ lit "}"]
               | None => []
               end
               ++ (paramAttribute isJSXAttributeName <$> env_params env)))
            ++ lit " />").
    unfold replaceText. cbn [fix_text].
    rewrite <- !app_assoc. do 2 f_equal.
    cbn [app fmap list_fmap concat]. rewrite <- !app_assoc. reflexivity.
  - eexists. unfold replaceText. cbn [fix_text].
    rewrite !app_assoc. reflexivity.
Qed.

(** The whole fix for the example file: [Translate] is imported before
    the Lingui import, [book] after it, and the element is replaced. *)
Example fix_of_the_example_file :
  runFix exampleAttributeName trans_context trans_node
    {| env_id := lit "hi";
       env_renderInElement := Some (lit "<B />");
       env_params := [(lit "n", lit "x")] |}
  = Some
      [{| fix_range := (0, 0);
          fix_text := lit "import { Translate } from " ++ quoted "@hi18n/react"
                      ++ lit ";" ++ [LF] |};
       {| fix_range := (38, 38);
          fix_text := [LF] ++ lit "import { book } from " ++ quoted "./locale"
                      ++ lit ";" |};
       {| fix_range := (39, 86);
          fix_text := lit "<Translate book={book} id=" ++ quoted "hi"
                      ++ lit " renderInElement={<B />} n={x} />" |}].
Proof. reflexivity. Qed.

(** * Properties of [Book] and [selectLocale] *)

Section SelectLocale.

Variable defaultErrorHandler : Core.ErrorHandler.

Lemma hasOwn_spec (o : Core.Entries) s : Core.hasOwn o s = true <-> s ∈ o.*1.
Proof. unfold Core.hasOwn. apply bool_decide_eq_true. Qed.

(** X14. [selectLocale] returns the first requested locale the book has
    an entry for (a catalog or a loader), whatever was requested after
    it; the error handler is not called. *)
Theorem selectLocale_picks_first_known book locales before l after :
  Core.localesArrayOf locales = before ++ l :: after ->
  (forall l', l' ∈ before -> l' ∉ (Core._loaders book).*1) ->
  l ∈ (Core._loaders book).*1 ->
  Core.selectLocale defaultErrorHandler book locales = ([], Core.Normal l).
Proof.
  intros Harr Hbefore Hl. unfold Core.selectLocale. rewrite Harr.
  rewrite filter_app, filter_cons.
  rewrite (filter_none _ before).
  2:{ intros l' Hin Hown. apply hasOwn_spec in Hown. by apply (Hbefore l'). }
  rewrite decide_True by (by apply hasOwn_spec). done.
Qed.

(** X15. When the book has an entry for none of the requested locales,
    the error is [NoLocaleError] for an empty request and otherwise
    [MissingLocaleError] with the first requested locale and the book's
    locales. Without an implicit locale it is thrown and the handler is
    not called. With one, the handler (the book's, or the default one)
    is called once with the error at level [error]; the implicit locale
    is returned if the handler returns, and what the handler throws is
    thrown otherwise. *)
Theorem selectLocale_falls_back book locales :
  (forall l, l ∈ Core.localesArrayOf locales -> l ∉ (Core._loaders book).*1) ->
  let error :=
    match Core.localesArrayOf locales with
    | [] => Core.NoLocaleError
    | l0 :: _ => Core.MissingLocaleError l0 (Core._loaders book).*1
    end in
  let handler := default defaultErrorHandler (Core._handleError book) in
  Core.selectLocale defaultErrorHandler book locales
  = match Core._implicitLocale book with
    | None => ([], Core.Throw error)
    | Some il =>
        ([(error, Core.level_error)],
         match handler error Core.level_error with
         | Core.Normal _ => Core.Normal il
         | Core.Throw e => Core.Throw e
         end)
    end.
Proof.
  intros Hnone error handler. unfold Core.selectLocale.
  rewrite (filter_none _ (Core.localesArrayOf locales)).
  2:{ intros l Hin Hown. apply hasOwn_spec in Hown. by apply (Hnone l). }
  destruct (Core._implicitLocale book) as [il|]; [|done].
  unfold Core.handleError. fold handler. fold error.
  by destruct (handler error Core.level_error).
Qed.

End SelectLocale.

Lemma selectLocale_picks_first_known_witness :
  Core.localesArrayOf (Core.ManyLocales [lit "de"; lit "ja"; lit "en"])
  = [lit "de"] ++ lit "ja" :: [lit "en"]
  ∧ (forall l', l' ∈ [lit "de"] -> l' ∉ (Core._loaders Core.exampleBook).*1)
  ∧ lit "ja" ∈ (Core._loaders Core.exampleBook).*1
  ∧ Core.selectLocale Core.throwingHandler Core.exampleBook
      (Core.ManyLocales [lit "de"; lit "ja"; lit "en"])
    = ([], Core.Normal (lit "ja")).
Proof.
  assert (H1 : forall l', l' ∈ [lit "de"] ->
                          l' ∉ (Core._loaders Core.exampleBook).*1).
  { intros l' ->%list_elem_of_singleton Hin.
    repeat (apply elem_of_cons in Hin as [Hin|Hin]; [discriminate Hin|]).
    by apply elem_of_nil in Hin. }
  assert (H2 : lit "ja" ∈ (Core._loaders Core.exampleBook).*1).
  { do 2 apply list_elem_of_further. apply list_elem_of_here. }
  split; [reflexivity|]. split; [exact H1|]. split; [exact H2|].
  exact (selectLocale_picks_first_known Core.throwingHandler Core.exampleBook
           (Core.ManyLocales [lit "de"; lit "ja"; lit "en"])
           [lit "de"] (lit "ja") [lit "en"] eq_refl H1 H2).
Defined.

Lemma selectLocale_falls_back_witness :
  (forall l, l ∈ Core.localesArrayOf (Core.OneLocale (lit "de")) ->
             l ∉ (Core._loaders Core.exampleBook).*1)
  ∧ Core.selectLocale Core.quietHandler Core.exampleBook
      (Core.OneLocale (lit "de"))
    = ([(Core.MissingLocaleError (lit "de") [lit "en"; lit "fr"; lit "ja"],
         Core.level_error)],
       Core.Normal (lit "en")).
Proof.
  assert (H1 : forall l, l ∈ Core.localesArrayOf (Core.OneLocale (lit "de")) ->
                         l ∉ (Core._loaders Core.exampleBook).*1).
  { intros l' ->%list_elem_of_singleton Hin.
    repeat (apply elem_of_cons in Hin as [Hin|Hin]; [discriminate Hin|]).
    by apply elem_of_nil in Hin. }
  split; [exact H1|].
  exact (selectLocale_falls_back Core.quietHandler Core.exampleBook
           (Core.OneLocale (lit "de")) H1).
Defined.

(** ** The [Book] constructor *)

Lemma newBook_Normal_inv argument options heap heap' book :
  Core.newBook argument options heap = (heap', Core.Normal book) ->
  exists this_catalogs,
    Core.registerCatalogs argument heap Core.emptyObject
    = (heap', Core.Normal this_catalogs)
    ∧ book = {| Core.catalogs := this_catalogs;
                Core._loaders := argument;
                Core._handleError := Core.handleError_option options;
                Core._implicitLocale := Core.implicitLocale options |}
    ∧ forall il, Core.implicitLocale options = Some il -> il ∈ argument.*1.
Proof.
  unfold Core.newBook.
  destruct (Core.registerCatalogs argument heap Core.emptyObject)
    as [heap1 [o|e]]; [|done].
  destruct (Core.implicitLocale options) as [il|] eqn:Himp.
  - destruct (Core.hasOwn argument il) eqn:Hown; [|done].
    simpl. intros [= <- <-]. exists o. split; [done|]. split; [done|].
    intros il' [= <-]. by apply hasOwn_spec.
  - intros [= <- <-]. exists o. split; [done|]. split; [done|]. done.
Qed.

(** X16. A book the constructor returned never yields an unknown
    locale: whatever [selectLocale] returns for it, also through the
    implicit locale, is a key of the record the book was built from. *)
Theorem constructed_book_selects_known_locale
    defaultErrorHandler argument options heap heap' book locales calls l :
  Core.newBook argument options heap = (heap', Core.Normal book) ->
  Core.selectLocale defaultErrorHandler book locales = (calls, Core.Normal l) ->
  l ∈ argument.*1.
Proof.
  intros (o & _ & -> & Himp)%newBook_Normal_inv.
  unfold Core.selectLocale. simpl.
  destruct (filter _ (Core.localesArrayOf locales)) as [|first rest] eqn:Hf.
  - destruct (Core.implicitLocale options) as [il|]; [|done].
    destruct (Core.handleError _ _ _ _); [|done].
    intros [= _ <-]. by apply Himp.
  - intros [= _ <-].
    assert (Hin : first ∈ filter
                    (fun l => Core.hasOwn argument l = true)
                    (Core.localesArrayOf locales))
      by (rewrite Hf; apply list_elem_of_here).
    apply list_elem_of_filter in Hin as [Hown _]. by apply hasOwn_spec.
Qed.

Lemma constructed_book_selects_known_locale_witness :
  Core.newBook Core.exampleArgument Core.exampleOptions Core.exampleHeap
  = (Core.heapSet Core.exampleHeap 1
       {| Core.locale := Some (lit "fr"); Core._looseLocale := true |},
     Core.Normal Core.exampleBook)
  ∧ Core.selectLocale Core.quietHandler Core.exampleBook
      (Core.OneLocale (lit "de"))
    = ([(Core.MissingLocaleError (lit "de") [lit "en"; lit "fr"; lit "ja"],
         Core.level_error)],
       Core.Normal (lit "en"))
  ∧ lit "en" ∈ Core.exampleArgument.*1.
Proof.
  split; [reflexivity|]. split; [reflexivity|].
  exact (constructed_book_selects_known_locale Core.quietHandler
           Core.exampleArgument Core.exampleOptions Core.exampleHeap
           _ _ (Core.OneLocale (lit "de")) _ _ eq_refl eq_refl).
Defined.

(** Writes only set the locale of a loose catalog: looseness never
    changes, and the locale of a catalog that is not loose stays. *)
Lemma registerCatalogs_preserves entries : forall heap o heap' c,
  Core.registerCatalogs entries heap o = (heap', c) ->
  forall ref,
    Core._looseLocale (heap' ref) = Core._looseLocale (heap ref)
    ∧ (Core._looseLocale (heap ref) = false ->
       Core.locale (heap' ref) = Core.locale (heap ref)).
Proof.
  induction entries as [|[l [r|]] entries IH]; intros heap o heap' c Hreg ref;
    simpl in Hreg.
  - by injection Hreg as <- _.
  - destruct (Core._looseLocale (heap r)) eqn:Hloose.
    + pose proof (IH _ _ _ _ Hreg ref) as [Hl Hloc].
      unfold Core.heapSet in Hl, Hloc.
      destruct (bool_decide (ref = r)) eqn:Heq; [|done].
      apply bool_decide_eq_true in Heq. subst r.
      simpl in Hl. split; [done|]. intros Hfalse. congruence.
    + case_bool_decide; [by eapply IH|]. by injection Hreg as <- _.
  - by eapply IH.
Qed.

(** X18. Construction succeeds exactly when every catalog object of the
    record is loose or carries the key it is registered under as its
    locale, and the implicit locale, if any, is a key of the record;
    otherwise the constructor throws. *)
Theorem newBook_succeeds_iff argument options heap :
  (exists heap' book,
     Core.newBook argument options heap = (heap', Core.Normal book))
  <-> (forall l ref,
         (l, Core.CatalogEntry ref) ∈ argument ->
         Core._looseLocale (heap ref) = true
         ∨ Core.locale (heap ref) = Some l)
      ∧ (forall il, Core.implicitLocale options = Some il -> il ∈ argument.*1).
Proof.
  assert (Hreg : forall entries heap0 o,
    (forall ref,
       Core._looseLocale (heap0 ref) = Core._looseLocale (heap ref)
       ∧ (Core._looseLocale (heap ref) = false ->
          Core.locale (heap0 ref) = Core.locale (heap ref))) ->
    (exists heap' o', Core.registerCatalogs entries heap0 o
                      = (heap', Core.Normal o'))
    <-> (forall l ref,
           (l, Core.CatalogEntry ref) ∈ entries ->
           Core._looseLocale (heap ref) = true
           ∨ Core.locale (heap ref) = Some l)).
  { induction entries as [|[l [r|]] entries IH]; intros heap0 o Hsame; simpl.
    - split; [|by eexists _, _]. intros _ l ref Hin.
      by apply elem_of_nil in Hin.
    - destruct (Hsame r) as [Hl Hloc].
      destruct (Core._looseLocale (heap0 r)) eqn:Hloose.
      + rewrite IH.
        * split.
          -- intros Hall l' ref [[= -> ->]|Hin]%elem_of_cons; [|by apply Hall].
             left. by rewrite <- Hl.
          -- intros Hall l' ref Hin. by apply Hall, list_elem_of_further.
        * intros ref. unfold Core.heapSet. case_bool_decide as Heq; [|done].
          subst ref. simpl. rewrite <- Hl. split; [done|]. discriminate.
      + case_bool_decide as Hlocale.
        * rewrite (IH heap0 _ Hsame). split.
          -- intros Hall l' ref [[= -> ->]|Hin]%elem_of_cons; [|by apply Hall].
             right. rewrite <- Hloc; [done|]. by rewrite <- Hl.
          -- intros Hall l' ref Hin. by apply Hall, list_elem_of_further.
        * split; [by intros (? & ? & ?)|]. intros Hall.
          destruct (Hall l r) as [Hb|Hb]; [apply list_elem_of_here|..].
          -- congruence.
          -- destruct Hlocale. rewrite Hloc; [done|]. by rewrite <- Hl.
    - rewrite (IH heap0 _ Hsame). split.
      + intros Hall l' ref [[=]|Hin]%elem_of_cons. by apply Hall.
      + intros Hall l' ref Hin. by apply Hall, list_elem_of_further. }
  split.
  - intros (heap' & book & (o & Hr & _ & Himp)%newBook_Normal_inv).
    split; [|done]. apply (Hreg argument heap Core.emptyObject); [done|].
    by exists heap', o.
  - intros [Hall Himp].
    apply (Hreg argument heap Core.emptyObject) in Hall as (heap' & o & Hr);
      [|done].
    unfold Core.newBook. rewrite Hr.
    destruct (Core.implicitLocale options) as [il|]; [|by eexists _, _].
    rewrite (proj2 (hasOwn_spec argument il)) by (by apply Himp).
    by eexists _, _.
Qed.

(** A catalog whose locale is not its key, and an implicit locale that
    is not a key, make the constructor throw. *)
Example newBook_throws :
  (Core.newBook [(lit "ja", Core.CatalogEntry 0)]
     {| Core.handleError_option := None; Core.implicitLocale := None |}
     Core.exampleHeap).2
  = Core.Throw (Core.Error_ (lit "Locale mismatch: expected ja, got en"))
  ∧ (Core.newBook [(lit "en", Core.CatalogEntry 0)]
       {| Core.handleError_option := None;
          Core.implicitLocale := Some (lit "ja") |}
       Core.exampleHeap).2
    = Core.Throw (Core.Error_ (lit "Invalid implicitLocale: ja")).
Proof. split; reflexivity. Qed.




(** Without the condition on the objects the first part fails: one
    loose catalog registered under two locales ends with the second
    one. *)
Example shared_loose_catalog :
  match Core.newBook [(lit "en", Core.CatalogEntry 1);
                      (lit "fr", Core.CatalogEntry 1)]
          {| Core.handleError_option := None; Core.implicitLocale := None |}
          Core.exampleHeap with
  | (heap', Core.Normal book) =>
      Core.own (Core.catalogs book) !! lit "en" = Some 1
      ∧ Core.locale (heap' 1) = Some (lit "fr")
  | _ => False
  end.
Proof. split; reflexivity. Qed.

(** ** [Catalog.getCompiledMessage] *)

Section CompiledCache.

Context {CompiledMessage : Type}.
Variable isObject : CompiledMessage -> bool.
Variable parseMessage : JsString -> Core.Completion CompiledMessage.

(** X19. A message is compiled once. After a call that returns for an
    id other than [__proto__], the returned message is cached under
    that id, the messages and the other cache entries are as before,
    and a further call returns the same message without changing the
    catalog, whatever the parser would do then. *)
Theorem compiled_message_is_cached
    (laterParser : JsString -> Core.Completion CompiledMessage)
    this id this' r :
  id ≠ lit "__proto__" ->
  Core.getCompiledMessage isObject parseMessage this id
  = (this', Core.Normal r) ->
  (exists c,
     r = Core.Message c
     ∧ Core.compiled_own (Core._compiled this') !! id = Some c)
  ∧ Core.data this' = Core.data this
  ∧ (forall id', id' ≠ id ->
       Core.compiled_own (Core._compiled this') !! id'
       = Core.compiled_own (Core._compiled this) !! id')
  ∧ Core.getCompiledMessage isObject laterParser this' id
    = (this', Core.Normal r).
Proof.
  intros Hid. unfold Core.getCompiledMessage.
  destruct (Core.compiled_own (Core._compiled this) !! id) as [c|] eqn:Hown.
  - intros [= <- <-]. unfold Core.getCompiled. rewrite Hown.
    split; [by exists c|]. done.
  - destruct (Core.data this !! id) as [msg|]; [|done].
    destruct (parseMessage msg) as [c|e]; [|done].
    intros [= <- <-]. simpl. unfold Core.setCompiled, Core.getCompiled.
    rewrite bool_decide_eq_false_2 by done. simpl.
    rewrite lookup_insert_eq. split; [by exists c|]. split; [done|].
    split; [|done]. intros id' Hne. by apply lookup_insert_ne.
Qed.


Lemma new_catalog_is_coherent d :
  Core.coherent parseMessage (Core.newCatalogState d).
Proof. intros id c H. simpl in H. by rewrite lookup_empty in H. Qed.

End CompiledCache.

Lemma compiled_message_is_cached_witness :
  let this' :=
    {| Core.data := Core.exampleData;
       Core._compiled :=
         {| Core.compiled_own := <[lit "greeting" := 5]> ∅;
            Core.compiled_proto := None |} |} in
  lit "greeting" ≠ lit "__proto__"
  ∧ Core.getCompiledMessage (fun _ => false) Core.exampleParse
      (Core.newCatalogState (CompiledMessage:=nat) Core.exampleData) (lit "greeting")
    = (this', Core.Normal (Core.Message 5))
  ∧ Core.getCompiledMessage (fun _ => false)
      (fun _ => Core.Throw (Core.OtherException 1)) this' (lit "greeting")
    = (this', Core.Normal (Core.Message 5)).
Proof.
  intros this'.
  assert (H1 : lit "greeting" ≠ lit "__proto__") by discriminate.
  assert (H2 : Core.getCompiledMessage (fun _ => false) Core.exampleParse
                 (Core.newCatalogState (CompiledMessage:=nat) Core.exampleData) (lit "greeting")
               = (this', Core.Normal (Core.Message 5))) by reflexivity.
  split; [exact H1|]. split; [exact H2|].
  exact (proj2 (proj2 (proj2
           (compiled_message_is_cached (fun _ => false) Core.exampleParse
              (fun _ => Core.Throw (Core.OtherException 1))
              _ _ _ _ H1 H2)))).
Defined.



(** A missing id throws [MissingTranslationError]; the key [__proto__]
    is never cached. *)
Example getCompiledMessage_edges :
  Core.getCompiledMessage (fun _ => false) Core.exampleParse
    (Core.newCatalogState (CompiledMessage:=nat) Core.exampleData) (lit "missing")
  = ((Core.newCatalogState (CompiledMessage:=nat) Core.exampleData),
     Core.Throw Core.MissingTranslationError)
  ∧ Core.getCompiledMessage (fun _ => false) Core.exampleParse
      (Core.newCatalogState (CompiledMessage:=nat) (<[lit "__proto__" := lit "x"]> Core.exampleData))
      (lit "__proto__")
    = (Core.newCatalogState (CompiledMessage:=nat) (<[lit "__proto__" := lit "x"]> Core.exampleData),
       Core.Normal (Core.ObjectPrototype (CompiledMessage:=nat))).
Proof. split; reflexivity. Qed.

Lemma fix_is_offered_iff_supported_witness :
  let props := PropsOf [JSXAttribute (JSXIdentifier (lit "id"));
                        JSXAttribute (JSXIdentifier (lit "component"));
                        JSXAttribute (JSXIdentifier (lit "values"))] in
  let id := Captured_node (Literal (StringValue (lit "hi"))) (49, 53) in
  let component := Captured_node (Identifier (lit "B")) (65, 66) in
  let values :=
    Captured_node
      (ObjectExpression
         [PropertyMember {| key := KeyIdentifier (lit "n");
                            computed := false;
                            value_range := (80, 81) |}])
      (76, 82) in
  trans_captures !! "props"%string = Some props
  ∧ trans_captures !! "id"%string = Some id
  ∧ trans_captures !! "render"%string = Some CaptureFailure
  ∧ trans_captures !! "component"%string = Some component
  ∧ trans_captures !! "values"%string = Some values
  ∧ trans_captures !! "components"%string = Some CaptureFailure
  ∧ (exists env,
       translationJSX exampleStaticKey trans_context trans_captures
       = Some {| messageId := migrate_trans_jsx; fix_ := Some env |})
  ∧ ¬ unsupportedCaptures exampleStaticKey
        props id CaptureFailure component values CaptureFailure
  ∧ ¬ hasHole values ∧ ¬ hasHole CaptureFailure.
Proof.
  intros props id component values.
  do 6 (split; [reflexivity|]).
  assert (Hfix : exists env,
             translationJSX exampleStaticKey trans_context trans_captures
             = Some {| messageId := migrate_trans_jsx; fix_ := Some env |})
    by (eexists; reflexivity).
  split; [exact Hfix|].
  exact (proj1 (fix_is_offered_iff_supported exampleStaticKey trans_context
                  trans_captures props id CaptureFailure component values
                  CaptureFailure eq_refl eq_refl eq_refl eq_refl eq_refl
                  eq_refl) Hfix).
Defined.

(** A hole between two elements of [components]: no key is missing,
    repeated or spread, so the capture set is not unsupported, and yet
    the listener offers no fix: it throws at the hole. *)
Example hole_between_elements_throws :
  sparse_captures !! "components"%string = Some sparse_components
  ∧ hasHole sparse_components
  ∧ ¬ unsupportedCaptures exampleStaticKey components_props components_id
        CaptureFailure CaptureFailure CaptureFailure sparse_components
  ∧ translationJSX exampleStaticKey sparse_context sparse_captures = None.
Proof.
  split; [reflexivity|]. split.
  { eexists _, _. split; [reflexivity|].
    apply list_elem_of_further, list_elem_of_here. }
  split; [|reflexivity].
  intros [Hbad|[Hbad|[Hbad|[Hbad|[Hbad|[Hbad|[Hbad|[Hbad|Hbad]]]]]]]].
  - by eapply Hbad.
  - destruct Hbad as (attrs & attr & [= <-] & Hin & Hun).
    apply (migratableAttribute_spec attr); [|done].
    repeat (apply elem_of_cons in Hin as [->|Hin]; [reflexivity|]).
    by apply elem_of_nil in Hin.
  - apply Hbad. by eexists _, _.
  - apply Hbad. by left.
  - apply Hbad. by left.
  - by apply Hbad.
  - by apply Hbad.
  - simpl in Hbad.
    repeat (apply elem_of_cons in Hbad as [Hbad|Hbad]; [discriminate Hbad|]).
    by apply elem_of_nil in Hbad.
  - apply Hbad. vm_compute.
    repeat (apply NoDup_cons; split;
            [intros Hin;
             repeat (apply elem_of_cons in Hin as [Hin|Hin];
                     [discriminate Hin|]);
             by apply elem_of_nil in Hin|]).
    apply NoDup_nil_2.
Qed.
